(** * Tree queries and reparse handler of the Elm language server

    A shallow embedding of [TreeUtils] (tree navigation, exposing-list
    queries, structural type resolution) and of
    [ASTProvider.handleChangeTextDocument], with the properties the
    specification states about them.

    Syntax trees are rose trees; a [SyntaxNode] is a handle into a tree:
    the tree, the path from the node up to the root, and the node itself,
    which is what the parser library's parent back-references amount to. *)

From Stdlib Require Import String Ascii List ZArith Lia Bool Arith.
From stdpp Require Import gmap strings list fin_maps.
Import ListNotations.

Local Open Scope string_scope.
Local Open Scope list_scope.

(** ** JavaScript values the code relies on *)

(** Faults a call can end with: a [TypeError] (a property read on
    [undefined]) or a failed read from storage. *)
Inductive JsError : Type :=
  | TypeError (msg : string)
  | IOError (path : string).

Inductive JsResult (A : Type) : Type :=
  | Ok (a : A)
  | Throw (e : JsError).
Arguments Ok {A} a.
Arguments Throw {A} e.

Definition bindR {A B : Type} (r : JsResult A) (k : A -> JsResult B) : JsResult B :=
  match r with
  | Ok a => k a
  | Throw e => Throw e
  end.

(** [arr[i]] for a JavaScript array: [undefined] outside the array, also
    for a negative index; it never faults. *)
Definition js_index {A : Type} (arr : list A) (i : Z) : option A :=
  if (i <? 0)%Z then None else nth_error arr (Z.to_nat i).

(** [arr.findIndex(p)]: the index of the first element satisfying [p],
    [-1] when there is none. *)
Fixpoint findIndex {A : Type} (p : A -> bool) (arr : list A) : Z :=
  match arr with
  | [] => (-1)%Z
  | a :: arr' =>
      if p a then 0%Z
      else let r := findIndex p arr' in
           if (r <? 0)%Z then (-1)%Z else (r + 1)%Z
  end.

(** [s.split("\n")] *)
Definition newline : ascii := ascii_of_nat 10.

Fixpoint js_split_lines (s : string) : list string :=
  match s with
  | EmptyString => [EmptyString]
  | String c s' =>
      if Ascii.eqb c newline then EmptyString :: js_split_lines s'
      else match js_split_lines s' with
           | l :: ls => String c l :: ls
           | [] => [String c EmptyString]
           end
  end.

(** [s.substring(a, b)]: the two indices are swapped when [a > b] and
    both are clamped to the length of [s]. *)
Definition js_substring (s : string) (a b : nat) : string :=
  String.substring (Nat.min a b) (Nat.max a b - Nat.min a b) s.

(** [s.startsWith(p)] *)
Definition startsWith (s p : string) : bool := String.prefix p s.

(** A string in a condition: the empty string counts as false. *)
Definition truthy (s : string) : bool := negb (String.eqb s "").

(** ** Syntax trees *)

(** A node of a parse tree: its kind tag, whether it is a named node,
    the field of its parent it sits in (if any), its text and its
    children in order. *)
#[local] Unset Elimination Schemes.
Inductive Node : Type :=
  mkNode { type : string;
           isNamed : bool;
           fieldName : option string;
           text : string;
           children : list Node }.
#[local] Set Elimination Schemes.

(** The parsed tree of one file, with the file identity the server
    attaches to it ([tree.uri]); the empty string also stands for a tree
    without one. *)
Record Tree : Type := mkTree { uri : string; rootNode_ : Node }.

(** A node handle. [rpath] lists the child indices from the node up to
    the root, so the parent's path is its tail. *)
Record SyntaxNode : Type :=
  mkSyntaxNode { tree : Tree; rpath : list nat; self : Node }.

Fixpoint node_at (n : Node) (p : list nat) : option Node :=
  match p with
  | [] => Some n
  | i :: p' =>
      match nth_error (children n) i with
      | Some c => node_at c p'
      | None => None
      end
  end.

(** [tree.rootNode] *)
Definition rootNode (t : Tree) : SyntaxNode := mkSyntaxNode t [] (rootNode_ t).

(** [node.type], [node.text], [node.isNamed] *)
Definition typeOf (sn : SyntaxNode) : string := type (self sn).
Definition textOf (sn : SyntaxNode) : string := text (self sn).
Definition named (sn : SyntaxNode) : bool := isNamed (self sn).

(** [node.children] *)
Fixpoint childNodes_from (t : Tree) (rp : list nat) (i : nat) (cs : list Node)
  : list SyntaxNode :=
  match cs with
  | [] => []
  | c :: cs' => mkSyntaxNode t (i :: rp) c :: childNodes_from t rp (S i) cs'
  end.

Definition childNodes (sn : SyntaxNode) : list SyntaxNode :=
  childNodes_from (tree sn) (rpath sn) 0 (children (self sn)).

(** [node.namedChildren] *)
Definition namedChildren (sn : SyntaxNode) : list SyntaxNode :=
  List.filter named (childNodes sn).

(** [node.parent] *)
Definition parent (sn : SyntaxNode) : option SyntaxNode :=
  match rpath sn with
  | [] => None
  | _ :: rp =>
      match node_at (rootNode_ (tree sn)) (rev rp) with
      | Some p => Some (mkSyntaxNode (tree sn) rp p)
      | None => None
      end
  end.

(** [node.firstNamedChild], [node.lastNamedChild] *)
Definition firstNamedChild (sn : SyntaxNode) : option SyntaxNode :=
  hd_error (namedChildren sn).
Definition lastNamedChild (sn : SyntaxNode) : option SyntaxNode :=
  hd_error (rev (namedChildren sn)).

(** [node.nextNamedSibling], [node.previousNamedSibling] *)
Definition nextNamedSibling (sn : SyntaxNode) : option SyntaxNode :=
  match rpath sn, parent sn with
  | i :: _, Some p => hd_error (List.filter named (skipn (S i) (childNodes p)))
  | _, _ => None
  end.

Definition previousNamedSibling (sn : SyntaxNode) : option SyntaxNode :=
  match rpath sn, parent sn with
  | i :: _, Some p => hd_error (rev (List.filter named (firstn i (childNodes p))))
  | _, _ => None
  end.

(** [node.childForFieldName(name)] *)
Definition childForFieldName (name : string) (sn : SyntaxNode) : option SyntaxNode :=
  List.find (fun c => match fieldName (self c) with
                      | Some f => String.eqb f name
                      | None => false
                      end) (childNodes sn).

(** Modelled from the spec: [descendantsOfType] belongs to the parser
    library, which is not part of this repository; section 4.1 describes it
    as a recursive collection in tree pre-order. The walk starts at the
    node itself. *)
Fixpoint preorder (t : Tree) (rp : list nat) (n : Node) : list SyntaxNode :=
  mkSyntaxNode t rp n ::
  (fix go (i : nat) (cs : list Node) : list SyntaxNode :=
     match cs with
     | [] => []
     | c :: cs' => preorder t (i :: rp) c ++ go (S i) cs'
     end) 0 (children n).

Definition descendantsOfType (sn : SyntaxNode) (ty : string) : list SyntaxNode :=
  List.filter (fun d => String.eqb (typeOf d) ty)
              (preorder (tree sn) (rpath sn) (self sn)).

(** ** TreeUtils: children by kind *)

Definition findFirstNamedChildOfType (ty : string) (node : SyntaxNode)
  : option SyntaxNode :=
  List.find (fun child => String.eqb (typeOf child) ty) (childNodes node).

(** The [type] argument of [findAllNamedChildrenOfType] is one kind or an
    array of kinds. *)
Inductive KindArg : Type :=
  | OneKind (ty : string)
  | Kinds (tys : list string).

(** [tys.includes(s)] *)
Definition includes (tys : list string) (s : string) : bool :=
  List.existsb (String.eqb s) tys.

Definition findAllNamedChildrenOfType (ty : KindArg) (node : SyntaxNode)
  : option (list SyntaxNode) :=
  let result :=
    match ty with
    | Kinds tys => List.filter (fun child => includes tys (typeOf child)) (childNodes node)
    | OneKind t => List.filter (fun child => String.eqb (typeOf child) t) (childNodes node)
    end in
  match result with
  | [] => None
  | _ => Some result
  end.

(** ** TreeUtils: the module declaration and its exposing list *)

Definition findModuleDeclaration (t : Tree) : option SyntaxNode :=
  childForFieldName "moduleDeclaration" (rootNode t).

(** The test the four exposing queries start with: the node's first
    [exposing_list] child has a [double_dot] child. *)
Definition exposesAll (node : SyntaxNode) : bool :=
  match findFirstNamedChildOfType "exposing_list" node with
  | Some exposingList =>
      match findFirstNamedChildOfType "double_dot" exposingList with
      | Some _ => true
      | None => false
      end
  | None => false
  end.

Definition findExposedFunctionNode (node : option SyntaxNode) (functionName : string)
  : option SyntaxNode :=
  match node with
  | Some node =>
      if exposesAll node then None
      else
        let descendants := descendantsOfType node "exposed_value" in
        List.find (fun desc => String.eqb (textOf desc) functionName) descendants
  | None => None
  end.

Definition isExposedFunction (t : Tree) (functionName : string) : bool :=
  match findModuleDeclaration t with
  | Some module =>
      if exposesAll module then true
      else
        let descendants := descendantsOfType module "exposed_value" in
        List.existsb (fun desc => String.eqb (textOf desc) functionName) descendants
  | None => false
  end.

Definition findExposedTypeOrTypeAliasNode (node : option SyntaxNode) (typeName : string)
  : option SyntaxNode :=
  match node with
  | Some node =>
      if exposesAll node then None
      else
        let descendants := descendantsOfType node "exposed_type" in
        match List.find (fun desc => startsWith (textOf desc) typeName) descendants with
        | Some m => firstNamedChild m
        | None => None
        end
  | None => None
  end.

Definition isExposedTypeOrTypeAlias (t : Tree) (typeName : string) : bool :=
  match findModuleDeclaration t with
  | Some module =>
      if exposesAll module then true
      else
        let descendants := descendantsOfType module "exposed_type" in
        List.existsb (fun desc => startsWith (textOf desc) typeName) descendants
  | None => false
  end.

(** ** TreeUtils: structural type resolution *)

(** The kinds of definition the type checker reports. *)
Inductive NodeType : Type :=
  | Function | FunctionParameter | TypeAlias | Type_ | Operator | Module_
  | CasePattern | AnonymousFunctionParameter | UnionConstructor | FieldType
  | TypeVariable | Port.

(** What [checker.findDefinition] answers. *)
Record DefinitionResult : Type :=
  mkDefinition { defNode : SyntaxNode; defUri : string; defNodeType : NodeType }.

(** What the resolution chains answer: [{ node, uri }]. *)
Record AliasResult : Type := mkAlias { aliasNode : SyntaxNode; aliasUri : string }.

(** Modelled from the spec: the forest's container of one file
    ([ITreeContainer], declared outside these sources): the file identity,
    the open and writeable flags and the tree (sections 3 and 6). *)
Record ITreeContainer : Type :=
  mkContainer { containerUri : string;
                isOpen : bool;
                writeable : bool;
                containerTree : Tree }.

(** The part of [IElmWorkspace] the chains consume: the forest's
    [getByUri] and the type checker's single-hop [findDefinition]. *)
Record IElmWorkspace : Type :=
  mkWorkspace { getByUri : string -> option ITreeContainer;
                findDefinition : SyntaxNode -> ITreeContainer -> option DefinitionResult }.

Definition getTypeOrTypeAliasOfFunctionParameter (node : option SyntaxNode)
  : option SyntaxNode :=
  node ← node;
  p1 ← parent node;
  p2 ← parent p1;
  p3 ← parent p2;
  annotation ← previousNamedSibling p3;
  if negb (String.eqb (typeOf annotation) "type_annotation") then None
  else
    annotated ← lastNamedChild annotation;
    functionParameterNodes ←
      findAllNamedChildrenOfType (Kinds ["pattern"; "lower_pattern"]) p2;
    let matchIndex :=
      findIndex (fun a => String.eqb (textOf a) (textOf node)) functionParameterNodes in
    typeAnnotationNodes ←
      findAllNamedChildrenOfType (Kinds ["type_ref"; "type_expression"]) annotated;
    js_index typeAnnotationNodes matchIndex.

(** [typeAnnotationNodes[length - 1]] is [undefined] for an annotation
    without a [type_ref]; the read of [type.firstNamedChild] then faults. *)
Definition getReturnTypeOrTypeAliasOfFunctionDefinition (node : option SyntaxNode)
  : JsResult (option SyntaxNode) :=
  match node with
  | Some node =>
      match previousNamedSibling node with
      | Some annotation =>
          if String.eqb (typeOf annotation) "type_annotation" then
            let typeAnnotationNodes := descendantsOfType annotation "type_ref" in
            match js_index typeAnnotationNodes
                    (Z.of_nat (length typeAnnotationNodes) - 1) with
            | Some ty =>
                Ok (Some (match firstNamedChild ty ≫= firstNamedChild with
                          | Some inner => inner
                          | None => ty
                          end))
            | None =>
                Throw (TypeError
                         "Cannot read properties of undefined (reading 'firstNamedChild')")
            end
          else Ok None
      | None => Ok None
      end
  | None => Ok None
  end.

(** The last step of the record and case chains: the first
    [upper_case_identifier] under the alias node, resolved in the
    definition's tree. *)
Definition resolveAliasNode (elmWorkspace : IElmWorkspace)
    (aliasNode : option SyntaxNode) (definitionTree : option ITreeContainer)
  : option AliasResult :=
  match aliasNode, definitionTree with
  | Some aliasNode, Some definitionTree =>
      match descendantsOfType aliasNode "upper_case_identifier" with
      | first :: _ =>
          match findDefinition elmWorkspace first definitionTree with
          | Some typeNode => Some (mkAlias (defNode typeNode) (defUri typeNode))
          | None => None
          end
      | [] => None
      end
  | _, _ => None
  end.

Definition getTypeAliasOfRecord (node : option SyntaxNode)
    (treeContainer : ITreeContainer) (elmWorkspace : IElmWorkspace)
  : JsResult (option AliasResult) :=
  match node with
  | None => Ok None
  | Some node =>
  match parent node with
  | None => Ok None
  | Some p1 =>
  match parent p1 with
  | None => Ok None
  | Some p2 =>
      let ty0 :=
        match findFirstNamedChildOfType "record_base_identifier" p2 with
        | Some b => Some b
        | None => findFirstNamedChildOfType "record_base_identifier" p1
        end in
      (* Handle records of function returns *)
      bindR (match ty0, parent p2 with
             | None, Some p3 =>
                 bindR (getReturnTypeOrTypeAliasOfFunctionDefinition (Some p3))
                       (fun ret => Ok (ret ≫= parent))
             | _, _ => Ok ty0
             end) (fun ty1 =>
      let ty := match ty1 with Some t => t | None => node end in
      match findDefinition elmWorkspace
              (match firstNamedChild ty with Some c => c | None => ty end)
              treeContainer with
      | None => Ok None
      | Some definitionNode =>
          let definitionTree := getByUri elmWorkspace (defUri definitionNode) in
          match defNodeType definitionNode, firstNamedChild (defNode definitionNode) with
          | FunctionParameter, Some parameter =>
              Ok (resolveAliasNode elmWorkspace
                    (getTypeOrTypeAliasOfFunctionParameter (Some parameter))
                    definitionTree)
          | Function, _ =>
              bindR (getReturnTypeOrTypeAliasOfFunctionDefinition
                       (Some (defNode definitionNode)))
                    (fun aliasNode =>
                       Ok (resolveAliasNode elmWorkspace aliasNode definitionTree))
          | FieldType, _ =>
              Ok (resolveAliasNode elmWorkspace
                    (findFirstNamedChildOfType "type_expression" (defNode definitionNode))
                    definitionTree)
          | TypeAlias, _ =>
              Ok (Some (mkAlias (defNode definitionNode) (defUri definitionNode)))
          | _, _ => Ok None
          end
      end)
  end end end.

(** [getTypeAliasOfRecordField] retries by calling itself from inside a
    [while] loop. The embedding records every retry: the node it was made
    at and the retries of the nested call. *)
#[local] Unset Elimination Schemes.
Inductive RetryLog : Type :=
  | RetryAt (at_ : SyntaxNode) (nested : list RetryLog).
#[local] Set Elimination Schemes.

(** A run either finishes (with a value or a fault) or exhausts the fuel
    given to the embedding. *)
Inductive Outcome (A : Type) : Type :=
  | Finished (r : JsResult A)
  | OutOfFuel.
Arguments Finished {A} r.
Arguments OutOfFuel {A}.

(** [node?.parent?.parent] *)
Definition grandparent (node : option SyntaxNode) : option SyntaxNode :=
  (node ≫= parent) ≫= parent.

(** [while (!recordType && node?.parent?.parent) { node = node.parent.parent;
    recordType = getTypeAliasOfRecordField(node, ...) }]; [self_] is the
    function itself. *)
Fixpoint retryLoop (self_ : SyntaxNode -> list RetryLog * Outcome (option AliasResult))
    (fuel : nat) (recordType : option AliasResult) (node : option SyntaxNode)
  : list RetryLog * Outcome (option AliasResult) :=
  match recordType, grandparent node with
  | None, Some up =>
      match fuel with
      | O => ([], OutOfFuel)
      | S fuel' =>
          let '(nested, r) := self_ up in
          match r with
          | Finished (Ok recordType') =>
              let '(log, out) := retryLoop self_ fuel' recordType' (Some up) in
              (RetryAt up nested :: log, out)
          | _ => ([RetryAt up nested], r)
          end
      end
  | _, _ => ([], Finished (Ok recordType))
  end.

(** [a === b] for two optional strings. *)
Definition optionStringEqb (a b : option string) : bool :=
  match a, b with
  | Some x, Some y => String.eqb x y
  | None, None => true
  | _, _ => false
  end.

(** The part of [getTypeAliasOfRecordField] after the loop: find the
    field in the record type and resolve the first type name of its
    type expression. *)
Definition fieldTypeAlias (elmWorkspace : IElmWorkspace) (fieldName : option string)
    (recordType : option AliasResult) : option AliasResult :=
  let recordTypeTree :=
    getByUri elmWorkspace (match recordType with
                           | Some r => aliasUri r
                           | None => ""
                           end) in
  match recordType, recordTypeTree with
  | Some recordType, Some recordTypeTree =>
      let fieldTypes := descendantsOfType (aliasNode recordType) "field_type" in
      fieldNode ← List.find
          (fun a => optionStringEqb
                      (textOf <$> findFirstNamedChildOfType "lower_case_identifier" a)
                      fieldName) fieldTypes;
      typeExpression ← findFirstNamedChildOfType "type_expression" fieldNode;
      match descendantsOfType typeExpression "upper_case_identifier" with
      | first :: _ =>
          typeAliasNode ← findDefinition elmWorkspace first recordTypeTree;
          Some (mkAlias (defNode typeAliasNode) (defUri typeAliasNode))
      | [] => None
      end
  | _, _ => None
  end.

Fixpoint getTypeAliasOfRecordField_fuel (fuel : nat) (node : option SyntaxNode)
    (treeContainer : ITreeContainer) (elmWorkspace : IElmWorkspace)
  : list RetryLog * Outcome (option AliasResult) :=
  match fuel with
  | O => ([], OutOfFuel)
  | S fuel' =>
      let fieldName := textOf <$> ((node ≫= parent) ≫= firstNamedChild) in
      match getTypeAliasOfRecord node treeContainer elmWorkspace with
      | Throw e => ([], Finished (Throw e))
      | Ok recordType =>
          let '(log, r) :=
            retryLoop (fun up => getTypeAliasOfRecordField_fuel fuel' (Some up)
                                   treeContainer elmWorkspace)
                      fuel' recordType node in
          match r with
          | Finished (Ok recordType) =>
              (log, Finished (Ok (fieldTypeAlias elmWorkspace fieldName recordType)))
          | _ => (log, r)
          end
      end
  end.

(** The depth of a node: the number of its ancestors. It bounds the fuel
    a call needs. *)
Definition depth (node : option SyntaxNode) : nat :=
  match node with
  | Some n => length (rpath n)
  | None => 0
  end.

Definition getTypeAliasOfRecordField (node : option SyntaxNode)
    (treeContainer : ITreeContainer) (elmWorkspace : IElmWorkspace)
  : list RetryLog * Outcome (option AliasResult) :=
  getTypeAliasOfRecordField_fuel (S (depth node)) node treeContainer elmWorkspace.

(** Number of retries in a log, those of the nested calls included. *)
Fixpoint retries (log : RetryLog) : nat :=
  match log with
  | RetryAt _ nested =>
      S ((fix sum (l : list RetryLog) : nat :=
            match l with
            | [] => 0
            | x :: l' => retries x + sum l'
            end) nested)
  end.

Fixpoint totalRetries (logs : list RetryLog) : nat :=
  match logs with
  | [] => 0
  | x :: l => retries x + totalRetries l
  end.

(** The depths of the nodes retried at, in the order of the retries. *)
Fixpoint retriedDepths (log : RetryLog) : list nat :=
  match log with
  | RetryAt up nested =>
      length (rpath up) ::
      (fix all (l : list RetryLog) : list nat :=
         match l with
         | [] => []
         | x :: l' => retriedDepths x ++ all l'
         end) nested
  end.

(** ** TreeUtils: successor traversal *)

(** [while (!node.nextNamedSibling && node.parent) node = node.parent] *)
Fixpoint moveUp (t : Tree) (rp : list nat) (n : Node) {struct rp} : SyntaxNode :=
  let node := mkSyntaxNode t rp n in
  match nextNamedSibling node with
  | Some _ => node
  | None =>
      match rp with
      | [] => node
      | _ :: rp' =>
          match node_at (rootNode_ t) (rev rp') with
          | Some p => moveUp t rp' p
          | None => node
          end
      end
  end.

(** [while (node.firstNamedChild) node = node.firstNamedChild] *)
Fixpoint moveDown (t : Tree) (rp : list nat) (n : Node) {struct n} : SyntaxNode :=
  (fix firstNamed (i : nat) (cs : list Node) : SyntaxNode :=
     match cs with
     | [] => mkSyntaxNode t rp n
     | c :: cs' => if isNamed c then moveDown t (i :: rp) c else firstNamed (S i) cs'
     end) 0 (children n).

Definition nextNode (node : SyntaxNode) : option SyntaxNode :=
  (* Move up until we have a sibling *)
  let node := moveUp (tree node) (rpath node) (self node) in
  match nextNamedSibling node with
  | Some node =>
      (* Move down the leftmost subtree *)
      Some (moveDown (tree node) (rpath node) (self node))
  | None => None
  end.

(** The nodes the traversal is about, in document order: the nodes
    without a named child that are reached from [n] through named
    children. *)
Fixpoint namedLeaves (t : Tree) (rp : list nat) (n : Node) {struct n} : list SyntaxNode :=
  match
    (fix below (i : nat) (cs : list Node) : list SyntaxNode :=
       match cs with
       | [] => []
       | c :: cs' =>
           (if isNamed c then namedLeaves t (i :: rp) c else []) ++ below (S i) cs'
       end) 0 (children n)
  with
  | [] => [mkSyntaxNode t rp n]
  | l => l
  end.

(** All leaves (the nodes without any child) in document order. *)
Fixpoint leaves (t : Tree) (rp : list nat) (n : Node) {struct n} : list SyntaxNode :=
  match children n with
  | [] => [mkSyntaxNode t rp n]
  | cs =>
      (fix below (i : nat) (cs : list Node) : list SyntaxNode :=
         match cs with
         | [] => []
         | c :: cs' => leaves t (i :: rp) c ++ below (S i) cs'
         end) 0 cs
  end.

(** Repeated application of [nextNode], at most [n] steps. *)
Fixpoint iterateNext (n : nat) (start : SyntaxNode) : list SyntaxNode :=
  start ::
  match n with
  | O => []
  | S n' =>
      match nextNode start with
      | Some next => iterateNext n' next
      | None => []
      end
  end.

(** ** TreeUtils: position to node *)

(** A cursor position of the protocol and a point of the parser. *)
Record Position : Type := mkPosition { line : nat; character : nat }.
Record Point : Type := mkPoint { row : nat; column : nat }.

(** [functionNameRegex = new RegExp("[a-zA-Z0-9_]+")]; [test] finds a
    match anywhere in the string. *)
Definition isFunctionNameChar (c : ascii) : bool :=
  let n := nat_of_ascii c in
  (Nat.leb 97 n && Nat.leb n 122) || (Nat.leb 65 n && Nat.leb n 90)
  || (Nat.leb 48 n && Nat.leb n 57) || Nat.eqb n 95.

Definition functionNameRegex_test (s : string) : bool :=
  List.existsb isFunctionNameChar (list_ascii_of_string s).

Section PositionLookup.

(** The parser library's [node.namedDescendantForPosition(start, end?)]:
    the smallest named node spanning the point or the range. It answers
    for every point, inside the text or not. *)
Variable namedDescendantForPosition : SyntaxNode -> Point -> option Point -> SyntaxNode.

(** [getNamedDescendantForPosition]. Columns count the characters of a
    line as [substring] does: one character of a text stands for one
    UTF-16 unit of it, so the texts of the embedding are those whose units
    are all below 256. *)
Definition getNamedDescendantForPosition (node : SyntaxNode) (position : Position)
  : JsResult SyntaxNode :=
  let previousCharColumn :=
    if Nat.eqb (character position) 0 then 0 else character position - 1 in
  match js_index (js_split_lines (textOf node)) (Z.of_nat (line position)) with
  | None => Throw (TypeError "Cannot read properties of undefined (reading 'substring')")
  | Some lineText =>
      let charBeforeCursor :=
        js_substring lineText previousCharColumn (character position) in
      if negb (functionNameRegex_test charBeforeCursor) then
        Ok (namedDescendantForPosition node
              (mkPoint (line position) (character position)) None)
      else
        Ok (namedDescendantForPosition node
              (mkPoint (line position) previousCharColumn)
              (Some (mkPoint (line position) (character position))))
  end.

Definition getNamedDescendantForLineBeforePosition (node : SyntaxNode)
    (position : Position) : JsResult SyntaxNode :=
  let previousLine := if Nat.eqb (line position) 0 then 0 else line position - 1 in
  Ok (namedDescendantForPosition node (mkPoint previousLine 0) None).

Definition getNamedDescendantForLineAfterPosition (node : SyntaxNode)
    (position : Position) : JsResult SyntaxNode :=
  let followingLine := line position + 1 in
  Ok (namedDescendantForPosition node (mkPoint followingLine 0) None).

End PositionLookup.

(** ** TreeUtils: field references of a record type *)

(** Modelled from the spec: the type checker's [Type] is declared outside
    these sources. Section 6 gives the one shape consumed here: a [Record]
    carries [fieldReferences], from a field name to the ordered list of its
    definition nodes; [get] answers the empty list for a name without
    entry. Every other shape only has its [nodeType] tag. *)
Inductive InferredType : Type :=
  | Record_ (fieldReferences : gmap string (list SyntaxNode))
  | OtherType (nodeType : string).

Definition fieldReferences_get (fieldReferences : gmap string (list SyntaxNode))
    (field : string) : list SyntaxNode :=
  default [] (fieldReferences !! field).

Definition findFieldReference (ty : InferredType) (fieldName : string)
  : option DefinitionResult :=
  match ty with
  | Record_ fieldReferences =>
      let fieldRefs := fieldReferences_get fieldReferences fieldName in
      if Nat.ltb 0 (length fieldRefs) then
        match js_index fieldRefs 0 with
        | Some first =>
            let refUri := uri (tree first) in
            if truthy refUri then Some (mkDefinition first refUri FieldType) else None
        | None => None
        end
      else None
  | OtherType _ => None
  end.

(** ** ASTProvider: the reparse handler *)

(** One entry of [params.contentChanges]; the handler reads [text] only. *)
Record Range : Type := mkRange { rangeStart : Position; rangeEnd : Position }.
Record ContentChange : Type :=
  mkChange { changeRange : option Range; rangeLength : option nat; changeText : string }.

Record DidChangeTextDocumentParams : Type :=
  mkParams { documentUri : string; contentChanges : list ContentChange }.

(** What the handler does to its collaborators, in order. *)
Inductive Event : Type :=
  | EvInfo (message : string)
  | EvGetTree (fileUri : string)
  | EvReadFile (path : string)
  | EvParse (input : string) (oldTree : option Tree)
  | EvSetTree (fileUri : string) (open_ writeable_ : bool) (t : Tree)
  | EvUpdateImports (fileUri : string) (t : Tree).

(** The parse calls of the change loop: each one with the whole text of
    the change and no previous tree. *)
Definition parses (changes : list ContentChange) : list Event :=
  map (fun change => EvParse (changeText change) None) changes.

Section Reparse.

(** [parser.parse(text, oldTree?)] *)
Variable parse : string -> option Tree -> Tree.
(** [URI.parse(uri).fsPath] *)
Variable fsPath : string -> string.
(** [readFileSync(path, "utf8")]; [None] when the read fails. *)
Variable readFileSync : string -> option string.
(** The import tables and [imports.updateImports(uri, tree, forest)]. *)
Variable Imports : Type.
Variable updateImports :
  string -> Tree -> gmap string ITreeContainer -> Imports -> Imports.

(** The workspace the handler works on, with the log of its calls. *)
Record World : Type :=
  mkWorld { forest : gmap string ITreeContainer;
            imports : Imports;
            events : list Event }.

(** Computations over the workspace that may fault. *)
Definition M (A : Type) : Type := World -> JsResult A * World.

#[local] Instance M_ret : MRet M := fun A a w => (Ok a, w).

#[local] Instance M_bind : MBind M :=
  fun A B k m w => match m w with
                   | (Ok a, w') => k a w'
                   | (Throw e, w') => (Throw e, w')
                   end.

Definition emit (e : Event) : M unit :=
  fun w => (Ok tt, mkWorld (forest w) (imports w) (events w ++ [e])).

Definition throw {A : Type} (e : JsError) : M A := fun w => (Throw e, w).

Definition gets {A : Type} (f : World -> A) : M A := fun w => (Ok (f w), w).

Definition modify (f : World -> World) : M unit := fun w => (Ok tt, f w).

(** Modelled from the spec: the forest is declared outside these
    sources; section 6 gives [getTree(fileId)] and
    [setTree(fileId, isOpen, isWriteable, tree)], section 3 that an entry
    is replaced wholesale. *)
Definition forest_getTree (fileUri : string) : M (option Tree) :=
  emit (EvGetTree fileUri);;
  gets (fun w => containerTree <$> forest w !! fileUri).

Definition forest_setTree (fileUri : string) (open_ writeable_ : bool) (t : Tree)
  : M unit :=
  emit (EvSetTree fileUri open_ writeable_ t);;
  modify (fun w =>
            mkWorld (<[fileUri := mkContainer fileUri open_ writeable_ t]> (forest w))
                    (imports w) (events w)).

(** Modelled from the spec: [imports.updateImports] is declared outside
    these sources; it recomputes the import tables of the file from the
    tree and the forest it is handed (section 4.5). *)
Definition imports_updateImports (fileUri : string) (t : Tree) : M unit :=
  emit (EvUpdateImports fileUri t);;
  modify (fun w =>
            mkWorld (forest w) (updateImports fileUri t (forest w) (imports w))
                    (events w)).

Definition parser_parse (input : string) (oldTree : option Tree) : M Tree :=
  emit (EvParse input oldTree);; mret (parse input oldTree).

Definition fs_readFileSync (path : string) : M string :=
  emit (EvReadFile path);;
  match readFileSync path with
  | Some content => mret content
  | None => throw (IOError path)
  end.

(** [for (const changeEvent of params.contentChanges)
       tree = this.parser.parse(changeEvent.text)] *)
Fixpoint reparseChanges (changes : list ContentChange) (t : option Tree)
  : M (option Tree) :=
  match changes with
  | [] => mret t
  | changeEvent :: rest =>
      t' ← parser_parse (changeText changeEvent) None;
      reparseChanges rest (Some t')
  end.

Definition handleChangeTextDocument (params : DidChangeTextDocumentParams) : M unit :=
  emit (EvInfo ("Changed text document, going to parse it. " +:+ documentUri params));;
  t ← forest_getTree (documentUri params);
  t ← match t with
       | None =>
           fileContent ← fs_readFileSync (fsPath (documentUri params));
           t' ← parser_parse fileContent None;
           mret (Some t')
       | Some _ => mret t
       end;
  t ← reparseChanges (contentChanges params) t;
  match t with
  | Some t =>
      forest_setTree (documentUri params) true true t;;
      imports_updateImports (documentUri params) t
  | None => mret tt
  end.

(** The tree the handler ends with: the parse of the last change, or the
    tree it started from when no change is reported. *)
Definition lastParsed (start : Tree) (changes : list ContentChange) : Tree :=
  fold_left (fun _ change => parse (changeText change) None) changes start.

(** The workspace after the tree [t] is installed for [fileUri]. *)
Definition installed (w : World) (fileUri : string) (t : Tree) (evs : list Event)
  : World :=
  let forest' := <[fileUri := mkContainer fileUri true true t]> (forest w) in
  mkWorld forest' (updateImports fileUri t forest' (imports w)) evs.

End Reparse.

Arguments mkWorld {Imports} forest imports events.
Arguments forest {Imports} w.
Arguments imports {Imports} w.
Arguments events {Imports} w.

(** ** Example trees and the notions the properties are stated with *)

(** A named node without field. *)
Definition nd (ty txt : string) (cs : list Node) : Node := mkNode ty true None txt cs.
(** An anonymous token. *)
Definition tok (txt : string) : Node := mkNode txt false None txt [].

(** The handle of the node at a path from the root (child indices, root
    first); the root itself when the path leaves the tree. *)
Definition handleAt (t : Tree) (p : list nat) : SyntaxNode :=
  match node_at (rootNode_ t) p with
  | Some n => mkSyntaxNode t (rev p) n
  | None => rootNode t
  end.

Definition fileOf (moduleLine : Node) : Tree :=
  mkTree "file:///src/M.elm"
    (nd "file" (text moduleLine)
        [mkNode (type moduleLine) true (Some "moduleDeclaration")
                (text moduleLine) (children moduleLine)]).

(** [module M exposing (foo, Bar)] *)
Definition explicitModule : Tree :=
  fileOf
    (nd "module_declaration" "module M exposing (foo, Bar)"
        [nd "module" "module" [];
         nd "upper_case_qid" "M" [nd "upper_case_identifier" "M" []];
         nd "exposing_list" "exposing (foo, Bar)"
            [nd "exposing" "exposing" [];
             nd "left_parenthesis" "(" [];
             nd "exposed_value" "foo" [nd "lower_case_identifier" "foo" []];
             tok ",";
             nd "exposed_type" "Bar" [nd "upper_case_identifier" "Bar" []];
             nd "right_parenthesis" ")" []]]).

(** [module M exposing (..)] *)
Definition wildcardModule : Tree :=
  fileOf
    (nd "module_declaration" "module M exposing (..)"
        [nd "module" "module" [];
         nd "upper_case_qid" "M" [nd "upper_case_identifier" "M" []];
         nd "exposing_list" "exposing (..)"
            [nd "exposing" "exposing" [];
             nd "left_parenthesis" "(" [];
             nd "double_dot" ".." [];
             nd "right_parenthesis" ")" []]]).

(** A file without module declaration: [x = 1]. *)
Definition headlessFile : Tree :=
  mkTree "file:///src/X.elm"
    (nd "file" "x = 1"
        [nd "value_declaration" "x = 1"
            [nd "function_declaration_left" "x" [nd "lower_case_identifier" "x" []];
             nd "eq" "=" [];
             nd "number_constant_expr" "1" []]]).

(** The module declarations of the two example modules. *)
Definition wildcardDeclaration : SyntaxNode := handleAt wildcardModule [0].
Definition explicitDeclaration : SyntaxNode := handleAt explicitModule [0].

(** The node has an exposing list with the wildcard marker among its
    entries: its first [exposing_list] child has a [double_dot] child. *)
Definition hasWildcard (m : SyntaxNode) : Prop :=
  exists exposingList doubleDot,
    findFirstNamedChildOfType "exposing_list" m = Some exposingList /\
    In doubleDot (childNodes exposingList) /\
    typeOf doubleDot = "double_dot".

(** [d] is the node [m] or one of its descendants. *)
Definition descendant (m d : SyntaxNode) : Prop :=
  In d (preorder (tree m) (rpath m) (self m)).

(** A reference in a tree with the empty file identity, as the only
    reference of the field [x]. *)
Definition unidentifiedReference : SyntaxNode :=
  rootNode (mkTree "" (nd "field_type" "x : Int" [])).

Definition unidentifiedReferences : gmap string (list SyntaxNode) :=
  {[ "x" := [unidentifiedReference] ]}.

(** Two references of the field [x], in a tree with a file identity. *)
Definition someReferences : gmap string (list SyntaxNode) :=
  {[ "x" := [explicitDeclaration; rootNode explicitModule] ]}.

(** The text [foo] with its identifier node. *)
Definition fooTree : Tree :=
  mkTree "file:///src/Foo.elm" (nd "file" "foo" [nd "lower_case_identifier" "foo" []]).

(** Two lines, [foo] and [bar]. *)
Definition twoLines : Tree :=
  mkTree "file:///src/Two.elm"
    (nd "file" ("foo" +:+ String newline "bar")
        [nd "lower_case_identifier" "foo" []; nd "lower_case_identifier" "bar" []]).

(** The children of a node whose kind is one of [kinds], in order. *)
Definition childrenOfKinds (kinds : list string) (node : SyntaxNode) : list SyntaxNode :=
  List.filter (fun child => includes kinds (typeOf child)) (childNodes node).

(** The ordinal position [getTypeOrTypeAliasOfFunctionParameter] computes
    for a parameter: the position of the first pattern with the text of
    the parameter node. *)
Definition ordinalOf (node : SyntaxNode) (patterns : list SyntaxNode) (i : nat) : Prop :=
  (exists a, nth_error patterns i = Some a /\ textOf a = textOf node) /\
  (forall j b, j < i -> nth_error patterns j = Some b -> textOf b <> textOf node).

(** [f : Int] followed by [f a b = a]: the annotation lists one type for
    two parameters. *)
Definition partialAnnotation : Tree :=
  mkTree "file:///src/F.elm"
    (nd "file" "f : Int f a b = a"
        [nd "type_annotation" "f : Int"
            [nd "lower_case_identifier" "f" [];
             nd "colon" ":" [];
             nd "type_expression" "Int"
                [nd "type_ref" "Int"
                    [nd "upper_case_qid" "Int" [nd "upper_case_identifier" "Int" []]]]];
         nd "value_declaration" "f a b = a"
            [nd "function_declaration_left" "f a b"
                [nd "lower_case_identifier" "f" [];
                 nd "lower_pattern" "a" [nd "lower_case_identifier" "a" []];
                 nd "lower_pattern" "b" [nd "lower_case_identifier" "b" []]];
             nd "eq" "=" [];
             nd "value_expr" "a" [nd "lower_case_identifier" "a" []]]]).

(** The shape of a retry log of a call at [node]: every retry is made at
    the grandparent of the node the loop stands at, the nested call's log
    starts from that grandparent, and so does the rest of the loop. *)
Inductive ascends : option SyntaxNode -> list RetryLog -> Prop :=
  | ascends_done (node : option SyntaxNode) : ascends node []
  | ascends_retry (node : option SyntaxNode) (up : SyntaxNode)
      (nested rest : list RetryLog) :
      grandparent node = Some up ->
      ascends (Some up) nested ->
      ascends (Some up) rest ->
      ascends node (RetryAt up nested :: rest).

(** A chain of [n] nested expressions below the root, and its deepest node. *)
Fixpoint chain (n : nat) : Node :=
  match n with
  | O => nd "value_expr" "r" []
  | S n' => nd "field_access_expr" "r" [chain n']
  end.

Definition chainTree (n : nat) : Tree := mkTree "file:///src/Chain.elm" (chain n).

Definition deepest (n : nat) : SyntaxNode := handleAt (chainTree n) (repeat 0 n).

(** A workspace in which no name resolves and no file is known. *)
Definition unresolvedWorkspace : IElmWorkspace :=
  mkWorkspace (fun _ => None) (fun _ _ => None).

Definition chainContainer (n : nat) : ITreeContainer :=
  mkContainer "file:///src/Chain.elm" true true (chainTree n).

(** The named leaves below the children [cs], the first of which is
    child number [i]; [namedLeaves] is this list for all children, or the
    node itself when the list is empty. *)
Fixpoint leavesBelow (t : Tree) (rp : list nat) (i : nat) (cs : list Node)
  : list SyntaxNode :=
  match cs with
  | [] => []
  | c :: cs' =>
      (if isNamed c then namedLeaves t (i :: rp) c else [])
        ++ leavesBelow t rp (S i) cs'
  end.

(** Where [moveDown] ends when it looks for the first named child among
    the children [cs], the first of which is child number [i]. *)
Fixpoint moveDownBelow (t : Tree) (rp : list nat) (n : Node) (i : nat) (cs : list Node)
  : SyntaxNode :=
  match cs with
  | [] => mkSyntaxNode t rp n
  | c :: cs' => if isNamed c then moveDown t (i :: rp) c else moveDownBelow t rp n (S i) cs'
  end.

(** [moveDown] from a handle. *)
Definition descend (s : SyntaxNode) : SyntaxNode := moveDown (tree s) (rpath s) (self s).

(** What the successor statement says of the subtree at a handle: in
    the list of its named leaves every element is followed by its
    [nextNode], and from the last one [moveUp] continues as from the
    subtree's own node. *)
Definition successorsWithin (t : Tree) (rp : list nat) (n : Node)
    (l : list SyntaxNode) : Prop :=
  (forall k a b, nth_error l k = Some a -> nth_error l (S k) = Some b ->
                 nextNode a = Some b)
  /\
  (forall z, nth_error l (pred (length l)) = Some z ->
             moveUp (tree z) (rpath z) (self z) = moveUp t rp n).

(** Two identifiers separated by an anonymous comma token: [a, b]. *)
Definition commaTree : Tree :=
  mkTree "file:///src/Comma.elm"
    (nd "file" "a, b"
        [nd "lower_case_identifier" "a" [];
         tok ",";
         nd "lower_case_identifier" "b" []]).

(** Every node below [n] is a named node. *)
Fixpoint allNamedBelow (n : Node) : bool :=
  forallb (fun c => isNamed c && allNamedBelow c) (children n).

(** A node and its ancestors, the nearest first. *)
Fixpoint ancestorsOrSelf (t : Tree) (rp : list nat) (n : Node) {struct rp}
  : list SyntaxNode :=
  mkSyntaxNode t rp n ::
  match rp with
  | [] => []
  | _ :: rp' =>
      match node_at (rootNode_ t) (rev rp') with
      | Some p => ancestorsOrSelf t rp' p
      | None => []
      end
  end.

Definition hasNextNamedSibling (s : SyntaxNode) : bool :=
  match nextNamedSibling s with
  | Some _ => true
  | None => false
  end.

(** A stand-in parser, storage and import table for running the handler:
    the tree of a text is a single [file] node holding it, the storage
    holds one file, and the import table counts its recomputations. *)
Definition demoParse (input : string) (_ : option Tree) : Tree :=
  mkTree "" (nd "file" input []).

Definition demoStorage (path : string) : option string :=
  if String.eqb path "/src/M.elm" then Some "module M exposing (foo)" else None.

Definition demoPath (fileUri : string) : string :=
  js_substring fileUri 7 (String.length fileUri).

Definition demoUpdateImports (_ : string) (_ : Tree)
    (_ : gmap string ITreeContainer) (n : nat) : nat := S n.

Definition demoWorld : World nat := mkWorld ∅ 0 [].

Definition demoParams : DidChangeTextDocumentParams :=
  mkParams "file:///src/M.elm" [mkChange None None "module M exposing (..)"].

(** ** TreeUtils: the other queries *)

(** [flatMap(array, callback)]: the callback sees the element, its index
    and the whole array. *)
Fixpoint flatMap_from {T U : Type} (array : list T)
    (callback : T -> nat -> list T -> list U) (i : nat) (rest : list T) : list U :=
  match rest with
  | [] => []
  | x :: rest' => callback x i array ++ flatMap_from array callback (S i) rest'
  end.

Definition flatMap {T U : Type} (array : list T)
    (callback : T -> nat -> list T -> list U) : list U :=
  flatMap_from array callback 0 array.

(** [node.firstChild] *)
Definition firstChild (sn : SyntaxNode) : option SyntaxNode := hd_error (childNodes sn).

(** [a.children.length > i && a.children[i].type === ty &&
    a.children[i].text === name] *)
Definition childIs (i : nat) (ty name : string) (a : SyntaxNode) : bool :=
  Nat.ltb i (length (childNodes a)) &&
  match nth_error (childNodes a) i with
  | Some c => String.eqb (typeOf c) ty && String.eqb (textOf c) name
  | None => false
  end.

(** [a.firstChild !== null && a.firstChild.type === "upper_case_identifier"
    && a.firstChild.text === name] *)
Definition firstChildNames (name : string) (a : SyntaxNode) : bool :=
  match firstChild a with
  | Some c => String.eqb (typeOf c) "upper_case_identifier" && String.eqb (textOf c) name
  | None => false
  end.

(** [result.length === 0 ? undefined : result] *)
Definition nonEmpty {A : Type} (result : list A) : option (list A) :=
  match result with
  | [] => None
  | _ => Some result
  end.

Definition getModuleExposingListNodes (t : Tree) : list SyntaxNode :=
  match findModuleDeclaration t with
  | Some moduleNode =>
      descendantsOfType moduleNode "exposed_value"
        ++ descendantsOfType moduleNode "exposed_type"
  | None => []
  end.

Definition findUnionConstructorCalls (t : Tree) (unionConstructorName : string)
  : option (list SyntaxNode) :=
  let upperCaseQid := descendantsOfType (rootNode t) "upper_case_qid" in
  if Nat.ltb 0 (length upperCaseQid) then
    nonEmpty
      (List.filter
         (fun a => firstChildNames unionConstructorName a &&
                   match parent a with
                   | Some p => negb (String.eqb (typeOf p) "type_ref")
                   | None => false
                   end) upperCaseQid)
  else None.

(** The second search of [findFunction]: the first declaration with a
    [pattern] child under which a [lower_pattern] has the name. *)
Fixpoint findFunctionInPatterns (functionName : string) (functions : list SyntaxNode)
  : option SyntaxNode :=
  match functions with
  | [] => None
  | elmFunction :: rest =>
      match findFirstNamedChildOfType "pattern" elmFunction with
      | Some pattern =>
          match List.find (fun a => String.eqb functionName (textOf a))
                  (descendantsOfType pattern "lower_pattern") with
          | Some ret => Some ret
          | None => findFunctionInPatterns functionName rest
          end
      | None => findFunctionInPatterns functionName rest
      end
  end.

(** The test of the first search of [findFunction], on the declaration
    left-hand side a [value_declaration] was mapped to. *)
Definition declares (functionName : string) (declaration : option SyntaxNode) : bool :=
  match declaration with
  | Some declaration =>
      match firstNamedChild declaration with
      | Some name => String.eqb functionName (textOf name)
      | None => false
      end
  | None => false
  end.

Definition findFunction (syntaxNode : SyntaxNode) (functionName : string)
    (onlySearchTopLevel : bool) : option SyntaxNode :=
  let functions :=
    if onlySearchTopLevel
    then List.filter (fun a => String.eqb (typeOf a) "value_declaration")
                     (childNodes syntaxNode)
    else descendantsOfType syntaxNode "value_declaration" in
  match List.find (declares functionName)
          (map (findFirstNamedChildOfType "function_declaration_left") functions) with
  | Some (Some ret) => Some ret
  | _ => findFunctionInPatterns functionName functions
  end.

Definition findOperator (t : Tree) (operatorName : string) : option SyntaxNode :=
  infixDeclarations ← findAllNamedChildrenOfType (OneKind "infix_declaration") (rootNode t);
  operatorNode ←
    List.find (fun a => match findFirstNamedChildOfType "operator_identifier" a with
                        | Some operator => String.eqb (textOf operator) operatorName
                        | None => false
                        end) infixDeclarations;
  functionReference ← findFirstNamedChildOfType "value_expr" operatorNode;
  findFunction (rootNode t) (textOf functionReference) true.

Definition findAllTopLevelFunctionDeclarations (t : Tree) : option (list SyntaxNode) :=
  nonEmpty (List.filter (fun a => String.eqb (typeOf a) "value_declaration")
                        (childNodes (rootNode t))).

(** [a.previousNamedSibling?.type !== "type_annotation"] *)
Definition lacksAnnotation (a : SyntaxNode) : bool :=
  match previousNamedSibling a with
  | Some s => negb (String.eqb (typeOf s) "type_annotation")
  | None => true
  end.

Definition findAllTopLevelFunctionDeclarationsWithoutTypeAnnotation (t : Tree)
  : option (list SyntaxNode) :=
  nonEmpty (List.filter (fun a => String.eqb (typeOf a) "value_declaration"
                                  && lacksAnnotation a)
                        (childNodes (rootNode t))).

Definition findAllTypeOrTypeAliasCalls (t : Tree) : option (list SyntaxNode) :=
  let typeRefs := descendantsOfType (rootNode t) "type_ref" in
  nonEmpty
    (if Nat.ltb 0 (length typeRefs) then
       flat_map (fun a => match firstChild a with
                          | Some c =>
                              if String.eqb (typeOf c) "upper_case_qid"
                              then match firstChild c with
                                   | Some _ => [c]
                                   | None => []
                                   end
                              else []
                          | None => []
                          end) typeRefs
     else []).

Definition findTypeOrTypeAliasCalls (t : Tree) (typeOrTypeAliasName : string)
  : option (list SyntaxNode) :=
  typeOrTypeAliasNodes ← findAllTypeOrTypeAliasCalls t;
  nonEmpty (List.filter (fun a => String.eqb (textOf a) typeOrTypeAliasName)
                        typeOrTypeAliasNodes).

Definition getFunctionNameNodeFromDefinition (node : SyntaxNode) : option SyntaxNode :=
  if String.eqb (typeOf node) "lower_case_identifier" then Some node
  else
    let declaration :=
      if String.eqb (typeOf node) "function_declaration_left" then Some node
      else findFirstNamedChildOfType "function_declaration_left" node in
    declaration ≫= firstNamedChild.

Definition findAllImportClauseNodes (t : Tree) : option (list SyntaxNode) :=
  nonEmpty (List.filter (fun a => String.eqb (typeOf a) "import_clause")
                        (childNodes (rootNode t))).

Definition findImportClauseByName (t : Tree) (moduleName : string) : option SyntaxNode :=
  findAllImportClauseNodes t ≫= List.find (childIs 1 "upper_case_qid" moduleName).

(** [a.children.length > 2 && a.children[2].type === "as_clause" &&
    a.children[2].lastNamedChild?.text === moduleName] *)
Definition aliasedAs (moduleName : string) (a : SyntaxNode) : bool :=
  Nat.ltb 2 (length (childNodes a)) &&
  match nth_error (childNodes a) 2 with
  | Some c =>
      String.eqb (typeOf c) "as_clause" &&
      match lastNamedChild c with
      | Some l => String.eqb (textOf l) moduleName
      | None => false
      end
  | None => false
  end.

Definition findImportNameNode (t : Tree) (moduleName : string) : option SyntaxNode :=
  allImports ← findAllImportClauseNodes t;
  m ← List.find (fun a => childIs 1 "upper_case_qid" moduleName a
                          || aliasedAs moduleName a) allImports;
  nth_error (childNodes m) 1.

Definition getLastImportNode (t : Tree) : option SyntaxNode :=
  match findAllImportClauseNodes t with
  | Some allImportNodes =>
      if Nat.eqb (length allImportNodes) 0 then None
      else js_index allImportNodes (Z.of_nat (length allImportNodes) - 1)
  | None => None
  end.

(** [findParentOfType(typeToLookFor, node, topLevel)]: the recursion goes
    to [node.parent], whose path is the tail of the node's path. *)
Fixpoint findParentOfType_at (typeToLookFor : string) (topLevel : bool)
    (t : Tree) (rp : list nat) (n : Node) {struct rp} : option SyntaxNode :=
  let node := mkSyntaxNode t rp n in
  if String.eqb (type n) typeToLookFor
     && (negb topLevel
         || match parent node with
            | Some p => String.eqb (typeOf p) "file"
            | None => false
            end)
  then Some node
  else
    match rp with
    | [] => None
    | _ :: rp' =>
        match node_at (rootNode_ t) (rev rp') with
        | Some p => findParentOfType_at typeToLookFor topLevel t rp' p
        | None => None
        end
    end.

Definition findParentOfType (typeToLookFor : string) (node : SyntaxNode)
    (topLevel : bool) : option SyntaxNode :=
  findParentOfType_at typeToLookFor topLevel (tree node) (rpath node) (self node).

Definition findTypeAliasTypeVariable (nodeAtPosition : SyntaxNode)
    (nodeAtPositionText : string) : option SyntaxNode :=
  parentTypeAlias ← findParentOfType "type_alias_declaration" nodeAtPosition false;
  lowerTypeNames ← findAllNamedChildrenOfType (OneKind "lower_type_name") parentTypeAlias;
  List.find (fun t => String.eqb (textOf t) nodeAtPositionText) lowerTypeNames.

(** [getAllAncestorsOfType(type, node)]:
    [while (node.type !== "file") { if (node.type === type) push;
    if (node.parent) node = node.parent else break }] *)
Fixpoint getAllAncestorsOfType_at (ty : string) (t : Tree) (rp : list nat) (n : Node)
    {struct rp} : list SyntaxNode :=
  if String.eqb (type n) "file" then []
  else
    (if String.eqb (type n) ty then [mkSyntaxNode t rp n] else [])
      ++ match rp with
         | [] => []
         | _ :: rp' =>
             match node_at (rootNode_ t) (rev rp') with
             | Some p => getAllAncestorsOfType_at ty t rp' p
             | None => []
             end
         end.

Definition getAllAncestorsOfType (ty : string) (node : SyntaxNode) : list SyntaxNode :=
  getAllAncestorsOfType_at ty (tree node) (rpath node) (self node).

(** [candidate?.type === "line_comment" || candidate?.type === "comment_block"] *)
Definition isComment (candidate : SyntaxNode) : bool :=
  String.eqb (typeOf candidate) "line_comment"
  || String.eqb (typeOf candidate) "comment_block".

(** [while (candidate is a comment) candidate = candidate.previousNamedSibling] *)
Fixpoint skipComments (fuel : nat) (candidate : option SyntaxNode)
  : Outcome (option SyntaxNode) :=
  match candidate with
  | Some c =>
      if isComment c then
        match fuel with
        | O => OutOfFuel
        | S fuel' => skipComments fuel' (previousNamedSibling c)
        end
      else Finished (Ok candidate)
  | None => Finished (Ok None)
  end.

Definition getTypeAnnotation_fuel (fuel : nat) (valueDeclaration : option SyntaxNode)
  : Outcome (option SyntaxNode) :=
  match valueDeclaration with
  | Some valueDeclaration =>
      if negb (String.eqb (typeOf valueDeclaration) "value_declaration")
      then Finished (Ok None)
      else
        match skipComments fuel (previousNamedSibling valueDeclaration) with
        | Finished (Ok (Some candidate)) =>
            if String.eqb (typeOf candidate) "type_annotation"
            then Finished (Ok (Some candidate))
            else Finished (Ok None)
        | other => other
        end
  | None => Finished (Ok None)
  end.

(** The position of a node among its parent's children. *)
Definition childIndex (node : SyntaxNode) : nat := hd 0 (rpath node).

Definition getTypeAnnotation (valueDeclaration : option SyntaxNode)
  : Outcome (option SyntaxNode) :=
  getTypeAnnotation_fuel
    (match valueDeclaration with Some v => childIndex v | None => 0 end)
    valueDeclaration.

Definition getTypeAliasOfCase (ty : option SyntaxNode)
    (treeContainer : ITreeContainer) (elmWorkspace : IElmWorkspace)
  : JsResult (option AliasResult) :=
  match ty with
  | None => Ok None
  | Some ty =>
      match findDefinition elmWorkspace ty treeContainer with
      | None => Ok None
      | Some definitionNode =>
          let definitionTree := getByUri elmWorkspace (defUri definitionNode) in
          match defNodeType definitionNode with
          | FunctionParameter =>
              Ok (resolveAliasNode elmWorkspace
                    (getTypeOrTypeAliasOfFunctionParameter (Some (defNode definitionNode)))
                    definitionTree)
          | Function =>
              bindR (getReturnTypeOrTypeAliasOfFunctionDefinition
                       (Some (defNode definitionNode)))
                    (fun aliasNode =>
                       Ok (resolveAliasNode elmWorkspace aliasNode definitionTree))
          | FieldType =>
              Ok (resolveAliasNode elmWorkspace
                    (findFirstNamedChildOfType "type_expression" (defNode definitionNode))
                    definitionTree)
          | TypeAlias =>
              Ok (Some (mkAlias (defNode definitionNode) (defUri definitionNode)))
          | _ => Ok None
          end
      end
  end.

(** [{ field, type }] for a [field_type] node with both a
    [lower_case_identifier] and a [type_expression] child. *)
Definition fieldEntry (a : SyntaxNode) : list (string * string) :=
  match findFirstNamedChildOfType "lower_case_identifier" a,
        findFirstNamedChildOfType "type_expression" a with
  | Some fieldName, Some typeExpression => [(textOf fieldName, textOf typeExpression)]
  | _, _ => []
  end.

Definition getAllFieldsFromTypeAlias (node : option SyntaxNode)
  : option (list (string * string)) :=
  nonEmpty
    (match node with
     | Some node =>
         let fieldTypes := descendantsOfType node "field_type" in
         if Nat.ltb 0 (length fieldTypes) then flat_map fieldEntry fieldTypes else []
     | None => []
     end).

(** ** Further example trees *)

(** [f : a] followed by [f x = x]: an annotation without a type
    reference. *)
Definition variableAnnotation : Tree :=
  mkTree "file:///src/V.elm"
    (nd "file" "f : a f x = x"
        [nd "type_annotation" "f : a"
            [nd "lower_case_identifier" "f" [];
             nd "colon" ":" [];
             nd "type_expression" "a" [nd "type_variable" "a" []]];
         nd "value_declaration" "f x = x"
            [nd "function_declaration_left" "f x"
                [nd "lower_case_identifier" "f" [];
                 nd "lower_pattern" "x" [nd "lower_case_identifier" "x" []]];
             nd "eq" "=" [];
             nd "value_expr" "x" [nd "lower_case_identifier" "x" []]]]).

(** A workspace whose checker resolves every node to the declaration of
    [f] in [variableAnnotation], as a function. *)
Definition functionWorkspace : IElmWorkspace :=
  mkWorkspace
    (fun _ => None)
    (fun _ _ => Some (mkDefinition (handleAt variableAnnotation [1])
                                   "file:///src/V.elm" Function)).

(** ** Notions the further properties are stated with *)

(** What [findParentOfType] accepts: a node of the kind and, for a
    top-level search, with a parent of kind [file]. *)
Definition acceptedAs (ty : string) (topLevel : bool) (a : SyntaxNode) : bool :=
  String.eqb (typeOf a) ty
  && (negb topLevel
      || match parent a with
         | Some p => String.eqb (typeOf p) "file"
         | None => false
         end).

(** The nodes of a list before its first node of kind [file]. *)
Fixpoint beforeFile (l : list SyntaxNode) : list SyntaxNode :=
  match l with
  | [] => []
  | a :: l' => if String.eqb (typeOf a) "file" then [] else a :: beforeFile l'
  end.

(** The node and its ancestors, for a handle. *)
Definition ancestors (node : SyntaxNode) : list SyntaxNode :=
  ancestorsOrSelf (tree node) (rpath node) (self node).

(** The declarations [findFunction] searches: the [value_declaration]
    children of the node, or all those at or below it. *)
Definition searchedDeclarations (syntaxNode : SyntaxNode) (onlySearchTopLevel : bool)
  : list SyntaxNode :=
  if onlySearchTopLevel
  then List.filter (fun a => String.eqb (typeOf a) "value_declaration")
                   (childNodes syntaxNode)
  else descendantsOfType syntaxNode "value_declaration".

(** [( x, y ) = pair] after [f = 1]: a function bound in a pattern. *)
Definition patternBinding : Tree :=
  mkTree "file:///src/P.elm"
    (nd "file" "f = 1 ( x, y ) = pair"
        [nd "value_declaration" "f = 1"
            [nd "function_declaration_left" "f" [nd "lower_case_identifier" "f" []];
             nd "eq" "=" [];
             nd "number_constant_expr" "1" []];
         nd "value_declaration" "( x, y ) = pair"
            [nd "pattern" "( x, y )"
                [nd "tuple_pattern" "( x, y )"
                    [nd "left_parenthesis" "(" [];
                     nd "pattern" "x" [nd "lower_pattern" "x" [nd "lower_case_identifier" "x" []]];
                     tok ",";
                     nd "pattern" "y" [nd "lower_pattern" "y" [nd "lower_case_identifier" "y" []]];
                     nd "right_parenthesis" ")" []]];
             nd "eq" "=" [];
             nd "value_expr" "pair" [nd "lower_case_identifier" "pair" []]]]).

(** The handle names the node its path leads to from the root. *)
Definition wellFormed (s : SyntaxNode) : Prop :=
  node_at (rootNode_ (tree s)) (rev (rpath s)) = Some (self s).

(** The named siblings before a node, the nearest first. *)
Definition precedingNamedSiblings (node : SyntaxNode) : list SyntaxNode :=
  match rpath node, parent node with
  | i :: _, Some p => rev (List.filter named (firstn i (childNodes p)))
  | _, _ => []
  end.

(** [x : Foo] followed by [x = Foo]: the name [Foo] once as a type and
    once as a constructor. *)
Definition constructorUse : Tree :=
  mkTree "file:///src/U.elm"
    (nd "file" "x : Foo x = Foo"
        [nd "type_annotation" "x : Foo"
            [nd "lower_case_identifier" "x" [];
             nd "colon" ":" [];
             nd "type_expression" "Foo"
                [nd "type_ref" "Foo"
                    [nd "upper_case_qid" "Foo" [nd "upper_case_identifier" "Foo" []]]]];
         nd "value_declaration" "x = Foo"
            [nd "function_declaration_left" "x" [nd "lower_case_identifier" "x" []];
             nd "eq" "=" [];
             nd "value_expr" "Foo"
                [nd "upper_case_qid" "Foo" [nd "upper_case_identifier" "Foo" []]]]]).

(** [import A as B] followed by [import B]. *)
Definition aliasedImports : Tree :=
  mkTree "file:///src/I.elm"
    (nd "file" "import A as B import B"
        [nd "import_clause" "import A as B"
            [nd "import" "import" [];
             nd "upper_case_qid" "A" [nd "upper_case_identifier" "A" []];
             nd "as_clause" "as B"
                [nd "as" "as" []; nd "upper_case_identifier" "B" []]];
         nd "import_clause" "import B"
            [nd "import" "import" [];
             nd "upper_case_qid" "B" [nd "upper_case_identifier" "B" []]]]).

(** [f : Int], a line comment, then [f = 1]. *)
Definition commentedAnnotation : Tree :=
  mkTree "file:///src/K.elm"
    (nd "file" "f : Int -- one f = 1"
        [nd "type_annotation" "f : Int"
            [nd "lower_case_identifier" "f" [];
             nd "colon" ":" [];
             nd "type_expression" "Int"
                [nd "type_ref" "Int"
                    [nd "upper_case_qid" "Int" [nd "upper_case_identifier" "Int" []]]]];
         nd "line_comment" "-- one" [];
         nd "value_declaration" "f = 1"
            [nd "function_declaration_left" "f" [nd "lower_case_identifier" "f" []];
             nd "eq" "=" [];
             nd "number_constant_expr" "1" []]]).

(** The nearest named sibling before a node that is no comment. *)
Definition nearestNonComment (node : SyntaxNode) : option SyntaxNode :=
  List.find (fun a => negb (isComment a)) (precedingNamedSiblings node).

(** [type alias Box a = { value : a }] *)
Definition boxAlias : Tree :=
  mkTree "file:///src/B.elm"
    (nd "file" "type alias Box a = { value : a }"
        [nd "type_alias_declaration" "type alias Box a = { value : a }"
            [nd "type" "type" [];
             nd "alias" "alias" [];
             nd "upper_case_identifier" "Box" [];
             nd "lower_type_name" "a" [];
             nd "eq" "=" [];
             nd "type_expression" "{ value : a }"
                [nd "record_type" "{ value : a }"
                    [nd "left_brace" "{" [];
                     nd "field_type" "value : a"
                        [nd "lower_case_identifier" "value" [];
                         nd "colon" ":" [];
                         nd "type_expression" "a" [nd "type_variable" "a" []]];
                     nd "right_brace" "}" []]]]]).

(** [infix left 0 (|>) = apR] followed by [apR x f = f x]. *)
Definition infixTree : Tree :=
  mkTree "file:///src/O.elm"
    (nd "file" "infix left 0 (|>) = apR apR x f = f x"
        [nd "infix_declaration" "infix left 0 (|>) = apR"
            [nd "infix" "infix" [];
             nd "lower_case_identifier" "left" [];
             nd "number_literal" "0" [];
             nd "left_parenthesis" "(" [];
             nd "operator_identifier" "|>" [];
             nd "right_parenthesis" ")" [];
             nd "eq" "=" [];
             nd "value_expr" "apR" [nd "lower_case_identifier" "apR" []]];
         nd "value_declaration" "apR x f = f x"
            [nd "function_declaration_left" "apR x f"
                [nd "lower_case_identifier" "apR" [];
                 nd "lower_pattern" "x" [nd "lower_case_identifier" "x" []];
                 nd "lower_pattern" "f" [nd "lower_case_identifier" "f" []]];
             nd "eq" "=" [];
             nd "function_call_expr" "f x"
                [nd "value_expr" "f" [nd "lower_case_identifier" "f" []];
                 nd "value_expr" "x" [nd "lower_case_identifier" "x" []]]]]).

(** A workspace without forest entries whose checker resolves every node
    to the alias [Box] of [boxAlias]. *)
Definition aliasWorkspace : IElmWorkspace :=
  mkWorkspace
    (fun _ => None)
    (fun _ _ => Some (mkDefinition (handleAt boxAlias [0]) "file:///src/B.elm" TypeAlias)).

(** [f : a -> Int -> String] followed by [f x y = y]: the first type the
    annotation lists is a type variable. *)
Definition variableFirst : Tree :=
  mkTree "file:///src/W.elm"
    (nd "file" "f : a -> Int -> String f x y = y"
        [nd "type_annotation" "f : a -> Int -> String"
            [nd "lower_case_identifier" "f" [];
             nd "colon" ":" [];
             nd "type_expression" "a -> Int -> String"
                [nd "type_variable" "a" [nd "lower_case_identifier" "a" []];
                 nd "arrow" "->" [];
                 nd "type_ref" "Int"
                    [nd "upper_case_qid" "Int" [nd "upper_case_identifier" "Int" []]];
                 nd "arrow" "->" [];
                 nd "type_ref" "String"
                    [nd "upper_case_qid" "String"
                        [nd "upper_case_identifier" "String" []]]]];
         nd "value_declaration" "f x y = y"
            [nd "function_declaration_left" "f x y"
                [nd "lower_case_identifier" "f" [];
                 nd "lower_pattern" "x" [nd "lower_case_identifier" "x" []];
                 nd "lower_pattern" "y" [nd "lower_case_identifier" "y" []]];
             nd "eq" "=" [];
             nd "value_expr" "y" [nd "lower_case_identifier" "y" []]]]).

(** The types an annotation lists: the named children of its type
    expression other than the arrows between them; the last one is the
    type of the result. *)
Definition listedTypes (annotated : SyntaxNode) : list SyntaxNode :=
  List.filter (fun c => named c && negb (String.eqb (typeOf c) "arrow"))
              (childNodes annotated).

(** The parameters of a declaration: the named children of its left-hand
    side after the name of the function. *)
Definition parameterPatterns (declarationLeft : SyntaxNode) : list SyntaxNode :=
  tl (namedChildren declarationLeft).

(** A constructor call of a name in a tree: an [upper_case_qid] node
    whose first child is an [upper_case_identifier] with the name and whose
    parent exists and is no [type_ref]. *)
Definition constructorCall (t : Tree) (name : string) (a : SyntaxNode) : Prop :=
  descendant (rootNode t) a /\ typeOf a = "upper_case_qid" /\
  (exists c, firstChild a = Some c /\ typeOf c = "upper_case_identifier" /\
             textOf c = name) /\
  exists p, parent a = Some p /\ typeOf p <> "type_ref".

(** A type call of a name in a tree: an [upper_case_qid] node with the
    name as its text that has a child and is the first child of a
    [type_ref] of the tree. *)
Definition typeCall (t : Tree) (name : string) (a : SyntaxNode) : Prop :=
  textOf a = name /\ typeOf a = "upper_case_qid" /\ firstChild a <> None /\
  exists typeRef,
    descendant (rootNode t) typeRef /\ typeOf typeRef = "type_ref" /\
    firstChild typeRef = Some a.

(** A field of a node: the text of the first [lower_case_identifier]
    child and the text of the first [type_expression] child of a
    [field_type] node at or below it that has both. *)
Definition fieldOf (node : option SyntaxNode) (field ty : string) : Prop :=
  exists n a fieldName typeExpression,
    node = Some n /\ descendant n a /\ typeOf a = "field_type" /\
    findFirstNamedChildOfType "lower_case_identifier" a = Some fieldName /\
    findFirstNamedChildOfType "type_expression" a = Some typeExpression /\
    field = textOf fieldName /\ ty = textOf typeExpression.

(** A top-level declaration of a tree: a [value_declaration] child of the
    root. *)
Definition topLevelDeclaration (t : Tree) (v : SyntaxNode) : Prop :=
  In v (childNodes (rootNode t)) /\ typeOf v = "value_declaration".

(** [type.firstNamedChild ? type.firstNamedChild : type] *)
Definition firstNamedChildOr (ty : SyntaxNode) : SyntaxNode :=
  match firstNamedChild ty with
  | Some c => c
  | None => ty
  end.

(** What [getTypeAliasOfRecord] answers once it has chosen the subject it
    hands to the checker. *)
Definition answersAbout (elmWorkspace : IElmWorkspace) (treeContainer : ITreeContainer)
    (subject : SyntaxNode) (result : JsResult (option AliasResult)) : Prop :=
  (findDefinition elmWorkspace subject treeContainer = None -> result = Ok None)
  /\ (forall d,
        findDefinition elmWorkspace subject treeContainer = Some d ->
        (defNodeType d = TypeAlias ->
         result = Ok (Some (mkAlias (defNode d) (defUri d))))
        /\ (defNodeType d = FieldType ->
            result = Ok (resolveAliasNode elmWorkspace
                           (findFirstNamedChildOfType "type_expression" (defNode d))
                           (getByUri elmWorkspace (defUri d))))
        /\ (forall r, defNodeType d <> TypeAlias -> result = Ok (Some r) ->
              exists definitionTree first typeNode,
                getByUri elmWorkspace (defUri d) = Some definitionTree /\
                findDefinition elmWorkspace first definitionTree = Some typeNode /\
                r = mkAlias (defNode typeNode) (defUri typeNode))
        /\ (forall e, result = Throw e ->
              defNodeType d = Function /\
              getReturnTypeOrTypeAliasOfFunctionDefinition (Some (defNode d)) = Throw e)).

(** [update model = { model | count = 1 }] *)
Definition recordUpdate : Tree :=
  mkTree "file:///src/R.elm"
    (nd "file" "update model = { model | count = 1 }"
        [nd "value_declaration" "update model = { model | count = 1 }"
            [nd "function_declaration_left" "update model"
                [nd "lower_case_identifier" "update" [];
                 nd "lower_pattern" "model" [nd "lower_case_identifier" "model" []]];
             nd "eq" "=" [];
             nd "record_expr" "{ model | count = 1 }"
                [nd "left_brace" "{" [];
                 nd "record_base_identifier" "model"
                    [nd "lower_case_identifier" "model" []];
                 nd "pipe" "|" [];
                 nd "field" "count = 1"
                    [nd "lower_case_identifier" "count" [];
                     nd "eq" "=" [];
                     nd "number_constant_expr" "1" []];
                 nd "right_brace" "}" []]]]).

(** * Properties *)

(** ** Helper lemmas *)

Lemma find_some_in {A : Type} (p : A -> bool) (l : list A) (x : A) :
  In x l -> p x = true -> exists y, List.find p l = Some y.
Proof.
  induction l as [|a l IH]; simpl; [tauto|].
  intros [->|Hin] Hp.
  - rewrite Hp. eauto.
  - destruct (p a); eauto.
Qed.

Lemma prefix_app (p s : string) :
  String.prefix p s = true <-> exists rest, s = p +:+ rest.
Proof.
  revert s. induction p as [|c p IH]; intros s.
  - split; [intros _; now exists s | intros _; now destruct s].
  - assert (Hcons : forall r, String c p +:+ r = String c (p +:+ r)) by reflexivity.
    destruct s as [|d s]; cbn [String.prefix].
    + split; [discriminate | intros [r Hr]; rewrite Hcons in Hr; discriminate].
    + destruct (ascii_dec c d) as [->|Hne].
      * rewrite IH. split; intros [r Hr]; exists r; rewrite Hcons in *; congruence.
      * split; [discriminate | intros [r Hr]; rewrite Hcons in Hr; congruence].
Qed.

Lemma exposesAll_true (m : SyntaxNode) : exposesAll m = true <-> hasWildcard m.
Proof.
  unfold exposesAll, hasWildcard. split.
  - destruct (findFirstNamedChildOfType "exposing_list" m) as [el|]; [|discriminate].
    unfold findFirstNamedChildOfType at 1.
    destruct (List.find _ (childNodes el)) as [dd|] eqn:Hdd; [|discriminate].
    intros _. apply find_some in Hdd as [Hin Hty].
    exists el, dd. split; [reflexivity|]. split; [exact Hin|]. now apply String.eqb_eq.
  - intros (el & dd & -> & Hin & Hty).
    unfold findFirstNamedChildOfType.
    destruct (find_some_in (fun child => String.eqb (typeOf child) "double_dot")
                (childNodes el) dd Hin) as [y ->]; [|reflexivity].
    now apply String.eqb_eq.
Qed.

Lemma exposesAll_false (m : SyntaxNode) : exposesAll m = false <-> ~ hasWildcard m.
Proof.
  rewrite <- exposesAll_true. destruct (exposesAll m); split; congruence.
Qed.

Lemma in_descendantsOfType (m d : SyntaxNode) (ty : string) :
  In d (descendantsOfType m ty) <-> descendant m d /\ typeOf d = ty.
Proof.
  unfold descendantsOfType, descendant. rewrite filter_In.
  now rewrite String.eqb_eq.
Qed.

Lemma wildcardDeclaration_hasWildcard : hasWildcard wildcardDeclaration.
Proof. apply exposesAll_true. reflexivity. Defined.

Lemma explicitDeclaration_no_wildcard : ~ hasWildcard explicitDeclaration.
Proof. apply exposesAll_false. reflexivity. Defined.

(** ** Exposing lists *)

(** C4. When the exposing list of the module declaration has the wildcard
    marker, [isExposedFunction] and [isExposedTypeOrTypeAlias] answer true
    for every name; without a module declaration both answer false. *)
Theorem wildcard_exposes_every_name :
  (forall (t : Tree) (m : SyntaxNode) (name : string),
      findModuleDeclaration t = Some m -> hasWildcard m ->
      isExposedFunction t name = true /\ isExposedTypeOrTypeAlias t name = true)
  /\
  (forall (t : Tree) (name : string),
      findModuleDeclaration t = None ->
      isExposedFunction t name = false /\ isExposedTypeOrTypeAlias t name = false).
Proof.
  split.
  - intros t m name Hm Hw. apply exposesAll_true in Hw.
    unfold isExposedFunction, isExposedTypeOrTypeAlias. now rewrite Hm, Hw.
  - intros t name Hm.
    unfold isExposedFunction, isExposedTypeOrTypeAlias. now rewrite Hm.
Qed.

Lemma wildcard_exposes_every_name_witness :
  (isExposedFunction wildcardModule "notListedAnywhere" = true /\
   isExposedTypeOrTypeAlias wildcardModule "notListedAnywhere" = true) /\
  (isExposedFunction headlessFile "x" = false /\
   isExposedTypeOrTypeAlias headlessFile "x" = false).
Proof.
  split.
  - apply (proj1 wildcard_exposes_every_name wildcardModule wildcardDeclaration
             "notListedAnywhere" eq_refl wildcardDeclaration_hasWildcard).
  - apply (proj2 wildcard_exposes_every_name headlessFile "x" eq_refl).
Defined.

(** C5. With a module declaration whose exposing list has no wildcard
    marker, [isExposedFunction] holds exactly of the names that are the
    text of an [exposed_value] entry, and [isExposedTypeOrTypeAlias]
    exactly of the names some [exposed_type] entry's text starts with; for
    [module M exposing (foo, Bar)]: foo is exposed, baz is not, and Bar is
    an exposed type. *)
Theorem explicit_exposing_scans_entries :
  (forall (t : Tree) (m : SyntaxNode) (name : string),
      findModuleDeclaration t = Some m -> ~ hasWildcard m ->
      (isExposedFunction t name = true <->
         exists d, descendant m d /\ typeOf d = "exposed_value" /\ textOf d = name)
      /\
      (isExposedTypeOrTypeAlias t name = true <->
         exists d, descendant m d /\ typeOf d = "exposed_type" /\
                   exists rest, textOf d = name +:+ rest))
  /\ isExposedFunction explicitModule "foo" = true
  /\ isExposedFunction explicitModule "baz" = false
  /\ isExposedTypeOrTypeAlias explicitModule "Bar" = true.
Proof.
  split; [|split; [|split]; reflexivity].
  intros t m name Hm Hw. apply exposesAll_false in Hw.
  unfold isExposedFunction, isExposedTypeOrTypeAlias. rewrite Hm, Hw.
  split; rewrite existsb_exists; split.
  - intros (d & Hd & Ht). apply in_descendantsOfType in Hd as [Hd Hty].
    exists d. split; [exact Hd|]. split; [exact Hty|]. now apply String.eqb_eq.
  - intros (d & Hd & Hty & Ht). exists d. split.
    + apply in_descendantsOfType. now split.
    + now apply String.eqb_eq.
  - intros (d & Hd & Ht). apply in_descendantsOfType in Hd as [Hd Hty].
    exists d. split; [exact Hd|]. split; [exact Hty|]. now apply prefix_app.
  - intros (d & Hd & Hty & Ht). exists d. split.
    + apply in_descendantsOfType. now split.
    + now apply prefix_app.
Qed.

Lemma explicit_exposing_scans_entries_witness :
  (isExposedFunction explicitModule "Bar" = true <->
     exists d, descendant explicitDeclaration d /\ typeOf d = "exposed_value" /\
               textOf d = "Bar")
  /\
  (isExposedTypeOrTypeAlias explicitModule "Bar" = true <->
     exists d, descendant explicitDeclaration d /\ typeOf d = "exposed_type" /\
               exists rest, textOf d = "Bar" +:+ rest).
Proof.
  apply (proj1 explicit_exposing_scans_entries explicitModule explicitDeclaration "Bar").
  - reflexivity.
  - apply explicitDeclaration_no_wildcard.
Defined.

(** C10. For a node whose exposing list has the wildcard marker,
    [findExposedFunctionNode] and [findExposedTypeOrTypeAliasNode] find no
    node for any name, while [isExposedFunction] and
    [isExposedTypeOrTypeAlias] answer true for the same names on a tree
    with that module declaration. *)
Theorem wildcard_lookups_find_no_node :
  forall (m : SyntaxNode) (name : string),
    hasWildcard m ->
    findExposedFunctionNode (Some m) name = None /\
    findExposedTypeOrTypeAliasNode (Some m) name = None /\
    (forall t : Tree, findModuleDeclaration t = Some m ->
       isExposedFunction t name = true /\ isExposedTypeOrTypeAlias t name = true).
Proof.
  intros m name Hw. pose proof Hw as Hw'. apply exposesAll_true in Hw'.
  unfold findExposedFunctionNode, findExposedTypeOrTypeAliasNode. rewrite Hw'.
  split; [reflexivity|]. split; [reflexivity|].
  intros t Hm. unfold isExposedFunction, isExposedTypeOrTypeAlias. now rewrite Hm, Hw'.
Qed.

Lemma wildcard_lookups_find_no_node_witness :
  findExposedFunctionNode (Some wildcardDeclaration) "view" = None /\
  findExposedTypeOrTypeAliasNode (Some wildcardDeclaration) "view" = None /\
  (forall t : Tree, findModuleDeclaration t = Some wildcardDeclaration ->
     isExposedFunction t "view" = true /\ isExposedTypeOrTypeAlias t "view" = true).
Proof.
  apply (wildcard_lookups_find_no_node wildcardDeclaration "view").
  apply exposesAll_true. reflexivity.
Defined.

(** ** Field references *)

(** C1, as stated, fails: the references of the field are not empty, yet
    no reference is returned, because the first reference's tree has an
    empty file identity. *)
Lemma findFieldReference_empty_uri :
  fieldReferences_get unidentifiedReferences "x" = [unidentifiedReference] /\
  findFieldReference (Record_ unidentifiedReferences) "x" = None /\
  findFieldReference (Record_ unidentifiedReferences) "x"
    <> Some (mkDefinition unidentifiedReference (uri (tree unidentifiedReference)) FieldType).
Proof. split; [reflexivity|]. split; [reflexivity|discriminate]. Qed.

(** C1, amended. [findFieldReference] answers the empty result when the
    type is not a record or the record has no reference for the field
    name; when the record has references for the field and the tree of the
    first one has a non-empty file identity, it answers that first
    reference with kind [FieldType] and that file identity; with an empty
    file identity it answers the empty result. *)
Theorem findFieldReference_first_reference :
  forall (ty : InferredType) (fieldName : string),
    ((forall refs, ty <> Record_ refs) -> findFieldReference ty fieldName = None)
    /\
    (forall refs,
        ty = Record_ refs -> fieldReferences_get refs fieldName = [] ->
        findFieldReference ty fieldName = None)
    /\
    (forall refs first rest,
        ty = Record_ refs -> fieldReferences_get refs fieldName = first :: rest ->
        (uri (tree first) <> "" ->
         findFieldReference ty fieldName
         = Some (mkDefinition first (uri (tree first)) FieldType))
        /\
        (uri (tree first) = "" -> findFieldReference ty fieldName = None)).
Proof.
  intros ty fieldName. split; [|split].
  - intros Hnot. destruct ty as [refs|other]; [now destruct (Hnot refs)|reflexivity].
  - intros refs -> Hget. unfold findFieldReference. now rewrite Hget.
  - intros refs first rest -> Hget. unfold findFieldReference. rewrite Hget. simpl.
    unfold truthy. split.
    + intros Huri.
      destruct (String.eqb_spec (uri (tree first)) ""); [contradiction|reflexivity].
    + intros ->. reflexivity.
Qed.

Lemma findFieldReference_first_reference_witness :
  findFieldReference (Record_ someReferences) "x"
  = Some (mkDefinition explicitDeclaration "file:///src/M.elm" FieldType)
  /\ findFieldReference (Record_ someReferences) "y" = None
  /\ findFieldReference (OtherType "Unit") "x" = None.
Proof.
  split; [|split].
  - apply (proj1 (proj2 (proj2 (findFieldReference_first_reference
             (Record_ someReferences) "x"))
             someReferences explicitDeclaration [rootNode explicitModule]
             eq_refl eq_refl)).
    discriminate.
  - apply (proj1 (proj2 (findFieldReference_first_reference
             (Record_ someReferences) "y")) someReferences eq_refl eq_refl).
  - apply (proj1 (findFieldReference_first_reference (OtherType "Unit") "x")).
    discriminate.
Defined.

(** ** Position to node *)

Section PositionProperties.

Variable lookup : SyntaxNode -> Point -> option Point -> SyntaxNode.

(** The position-to-node mapping faults exactly on a line the node's
    text does not have. *)
Lemma getNamedDescendantForPosition_faults_iff (node : SyntaxNode) (position : Position) :
  (exists e, getNamedDescendantForPosition lookup node position = Throw e)
  <-> length (js_split_lines (textOf node)) <= line position.
Proof.
  unfold getNamedDescendantForPosition, js_index.
  destruct (Z.ltb_spec (Z.of_nat (line position)) 0) as [Hneg|_]; [lia|].
  rewrite Nat2Z.id.
  destruct (nth_error _ (line position)) as [l|] eqn:Hl.
  - split.
    + intros [e He]. destruct (negb _); discriminate.
    + intros Hle. apply nth_error_None in Hle. congruence.
  - split; [intros _; now apply nth_error_None | eauto].
Qed.

Lemma substring_one (s : string) (i : nat) :
  String.substring i 1 s =
  match String.get i s with
  | Some ch => String ch EmptyString
  | None => EmptyString
  end.
Proof.
  revert i. induction s as [|a s IH]; intros [|i]; simpl; trivial.
  now destruct s.
Qed.

(** On a line the text has, the mapping looks at the one character
    before the cursor column: for an identifier character the lookup is
    over the range from the previous column to the column, otherwise
    (also at column 0) it is a point lookup at the column. *)
Lemma getNamedDescendantForPosition_policy (node : SyntaxNode) (position : Position)
    (lineText : string) :
  nth_error (js_split_lines (textOf node)) (line position) = Some lineText ->
  let l := line position in
  let c := character position in
  getNamedDescendantForPosition lookup node position =
  match c with
  | O => Ok (lookup node (mkPoint l 0) None)
  | S prev =>
      match String.get prev lineText with
      | Some ch =>
          if isFunctionNameChar ch
          then Ok (lookup node (mkPoint l prev) (Some (mkPoint l c)))
          else Ok (lookup node (mkPoint l c) None)
      | None => Ok (lookup node (mkPoint l c) None)
      end
  end.
Proof.
  intros Hl l c. unfold getNamedDescendantForPosition, js_index.
  destruct (Z.ltb_spec (Z.of_nat (line position)) 0) as [Hneg|_]; [lia|].
  rewrite Nat2Z.id, Hl. fold c l.
  destruct c as [|prev]; simpl Nat.eqb; cbv iota.
  - unfold js_substring. simpl. now destruct lineText.
  - replace (S prev - 1) with prev by lia.
    unfold js_substring.
    replace (Nat.min prev (S prev)) with prev by lia.
    replace (Nat.max prev (S prev) - prev) with 1 by lia.
    rewrite substring_one. destruct (String.get prev lineText) as [ch|]; simpl; trivial.
    unfold functionNameRegex_test. simpl. rewrite orb_false_r.
    now destruct (isFunctionNameChar ch).
Qed.

(** C2, evaluated. The position-to-node mapping faults exactly on the
    positions whose line the node's text does not have: at line 1 of the
    one-line text [foo] it ends with a [TypeError]. A column past the end
    of an existing line is answered by a point lookup, and the line-before
    and line-after lookups answer for every position (the previous line of
    line 0 is line 0). *)
Theorem position_lookup_faults_past_last_line :
  (forall node position,
      (exists e, getNamedDescendantForPosition lookup node position = Throw e)
      <-> length (js_split_lines (textOf node)) <= line position)
  /\ getNamedDescendantForPosition lookup (rootNode fooTree) (mkPosition 1 0)
     = Throw (TypeError "Cannot read properties of undefined (reading 'substring')")
  /\ getNamedDescendantForPosition lookup (rootNode fooTree) (mkPosition 0 7)
     = Ok (lookup (rootNode fooTree) (mkPoint 0 7) None)
  /\ (forall node position,
         getNamedDescendantForLineBeforePosition lookup node position
         = Ok (lookup node (mkPoint (line position - 1) 0) None))
  /\ (forall node position,
         getNamedDescendantForLineAfterPosition lookup node position
         = Ok (lookup node (mkPoint (line position + 1) 0) None)).
Proof.
  split; [exact getNamedDescendantForPosition_faults_iff|].
  split; [reflexivity|]. split; [reflexivity|]. split; [|reflexivity].
  intros node [[|l] c]; unfold getNamedDescendantForLineBeforePosition; simpl; trivial.
Qed.

(** C3, evaluated. On a line the text has, the mapping follows the
    policy: after the text [foo] a cursor at column 3 is looked up over the
    range from column 2 to column 3, a cursor at column 0 by a point
    lookup. But at column 0 of a line the text does not have (line 2 of a
    two-line text), where no character precedes the cursor either, the call
    ends with a [TypeError] instead of a point lookup. *)
Theorem position_policy_faults_without_line :
  (forall node position lineText,
      nth_error (js_split_lines (textOf node)) (line position) = Some lineText ->
      getNamedDescendantForPosition lookup node position =
      match character position with
      | O => Ok (lookup node (mkPoint (line position) 0) None)
      | S prev =>
          match String.get prev lineText with
          | Some ch =>
              if isFunctionNameChar ch
              then Ok (lookup node (mkPoint (line position) prev)
                         (Some (mkPoint (line position) (character position))))
              else Ok (lookup node (mkPoint (line position) (character position)) None)
          | None => Ok (lookup node (mkPoint (line position) (character position)) None)
          end
      end)
  /\ getNamedDescendantForPosition lookup (rootNode fooTree) (mkPosition 0 3)
     = Ok (lookup (rootNode fooTree) (mkPoint 0 2) (Some (mkPoint 0 3)))
  /\ getNamedDescendantForPosition lookup (rootNode fooTree) (mkPosition 0 0)
     = Ok (lookup (rootNode fooTree) (mkPoint 0 0) None)
  /\ getNamedDescendantForPosition lookup (rootNode twoLines) (mkPosition 2 0)
     = Throw (TypeError "Cannot read properties of undefined (reading 'substring')")
  /\ getNamedDescendantForPosition lookup (rootNode twoLines) (mkPosition 2 0)
     <> Ok (lookup (rootNode twoLines) (mkPoint 2 0) None).
Proof.
  split; [exact getNamedDescendantForPosition_policy|].
  split; [reflexivity|]. split; [reflexivity|]. split; [reflexivity|discriminate].
Qed.

End PositionProperties.

(** ** Function parameter types *)

Lemma findIndex_none (A : Type) (p : A -> bool) (l : list A) :
  (forall a, In a l -> p a = false) -> findIndex p l = (-1)%Z.
Proof.
  induction l as [|a l IH]; simpl; intros H; [reflexivity|].
  rewrite (H a (or_introl eq_refl)), IH by (intros b Hb; apply H; now right).
  reflexivity.
Qed.

Lemma findIndex_first (A : Type) (p : A -> bool) (l : list A) (i : nat) (a : A) :
  nth_error l i = Some a -> p a = true ->
  (forall j b, j < i -> nth_error l j = Some b -> p b = false) ->
  findIndex p l = Z.of_nat i.
Proof.
  revert i. induction l as [|x l IH]; intros [|i] Hn Hp Hbefore; simpl in *;
    try discriminate.
  - injection Hn as ->. now rewrite Hp.
  - rewrite (Hbefore 0 x) by (trivial; lia).
    rewrite (IH i Hn Hp) by (intros j b Hj Hb; apply (Hbefore (S j) b); [lia|trivial]).
    destruct (Z.ltb_spec (Z.of_nat i) 0); lia.
Qed.

Lemma js_index_nat (A : Type) (l : list A) (i : nat) :
  js_index l (Z.of_nat i) = nth_error l i.
Proof.
  unfold js_index. destruct (Z.ltb_spec (Z.of_nat i) 0); [lia|]. now rewrite Nat2Z.id.
Qed.

Lemma findAllNamedChildrenOfType_kinds (kinds : list string) (node : SyntaxNode) :
  findAllNamedChildrenOfType (Kinds kinds) node =
  match childrenOfKinds kinds node with
  | [] => None
  | l => Some l
  end.
Proof.
  unfold findAllNamedChildrenOfType, childrenOfKinds.
  now destruct (List.filter _ (childNodes node)).
Qed.

(** What [getTypeOrTypeAliasOfFunctionParameter] indexes: below a
    declaration with a preceding type annotation, the children of kind
    [type_ref] or [type_expression] of the annotation's last named child,
    at the position of the first child of kind [pattern] or [lower_pattern]
    with the parameter's text; when there are no more than that many such
    children, or no such pattern has the text, the answer is the empty
    result. *)
Theorem parameter_type_at_same_ordinal :
  forall (node p1 p2 p3 annotation annotated : SyntaxNode),
    parent node = Some p1 -> parent p1 = Some p2 -> parent p2 = Some p3 ->
    previousNamedSibling p3 = Some annotation ->
    typeOf annotation = "type_annotation" ->
    lastNamedChild annotation = Some annotated ->
    let patterns := childrenOfKinds ["pattern"; "lower_pattern"] p2 in
    let types := childrenOfKinds ["type_ref"; "type_expression"] annotated in
    (forall i, ordinalOf node patterns i ->
               getTypeOrTypeAliasOfFunctionParameter (Some node) = nth_error types i)
    /\
    (forall i, ordinalOf node patterns i -> length types <= i ->
               getTypeOrTypeAliasOfFunctionParameter (Some node) = None)
    /\
    ((forall a, In a patterns -> textOf a <> textOf node) ->
     getTypeOrTypeAliasOfFunctionParameter (Some node) = None).
Proof.
  intros node p1 p2 p3 annotation annotated H1 H2 H3 Hprev Hty Hlast patterns types.
  assert (Hrun : getTypeOrTypeAliasOfFunctionParameter (Some node) =
                 match patterns with
                 | [] => None
                 | _ =>
                     js_index types
                       (findIndex (fun a => String.eqb (textOf a) (textOf node)) patterns)
                 end).
  { unfold getTypeOrTypeAliasOfFunctionParameter. simpl.
    rewrite H1. simpl. rewrite H2. simpl. rewrite H3. simpl. rewrite Hprev. simpl.
    rewrite Hty. simpl. rewrite Hlast. simpl.
    rewrite !findAllNamedChildrenOfType_kinds. fold patterns types.
    destruct patterns as [|a l]; [reflexivity|]. simpl mbind.
    destruct types as [|b l']; [|reflexivity].
    simpl. unfold js_index. destruct (_ <? 0)%Z; trivial. now destruct (Z.to_nat _). }
  assert (Hord : forall i, ordinalOf node patterns i ->
                 getTypeOrTypeAliasOfFunctionParameter (Some node) = nth_error types i).
  { intros i [(a & Ha & Htext) Hbefore]. rewrite Hrun.
    destruct patterns as [|x l] eqn:Hp; [now destruct i|]. rewrite <- Hp in *.
    rewrite (findIndex_first _ _ patterns i a Ha).
    - apply js_index_nat.
    - now apply String.eqb_eq.
    - intros j b Hj Hb. apply String.eqb_neq. eauto. }
  split; [exact Hord|split].
  - intros i Hi Hlen. rewrite (Hord i Hi). now apply nth_error_None.
  - intros Habsent. rewrite Hrun. destruct patterns as [|x l] eqn:Hp; [reflexivity|].
    rewrite <- Hp in *. rewrite findIndex_none; [reflexivity|].
    intros a Ha. apply String.eqb_neq. auto.
Qed.

Lemma parameter_type_at_same_ordinal_witness :
  let node := handleAt partialAnnotation [1; 0; 2; 0] in
  let patterns :=
    childrenOfKinds ["pattern"; "lower_pattern"] (handleAt partialAnnotation [1; 0]) in
  let types :=
    childrenOfKinds ["type_ref"; "type_expression"] (handleAt partialAnnotation [0; 2]) in
  ordinalOf node patterns 1 /\
  length types = 1 /\
  getTypeOrTypeAliasOfFunctionParameter (Some node) = None.
Proof.
  intros node patterns types.
  assert (Hord : ordinalOf node patterns 1).
  { split.
    - exists (handleAt partialAnnotation [1; 0; 2]). split; reflexivity.
    - intros [|j] b Hj Hb; [|lia]. injection Hb as <-. discriminate. }
  split; [exact Hord|]. split; [reflexivity|].
  refine (proj1 (proj2 (parameter_type_at_same_ordinal node
            (handleAt partialAnnotation [1; 0; 2])
            (handleAt partialAnnotation [1; 0])
            (handleAt partialAnnotation [1])
            (handleAt partialAnnotation [0])
            (handleAt partialAnnotation [0; 2])
            eq_refl eq_refl eq_refl eq_refl eq_refl eq_refl)) 1 Hord _).
  simpl. lia.
Defined.

(** C7, evaluated. For [f : a -> Int -> String] and [f x y = y] the
    annotation lists the types [a], [Int] and [String] and the declaration
    the parameters [x] and [y]. For [x], at position 0,
    [getTypeOrTypeAliasOfFunctionParameter] answers [Int], the type listed
    at position 1; for [y], at position 1, it answers [String], the type
    listed last, inside which the return type lookup of the same
    declaration finds the return type. The type variable is passed over
    when the types are counted. An annotation that lists fewer types than
    the parameter's position gives the empty result. *)
Theorem parameter_type_shifted_by_type_variable :
  let annotated := handleAt variableFirst [0; 2] in
  let declaration := handleAt variableFirst [1] in
  let declarationLeft := handleAt variableFirst [1; 0] in
  let x := handleAt variableFirst [1; 0; 1; 0] in
  let y := handleAt variableFirst [1; 0; 2; 0] in
  map textOf (parameterPatterns declarationLeft) = ["x"; "y"]
  /\ map textOf (listedTypes annotated) = ["a"; "Int"; "String"]
  /\ parent x = nth_error (parameterPatterns declarationLeft) 0
  /\ parent y = nth_error (parameterPatterns declarationLeft) 1
  /\ getTypeOrTypeAliasOfFunctionParameter (Some x) = nth_error (listedTypes annotated) 1
  /\ getTypeOrTypeAliasOfFunctionParameter (Some y) = nth_error (listedTypes annotated) 2
  /\ getTypeOrTypeAliasOfFunctionParameter (Some x) <> nth_error (listedTypes annotated) 0
  /\ getTypeOrTypeAliasOfFunctionParameter (Some y) <> nth_error (listedTypes annotated) 1
  /\ (exists result returned,
        getTypeOrTypeAliasOfFunctionParameter (Some y) = Some result /\
        getReturnTypeOrTypeAliasOfFunctionDefinition (Some declaration)
        = Ok (Some returned) /\
        descendant result returned /\ textOf returned = "String")
  /\ getTypeOrTypeAliasOfFunctionParameter (Some (handleAt partialAnnotation [1; 0; 2; 0]))
     = None.
Proof.
  intros annotated declaration declarationLeft x y.
  split; [reflexivity|]. split; [reflexivity|]. split; [reflexivity|].
  split; [reflexivity|]. split; [reflexivity|]. split; [reflexivity|].
  split; [discriminate|]. split; [discriminate|]. split; [|reflexivity].
  exists (handleAt variableFirst [0; 2; 4]), (handleAt variableFirst [0; 2; 4; 0; 0]).
  split; [reflexivity|]. split; [reflexivity|]. split; [|reflexivity].
  right. right. left. reflexivity.
Qed.

(** ** The reparse handler *)

Section ReparseProperties.

Variable parse : string -> option Tree -> Tree.
Variable fsPath : string -> string.
Variable readFileSync : string -> option string.
Variable Imports : Type.
Variable updateImports :
  string -> Tree -> gmap string ITreeContainer -> Imports -> Imports.

#[local] Abbreviation handler :=
  (handleChangeTextDocument parse fsPath readFileSync Imports updateImports).
#[local] Abbreviation installing := (installed Imports updateImports).

Lemma reparseChanges_run (changes : list ContentChange) (t : Tree) (w : World Imports) :
  reparseChanges parse Imports changes (Some t) w =
  (Ok (Some (lastParsed parse t changes)),
   mkWorld (forest w) (imports w) (events w ++ parses changes)).
Proof.
  revert t w. induction changes as [|c changes IH]; intros t w.
  - simpl. unfold mret, M_ret. rewrite app_nil_r. now destruct w.
  - cbn [reparseChanges]. unfold mbind at 1, M_bind at 1.
    unfold parser_parse, mbind, M_bind, emit, mret, M_ret. cbn.
    rewrite IH. cbn. now rewrite <- app_assoc.
Qed.

(** C6. On a change notification the handler asks the forest for the
    file's tree; only without one it reads the file and parses its whole
    text; it parses the whole text of every reported change, never with a
    previous tree; then it replaces the forest's entry of the file by the
    last tree and recomputes the import tables from the new forest. The
    other entries of the forest stay as they were. When the file has to be
    read and the read fails, the fault is propagated and nothing is
    installed. *)
Theorem handleChangeTextDocument_reparses_and_installs :
  forall (params : DidChangeTextDocumentParams) (w : World Imports),
    let fileUri := documentUri params in
    let changes := contentChanges params in
    let asked :=
      events w ++ [EvInfo ("Changed text document, going to parse it. " +:+ fileUri);
                   EvGetTree fileUri] in
    match containerTree <$> forest w !! fileUri, readFileSync (fsPath fileUri) with
    | Some current, _ =>
        let t := lastParsed parse current changes in
        handler params w =
        (Ok tt, installing w fileUri t
                  (asked ++ parses changes
                         ++ [EvSetTree fileUri true true t; EvUpdateImports fileUri t]))
    | None, Some fileContent =>
        let t := lastParsed parse (parse fileContent None) changes in
        handler params w =
        (Ok tt, installing w fileUri t
                  (asked ++ [EvReadFile (fsPath fileUri); EvParse fileContent None]
                         ++ parses changes
                         ++ [EvSetTree fileUri true true t; EvUpdateImports fileUri t]))
    | None, None =>
        handler params w =
        (Throw (IOError (fsPath fileUri)),
         mkWorld (forest w) (imports w) (asked ++ [EvReadFile (fsPath fileUri)]))
    end
    /\
    (forall (t : Tree) (evs : list Event) (other : string),
        let w' := installing w fileUri t evs in
        forest w' !! fileUri = Some (mkContainer fileUri true true t) /\
        (other <> fileUri -> forest w' !! other = forest w !! other) /\
        imports w' = updateImports fileUri t (forest w') (imports w)).
Proof.
  intros params w fileUri changes asked. split.
  - unfold handleChangeTextDocument, forest_getTree, fs_readFileSync, parser_parse,
      forest_setTree, imports_updateImports, installed.
    unfold mbind, M_bind, emit, gets, modify, throw, mret, M_ret. cbn.
    fold fileUri changes.
    destruct (forest w !! fileUri) as [container|] eqn:Hcur; cbn.
    + rewrite reparseChanges_run. cbn. unfold asked.
      rewrite <- !app_assoc. reflexivity.
    + destruct (readFileSync (fsPath fileUri)) as [fileContent|]; cbn.
      * rewrite reparseChanges_run. cbn. unfold asked.
        rewrite <- !app_assoc. reflexivity.
      * unfold asked. rewrite <- !app_assoc. reflexivity.
  - intros t evs other w'. unfold w', installed. cbn. split; [|split].
    + apply lookup_insert_eq.
    + intros Hne. now apply lookup_insert_ne.
    + reflexivity.
Qed.

End ReparseProperties.

Lemma handleChangeTextDocument_reparses_and_installs_witness :
  let t := demoParse "module M exposing (..)" None in
  handleChangeTextDocument demoParse demoPath demoStorage nat demoUpdateImports
    demoParams demoWorld
  = (Ok tt,
     installed nat demoUpdateImports demoWorld "file:///src/M.elm" t
       [EvInfo "Changed text document, going to parse it. file:///src/M.elm";
        EvGetTree "file:///src/M.elm";
        EvReadFile "/src/M.elm";
        EvParse "module M exposing (foo)" None;
        EvParse "module M exposing (..)" None;
        EvSetTree "file:///src/M.elm" true true t;
        EvUpdateImports "file:///src/M.elm" t])
  /\ forest (installed nat demoUpdateImports demoWorld "file:///src/M.elm" t [])
       !! "file:///src/Other.elm" = None.
Proof.
  intros t.
  destruct (handleChangeTextDocument_reparses_and_installs
              demoParse demoPath demoStorage nat demoUpdateImports demoParams demoWorld)
    as [Hrun Hforest].
  split.
  - exact Hrun.
  - destruct (Hforest t [] "file:///src/Other.elm") as (_ & Hother & _).
    refine (eq_trans (Hother _) _); [discriminate|reflexivity].
Defined.


(** ** Record fields: the retry loop *)

Lemma parent_depth (n p : SyntaxNode) :
  parent n = Some p -> length (rpath n) = S (length (rpath p)).
Proof.
  unfold parent. destruct (rpath n) as [|i rp]; [discriminate|].
  destruct (node_at _ _); [|discriminate]. intros [= <-]. reflexivity.
Qed.

Lemma grandparent_depth (node : option SyntaxNode) (up : SyntaxNode) :
  grandparent node = Some up -> depth node = depth (Some up) + 2.
Proof.
  unfold grandparent. destruct node as [n|]; simpl; [|discriminate].
  destruct (parent n) as [p|] eqn:Hp; simpl; [|discriminate].
  intros Hup. apply parent_depth in Hp, Hup. lia.
Qed.

Section RetryProperties.

Variable treeContainer : ITreeContainer.
Variable elmWorkspace : IElmWorkspace.

#[local] Abbreviation run fuel node :=
  (getTypeAliasOfRecordField_fuel fuel node treeContainer elmWorkspace).

(** With fuel for every ascent left, the loop does not depend on the fuel
    and does not exhaust it, provided the calls it makes higher up do not. *)
Lemma retryLoop_fuel_enough
    (self1 self2 : SyntaxNode -> list RetryLog * Outcome (option AliasResult))
    (bound : nat) :
  (forall up, depth (Some up) + 2 <= bound ->
              self1 up = self2 up /\ snd (self1 up) <> OutOfFuel) ->
  forall fuel1 fuel2 recordType node,
    depth node <= bound ->
    depth node < 2 * fuel1 + 2 -> depth node < 2 * fuel2 + 2 ->
    retryLoop self1 fuel1 recordType node = retryLoop self2 fuel2 recordType node
    /\ snd (retryLoop self1 fuel1 recordType node) <> OutOfFuel.
Proof.
  intros Hself. induction fuel1 as [|fuel1 IH]; intros fuel2 recordType node Hb H1 H2.
  - destruct recordType as [r|]; simpl.
    + destruct fuel2; simpl; split; trivial; discriminate.
    + destruct (grandparent node) as [up|] eqn:Hup.
      * apply grandparent_depth in Hup. lia.
      * destruct fuel2; simpl; rewrite ?Hup; split; trivial; discriminate.
  - destruct recordType as [r|]; simpl.
    + destruct fuel2; simpl; split; trivial; discriminate.
    + destruct (grandparent node) as [up|] eqn:Hup.
      * pose proof (grandparent_depth _ _ Hup) as Hd.
        destruct fuel2 as [|fuel2]; [lia|]. simpl. rewrite Hup.
        destruct (Hself up) as [Heq Hfin]; [lia|]. rewrite <- Heq.
        destruct (self1 up) as [nested [[recordType'|e]|]]; simpl in *.
        -- destruct (IH fuel2 recordType' (Some up)) as [Hloop Hfin']; [simpl; lia..|].
           rewrite <- Hloop.
           destruct (retryLoop self1 fuel1 recordType' (Some up)) as [log out].
           split; trivial.
        -- split; trivial; discriminate.
        -- congruence.
      * destruct fuel2; simpl; rewrite ?Hup; split; trivial; discriminate.
Qed.

Lemma getTypeAliasOfRecordField_fuel_enough :
  forall fuel1 fuel2 node,
    depth node < 2 * fuel1 -> depth node < 2 * fuel2 ->
    run fuel1 node = run fuel2 node /\ snd (run fuel1 node) <> OutOfFuel.
Proof.
  induction fuel1 as [|fuel1 IH]; intros fuel2 node H1 H2; [lia|].
  destruct fuel2 as [|fuel2]; [lia|]. simpl.
  destruct (getTypeAliasOfRecord node treeContainer elmWorkspace) as [recordType|e];
    simpl; [|split; trivial; discriminate].
  destruct (retryLoop_fuel_enough
              (fun up => run fuel1 (Some up)) (fun up => run fuel2 (Some up))
              (depth node)) with (fuel1 := fuel1) (fuel2 := fuel2)
              (recordType := recordType) (node := node) as [Hloop Hfin]; try lia.
  { intros up Hup. apply IH; lia. }
  rewrite <- Hloop.
  destruct (retryLoop _ fuel1 recordType node) as [log [[r|e]|]]; simpl in *;
    split; trivial; try discriminate.
Qed.

Lemma retryLoop_ascends
    (self_ : SyntaxNode -> list RetryLog * Outcome (option AliasResult)) :
  (forall up, ascends (Some up) (fst (self_ up))) ->
  forall fuel recordType node, ascends node (fst (retryLoop self_ fuel recordType node)).
Proof.
  intros Hself. induction fuel as [|fuel IH]; intros recordType node;
    destruct recordType as [r|]; simpl; try constructor;
    destruct (grandparent node) as [up|] eqn:Hup; simpl; try constructor.
  pose proof (Hself up) as Hnested.
  destruct (self_ up) as [nested [[recordType'|e]|]]; simpl in *.
  - pose proof (IH recordType' (Some up)) as Hrest.
    destruct (retryLoop self_ fuel recordType' (Some up)) as [log out].
    now constructor.
  - constructor; trivial; constructor.
  - constructor; trivial; constructor.
Qed.

Lemma getTypeAliasOfRecordField_ascends :
  forall fuel node, ascends node (fst (run fuel node)).
Proof.
  induction fuel as [|fuel IH]; intros node; simpl; [constructor|].
  destruct (getTypeAliasOfRecord node treeContainer elmWorkspace) as [recordType|e];
    simpl; [|constructor].
  pose proof (retryLoop_ascends (fun up => run fuel (Some up))
                (fun up => IH (Some up)) fuel recordType node) as Hloop.
  destruct (retryLoop _ fuel recordType node) as [log [[r|e]|]]; exact Hloop.
Qed.

End RetryProperties.

Lemma half_step (n : nat) : (n + 2) / 2 = S (n / 2).
Proof. replace (n + 2) with (n + 1 * 2) by lia. rewrite Nat.div_add by lia. lia. Qed.

(** A log that ascends from a node has at most half the node's depth
    retries of its own, the nested ones not counted, and fewer than two
    to the power of that half with them. *)
Lemma ascends_bounds (node : option SyntaxNode) (logs : list RetryLog) :
  ascends node logs ->
  length logs <= depth node / 2 /\ totalRetries logs + 1 <= 2 ^ (depth node / 2).
Proof.
  induction 1 as [node|node up nested rest Hup _ [IHn1 IHn2] _ [IHr1 IHr2]].
  - cbn [length totalRetries]. split; [lia|]. pose proof (Nat.pow_nonzero 2 (depth node / 2) ltac:(lia)). lia.
  - apply grandparent_depth in Hup. rewrite Hup, half_step.
    cbn [length totalRetries retries]. fold (totalRetries nested).
    rewrite Nat.pow_succ_r'. split; lia.
Qed.





(** ** Successor traversal *)

(** Induction over syntax trees. *)
Lemma Node_rect' (P : Node -> Prop) :
  (forall ty nm f tx cs, Forall P cs -> P (mkNode ty nm f tx cs)) ->
  forall n, P n.
Proof.
  intros H. fix IH 1. intros [ty nm f tx cs]. apply H.
  induction cs as [|c cs IHcs]; constructor; [apply IH|exact IHcs].
Qed.

Lemma node_at_app (n : Node) (p q : list nat) :
  node_at n (p ++ q) =
  match node_at n p with
  | Some m => node_at m q
  | None => None
  end.
Proof.
  revert n. induction p as [|i p IH]; intros n; simpl; [reflexivity|].
  destruct (nth_error (children n) i); [apply IH|reflexivity].
Qed.

Lemma namedLeaves_eq (t : Tree) (rp : list nat) (n : Node) :
  namedLeaves t rp n =
  match leavesBelow t rp 0 (children n) with
  | [] => [mkSyntaxNode t rp n]
  | l => l
  end.
Proof.
  destruct n as [ty nm f tx cs]. cbn [namedLeaves children].
  assert (H : forall i,
             (fix below (i : nat) (cs : list Node) {struct cs} : list SyntaxNode :=
                match cs with
                | [] => []
                | c :: cs' =>
                    (if isNamed c then namedLeaves t (i :: rp) c else [])
                      ++ below (S i) cs'
                end) i cs = leavesBelow t rp i cs).
  { induction cs as [|c cs IH]; intros i; simpl; [reflexivity|]. now rewrite IH. }
  now rewrite H.
Qed.

Lemma moveDown_children (t : Tree) (rp : list nat) (n : Node) (cs : list Node) (i : nat) :
  (fix firstNamed (i : nat) (cs : list Node) {struct cs} : SyntaxNode :=
     match cs with
     | [] => mkSyntaxNode t rp n
     | c :: cs' =>
         if isNamed c then moveDown t (i :: rp) c else firstNamed (S i) cs'
     end) i cs = moveDownBelow t rp n i cs.
Proof.
  revert i. induction cs as [|c cs IH]; intros i; simpl; [reflexivity|]. now rewrite IH.
Qed.

Lemma moveDown_eq (t : Tree) (rp : list nat) (n : Node) :
  moveDown t rp n = moveDownBelow t rp n 0 (children n).
Proof.
  destruct n as [ty nm f tx cs]. cbn [moveDown children]. apply moveDown_children.
Qed.

Lemma namedLeaves_nonempty (t : Tree) (rp : list nat) (n : Node) :
  namedLeaves t rp n <> [].
Proof.
  rewrite namedLeaves_eq. destruct (leavesBelow t rp 0 (children n)); discriminate.
Qed.

Lemma leavesBelow_hd (t : Tree) (rp : list nat) (n : Node) (i : nat) (cs : list Node) :
  Forall (fun c => forall rp', hd_error (namedLeaves t rp' c) = Some (moveDown t rp' c)) cs ->
  hd_error (leavesBelow t rp i cs)
  = descend <$> hd_error (List.filter named (childNodes_from t rp i cs))
  /\ moveDownBelow t rp n i cs
     = match hd_error (leavesBelow t rp i cs) with
       | Some a => a
       | None => mkSyntaxNode t rp n
       end.
Proof.
  intros Hcs. revert i. induction Hcs as [|c cs Hc _ IH]; intros i; simpl; [easy|].
  unfold named at 1. cbn [self].
  destruct (isNamed c) eqn:Hnamed.
  - specialize (Hc (i :: rp)).
    destruct (namedLeaves t (i :: rp) c) as [|a l]; [discriminate|].
    injection Hc as ->. simpl. easy.
  - simpl. apply IH.
Qed.

Lemma namedLeaves_hd (t : Tree) (n : Node) :
  forall rp, hd_error (namedLeaves t rp n) = Some (moveDown t rp n).
Proof.
  induction n as [ty nm f tx cs IH] using Node_rect'. intros rp.
  rewrite namedLeaves_eq, moveDown_eq. cbn [children].
  destruct (leavesBelow_hd t rp (mkNode ty nm f tx cs) 0 cs IH) as [_ ->].
  now destruct (leavesBelow t rp 0 cs).
Qed.

Lemma namedLeaves_hd_all (t : Tree) (cs : list Node) :
  Forall (fun c => forall rp', hd_error (namedLeaves t rp' c) = Some (moveDown t rp' c)) cs.
Proof. apply Forall_forall. intros c _ rp'. apply namedLeaves_hd. Qed.

Lemma childNodes_from_length (t : Tree) (rp : list nat) (i : nat) (cs : list Node) :
  length (childNodes_from t rp i cs) = length cs.
Proof. revert i. induction cs as [|c cs IH]; intros i; simpl; [reflexivity|]. now rewrite IH. Qed.

Lemma childNodes_from_app (t : Tree) (rp : list nat) (i : nat) (l1 l2 : list Node) :
  childNodes_from t rp i (l1 ++ l2)
  = childNodes_from t rp i l1 ++ childNodes_from t rp (i + length l1) l2.
Proof.
  revert i. induction l1 as [|c l1 IH]; intros i; simpl.
  - now rewrite Nat.add_0_r.
  - rewrite IH. now replace (S i + length l1) with (i + S (length l1)) by lia.
Qed.

(** The next named sibling of the child after [pre]: the first named
    node among the children that follow it. *)
Lemma nextNamedSibling_child (t : Tree) (rp : list nat) (n c : Node)
    (pre cs : list Node) :
  node_at (rootNode_ t) (rev rp) = Some n ->
  children n = pre ++ c :: cs ->
  nextNamedSibling (mkSyntaxNode t (length pre :: rp) c)
  = hd_error (List.filter named (childNodes_from t rp (S (length pre)) cs)).
Proof.
  intros Hwf Hcs. unfold nextNamedSibling, parent. cbn [rpath tree].
  rewrite Hwf. unfold childNodes. cbn [tree rpath self]. rewrite Hcs.
  rewrite childNodes_from_app. cbn [childNodes_from].
  rewrite skipn_app, childNodes_from_length.
  rewrite skipn_all2 by (rewrite childNodes_from_length; lia).
  replace (S (length pre) - length pre) with 1 by lia. reflexivity.
Qed.

Lemma child_wf (t : Tree) (rp : list nat) (n c : Node) (pre cs : list Node) :
  node_at (rootNode_ t) (rev rp) = Some n ->
  children n = pre ++ c :: cs ->
  node_at (rootNode_ t) (rev (length pre :: rp)) = Some c.
Proof.
  intros Hwf Hcs. simpl. rewrite node_at_app, Hwf. simpl. rewrite Hcs.
  rewrite nth_error_app2 by lia. now rewrite Nat.sub_diag.
Qed.

Lemma moveUp_child (t : Tree) (rp : list nat) (n c : Node) (i : nat) :
  node_at (rootNode_ t) (rev rp) = Some n ->
  moveUp t (i :: rp) c
  = match nextNamedSibling (mkSyntaxNode t (i :: rp) c) with
    | Some _ => mkSyntaxNode t (i :: rp) c
    | None => moveUp t rp n
    end.
Proof. intros Hwf. cbn [moveUp]. now rewrite Hwf. Qed.

Lemma successors_below (t : Tree) (rp : list nat) (n : Node) :
  node_at (rootNode_ t) (rev rp) = Some n ->
  forall cs pre,
    children n = pre ++ cs ->
    Forall (fun c => forall rp', node_at (rootNode_ t) (rev rp') = Some c ->
                                 successorsWithin t rp' c (namedLeaves t rp' c)) cs ->
    successorsWithin t rp n (leavesBelow t rp (length pre) cs).
Proof.
  intros Hwf. induction cs as [|c cs IH]; intros pre Hcs Hall.
  - split; [intros [|k] a b Ha; discriminate | intros z Hz; discriminate].
  - inversion Hall as [|c' cs' Hc Hall']; subst c' cs'.
    assert (Hcs' : children n = (pre ++ [c]) ++ cs) by (now rewrite <- app_assoc).
    specialize (IH (pre ++ [c]) Hcs' Hall').
    rewrite length_app in IH. cbn [length] in IH. rewrite Nat.add_1_r in IH.
    cbn [leavesBelow]. destruct (isNamed c) eqn:Hnamed; [|exact IH].
    pose proof (child_wf t rp n c pre cs Hwf Hcs) as Hcwf.
    destruct (Hc (length pre :: rp) Hcwf) as [HaB HbB].
    destruct IH as [HaM HbM].
    pose proof (nextNamedSibling_child t rp n c pre cs Hwf Hcs) as Hnns.
    destruct (leavesBelow_hd t rp n (S (length pre)) cs (namedLeaves_hd_all t cs))
      as [Hhd _].
    rewrite <- Hnns in Hhd.
    pose proof (namedLeaves_nonempty t (length pre :: rp) c) as HB.
    remember (namedLeaves t (length pre :: rp) c) as B eqn:EB.
    remember (leavesBelow t rp (S (length pre)) cs) as M' eqn:EM.
    remember (mkSyntaxNode t (length pre :: rp) c) as s eqn:Es.
    assert (HlenB : 0 < length B) by (destruct B; [congruence|simpl; lia]).
    split.
    + intros k a b Ha Hb.
      destruct (Nat.lt_ge_cases (S k) (length B)) as [Hlt|Hge].
      * rewrite nth_error_app1 in Ha, Hb by lia. eauto.
      * destruct (Nat.eq_dec (S k) (length B)) as [Heq|Hne].
        -- rewrite nth_error_app1 in Ha by lia.
           rewrite nth_error_app2 in Hb by lia.
           replace (S k - length B) with 0 in Hb by lia.
           assert (Hz : nth_error B (pred (length B)) = Some a)
             by (rewrite <- Heq; exact Ha).
           specialize (HbB a Hz). unfold nextNode.
           rewrite HbB, (moveUp_child t rp n c (length pre) Hwf), <- Es.
           destruct M' as [|b0 M'']; [discriminate|]. injection Hb as ->.
           destruct (nextNamedSibling s) as [x|] eqn:Hx; [|discriminate].
           rewrite Hx. simpl in Hhd. now injection Hhd as ->.
        -- rewrite nth_error_app2 in Ha, Hb by lia.
           replace (S k - length B) with (S (k - length B)) in Hb by lia. eauto.
    + intros z Hz. rewrite length_app in Hz.
      destruct M' as [|b0 M''].
      * rewrite app_nil_r in Hz. cbn [length] in Hz. rewrite Nat.add_0_r in Hz.
        specialize (HbB z Hz).
        rewrite HbB, (moveUp_child t rp n c (length pre) Hwf), <- Es.
        destruct (nextNamedSibling s) as [x|]; [discriminate|reflexivity].
      * rewrite nth_error_app2 in Hz by (cbn [length]; lia).
        replace (pred (length B + length (b0 :: M'')) - length B)
          with (pred (length (b0 :: M''))) in Hz by (cbn [length]; lia).
        now apply HbM.
Qed.

Lemma successors_tree (t : Tree) (n : Node) :
  forall rp, node_at (rootNode_ t) (rev rp) = Some n ->
             successorsWithin t rp n (namedLeaves t rp n).
Proof.
  induction n as [ty nm f tx cs IH] using Node_rect'. intros rp Hwf.
  rewrite namedLeaves_eq. cbn [children].
  pose proof (successors_below t rp _ Hwf cs [] eq_refl IH) as Hbelow.
  cbn [length] in Hbelow.
  destruct (leavesBelow t rp 0 cs) as [|a l]; [|exact Hbelow].
  split.
  - intros [|k] a b Ha Hb; [discriminate|now destruct k].
  - intros z [= <-]. reflexivity.
Qed.

(** Every named leaf below a node carries the tree and extends the path
    of the node. *)
Lemma leavesBelow_paths (t : Tree) (rp : list nat) (i : nat) (cs : list Node) :
  Forall (fun c => forall rp' a, In a (namedLeaves t rp' c) ->
                                 tree a = t /\ exists q, rpath a = q ++ rp') cs ->
  forall a, In a (leavesBelow t rp i cs) ->
            tree a = t /\ exists q j, rpath a = q ++ j :: rp /\ i <= j.
Proof.
  intros Hcs. revert i. induction Hcs as [|c cs Hc _ IH]; intros i a; simpl; [tauto|].
  rewrite in_app_iff. intros [Ha|Ha].
  - destruct (isNamed c); [|destruct Ha].
    destruct (Hc (i :: rp) a Ha) as [Ht [q Hq]]. split; [exact Ht|].
    exists q, i. split; [exact Hq|lia].
  - destruct (IH (S i) a Ha) as [Ht (q & j & Hq & Hj)]. split; [exact Ht|].
    exists q, j. split; [exact Hq|lia].
Qed.

Lemma namedLeaves_paths (t : Tree) (n : Node) :
  forall rp a, In a (namedLeaves t rp n) -> tree a = t /\ exists q, rpath a = q ++ rp.
Proof.
  induction n as [ty nm f tx cs IH] using Node_rect'. intros rp a.
  rewrite namedLeaves_eq. cbn [children].
  pose proof (leavesBelow_paths t rp 0 cs IH a) as Hbelow.
  destruct (leavesBelow t rp 0 cs) as [|b l].
  - intros [<-|[]]. split; [reflexivity|]. now exists [].
  - intros Ha. destruct (Hbelow Ha) as [Ht (q & j & Hq & _)]. split; [exact Ht|].
    exists (q ++ [j]). now rewrite <- app_assoc.
Qed.

Lemma path_last_index (q q' rp : list nat) (i j : nat) :
  q ++ i :: rp = q' ++ j :: rp -> i = j.
Proof.
  intros H. apply (f_equal (@rev nat)) in H. rewrite !rev_app_distr in H. simpl in H.
  rewrite <- !app_assoc in H. apply app_inv_head in H. now injection H.
Qed.

Lemma leavesBelow_NoDup (t : Tree) (rp : list nat) (i : nat) (cs : list Node) :
  Forall (fun c => forall rp', NoDup (namedLeaves t rp' c)) cs ->
  NoDup (leavesBelow t rp i cs).
Proof.
  intros Hcs. revert i. induction Hcs as [|c cs Hc Hcs IH]; intros i; simpl; [constructor|].
  apply NoDup_app. split; [|split].
  - destruct (isNamed c); [apply Hc|constructor].
  - intros a Ha Ha'. apply list_elem_of_In in Ha, Ha'.
    destruct (isNamed c); [|destruct Ha].
    destruct (namedLeaves_paths t c (i :: rp) a Ha) as [_ [q Hq]].
    destruct (leavesBelow_paths t rp (S i) cs
                (proj2 (Forall_forall _ _) (fun c _ => namedLeaves_paths t c)) a Ha')
      as [_ (q' & j & Hq' & Hj)].
    rewrite Hq in Hq'. apply path_last_index in Hq'. lia.
  - apply IH.
Qed.

Lemma namedLeaves_NoDup (t : Tree) (n : Node) :
  forall rp, NoDup (namedLeaves t rp n).
Proof.
  induction n as [ty nm f tx cs IH] using Node_rect'. intros rp.
  rewrite namedLeaves_eq. cbn [children].
  pose proof (leavesBelow_NoDup t rp 0 cs IH) as Hbelow.
  destruct (leavesBelow t rp 0 cs); [|exact Hbelow].
  apply NoDup_singleton.
Qed.

Lemma skipn_nth_error (A : Type) (l : list A) (i : nat) (a : A) :
  nth_error l i = Some a -> skipn i l = a :: skipn (S i) l.
Proof.
  revert i. induction l as [|x l IH]; intros [|i] H; try discriminate.
  - now injection H as ->.
  - simpl. now apply IH.
Qed.

(** Following [nextNode] along a list in which every element is followed
    by its successor walks the rest of the list and stops at its end. *)
Lemma iterateNext_along (l : list SyntaxNode) :
  (forall i a, nth_error l i = Some a -> nextNode a = nth_error l (S i)) ->
  forall n i a, nth_error l i = Some a -> length l <= i + S n ->
                iterateNext n a = skipn i l.
Proof.
  intros Hnext. induction n as [|n IH]; intros i a Ha Hlen.
  - rewrite (skipn_nth_error _ l i a Ha), skipn_all2 by lia. reflexivity.
  - cbn [iterateNext]. rewrite (skipn_nth_error _ l i a Ha), (Hnext i a Ha).
    destruct (nth_error l (S i)) as [b|] eqn:Hb.
    + f_equal. apply IH; [exact Hb|lia].
    + apply nth_error_None in Hb. now rewrite skipn_all2 by lia.
Qed.

(** On a tree of named nodes only, the named leaves are the leaves. *)
Lemma namedLeaves_all_named (t : Tree) (n : Node) :
  allNamedBelow n = true -> forall rp, namedLeaves t rp n = leaves t rp n.
Proof.
  induction n as [ty nm f tx cs IH] using Node_rect'. cbn [allNamedBelow children].
  intros Hall rp. rewrite namedLeaves_eq. cbn [leaves children].
  assert (Hbelow : forall i,
             leavesBelow t rp i cs =
             (fix below (i : nat) (cs : list Node) {struct cs} : list SyntaxNode :=
                match cs with
                | [] => []
                | c :: cs' => leaves t (i :: rp) c ++ below (S i) cs'
                end) i cs).
  { clear nm f tx. induction IH as [|c cs Hc _ IHcs]; intros i; [reflexivity|].
    cbn [forallb] in Hall. apply andb_prop in Hall as [Hc' Hall].
    apply andb_prop in Hc' as [Hnamed Hbelow].
    cbn [leavesBelow]. now rewrite Hnamed, (Hc Hbelow), (IHcs Hall). }
  rewrite Hbelow. destruct cs as [|c cs]; [reflexivity|].
  cbn [forallb] in Hall. apply andb_prop in Hall as [Hc' _].
  apply andb_prop in Hc' as [Hnamed _].
  rewrite <- Hbelow. cbn [leavesBelow]. rewrite Hnamed.
  pose proof (namedLeaves_nonempty t (0 :: rp) c) as Hne.
  now destruct (namedLeaves t (0 :: rp) c).
Qed.

(** [moveDown] follows first named children for as long as there is one. *)
Lemma descend_eq (s : SyntaxNode) :
  descend s = match firstNamedChild s with
              | Some c => descend c
              | None => s
              end.
Proof.
  destruct s as [t rp n]. unfold descend, firstNamedChild, namedChildren, childNodes.
  cbn [tree rpath self]. rewrite moveDown_eq. generalize 0.
  induction (children n) as [|c cs IH]; intros i; simpl; [reflexivity|].
  unfold named at 1. cbn [self]. destruct (isNamed c); [reflexivity|apply IH].
Qed.

(** [nextNode] takes the next named sibling of the nearest node, among
    the node and its ancestors, that has one, and moves down from it. *)
Lemma nextNode_nearest (node : SyntaxNode) :
  nextNode node =
  match List.find hasNextNamedSibling
          (ancestorsOrSelf (tree node) (rpath node) (self node)) with
  | Some a => descend <$> nextNamedSibling a
  | None => None
  end.
Proof.
  destruct node as [t rp n]. unfold nextNode. cbn [tree rpath self].
  revert n. induction rp as [|i rp IH]; intros n.
  - cbn [moveUp ancestorsOrSelf List.find]. unfold hasNextNamedSibling.
    now destruct (nextNamedSibling (mkSyntaxNode t [] n)) as [x|] eqn:Hx; rewrite ?Hx.
  - cbn [moveUp ancestorsOrSelf List.find]. unfold hasNextNamedSibling at 1.
    destruct (nextNamedSibling (mkSyntaxNode t (i :: rp) n)) as [x|] eqn:Hx.
    + now rewrite Hx.
    + destruct (node_at (rootNode_ t) (rev rp)) as [p|]; [apply IH|].
      now rewrite Hx.
Qed.

(** C9, as stated, fails: in [a, b] the comma is a leaf, and the
    iteration from the first leaf goes from [a] to [b] and ends without
    visiting it. *)
Lemma nextNode_skips_anonymous_leaf :
  let a := handleAt commaTree [0] in
  let comma := handleAt commaTree [1] in
  let b := handleAt commaTree [2] in
  leaves commaTree [] (rootNode_ commaTree) = [a; comma; b] /\
  nextNode a = Some b /\ nextNode b = None /\
  iterateNext 10 a = [a; b] /\
  ~ In comma (iterateNext 10 a).
Proof.
  vm_compute. split; [reflexivity|]. split; [reflexivity|]. split; [reflexivity|].
  split; [reflexivity|]. intros [H|[H|[]]]; discriminate.
Qed.

(** C9, amended. In every tree, repeated [nextNode] from the first named
    leaf (the node reached from the root through first named children)
    visits the named leaves (the nodes without named child that are reached
    through named children) exactly once, in document order, and yields no
    node after the last one. Each step moves up to the nearest ancestor
    with a next named sibling and then down that sibling's first named
    children; anonymous nodes are passed over. *)
Theorem nextNode_visits_named_leaves :
  forall t : Tree,
    let visited := namedLeaves t [] (rootNode_ t) in
    let first := descend (rootNode t) in
    hd_error visited = Some first
    /\ (forall i a, nth_error visited i = Some a -> nextNode a = nth_error visited (S i))
    /\ NoDup visited
    /\ (forall n, length visited <= S n -> iterateNext n first = visited)
    /\ (allNamedBelow (rootNode_ t) = true -> visited = leaves t [] (rootNode_ t))
    /\ (forall node,
          nextNode node =
          match List.find hasNextNamedSibling
                  (ancestorsOrSelf (tree node) (rpath node) (self node)) with
          | Some a => descend <$> nextNamedSibling a
          | None => None
          end)
    /\ (forall s, descend s = match firstNamedChild s with
                              | Some c => descend c
                              | None => s
                              end).
Proof.
  intros t visited first.
  assert (Hhd : hd_error visited = Some first) by apply namedLeaves_hd.
  assert (Hnext : forall i a, nth_error visited i = Some a ->
                              nextNode a = nth_error visited (S i)).
  { intros i a Ha.
    destruct (successors_tree t (rootNode_ t) [] eq_refl) as [Hin Hlast].
    fold visited in Hin, Hlast.
    destruct (nth_error visited (S i)) as [b|] eqn:Hb; [eauto|].
    apply nth_error_None in Hb.
    assert (Hi : i < length visited) by (apply nth_error_Some; congruence).
    replace i with (pred (length visited)) in Ha by lia.
    unfold nextNode. rewrite (Hlast a Ha). reflexivity. }
  split; [exact Hhd|]. split; [exact Hnext|]. split; [apply namedLeaves_NoDup|].
  split; [|split; [|split; [exact nextNode_nearest|exact descend_eq]]].
  - intros n Hn. destruct visited as [|x l] eqn:Hv; [discriminate|].
    injection Hhd as <-. rewrite <- Hv in *.
    apply (iterateNext_along visited Hnext n 0 x); [now rewrite Hv|lia].
  - intros Hall. now apply namedLeaves_all_named.
Qed.

Lemma nextNode_visits_named_leaves_witness :
  iterateNext 4 (descend (rootNode commaTree))
  = namedLeaves commaTree [] (rootNode_ commaTree)
  /\ nextNode (handleAt commaTree [0]) = Some (handleAt commaTree [2])
  /\ nextNode (handleAt commaTree [2]) = None.
Proof.
  destruct (nextNode_visits_named_leaves commaTree) as (_ & Hnext & _ & Hiter & _ & _ & _).
  split; [|split].
  - apply Hiter. vm_compute. lia.
  - apply (Hnext 0 (handleAt commaTree [0])). reflexivity.
  - apply (Hnext 1 (handleAt commaTree [2])). reflexivity.
Defined.

(** * Further properties of the tree queries *)

Lemma find_hd_filter {A : Type} (p : A -> bool) (l : list A) :
  List.find p l = hd_error (List.filter p l).
Proof. induction l as [|a l IH]; simpl; [reflexivity|]. now destruct (p a). Qed.

Lemma nonEmpty_some {A : Type} (l r : list A) :
  nonEmpty l = Some r <-> l = r /\ l <> [].
Proof.
  destruct l as [|a l]; simpl; split.
  - discriminate.
  - now intros [_ H].
  - intros [= <-]. now split.
  - now intros [-> _].
Qed.

Lemma nonEmpty_none {A : Type} (l : list A) : nonEmpty l = None <-> l = [].
Proof. destruct l; simpl; split; congruence. Qed.

Lemma findAllNamedChildrenOfType_nonEmpty (ty : KindArg) (node : SyntaxNode) :
  findAllNamedChildrenOfType ty node =
  nonEmpty (match ty with
            | Kinds tys => List.filter (fun child => includes tys (typeOf child))
                                       (childNodes node)
            | OneKind t => List.filter (fun child => String.eqb (typeOf child) t)
                                       (childNodes node)
            end).
Proof. unfold findAllNamedChildrenOfType, nonEmpty. now destruct ty. Qed.

(** ** [flatMap] *)

Lemma flatMap_from_in {T U : Type} (array : list T)
    (callback : T -> nat -> list T -> list U) (u : U) (rest : list T) (i : nat) :
  In u (flatMap_from array callback i rest) <->
  exists k x, nth_error rest k = Some x /\ In u (callback x (i + k) array).
Proof.
  revert i. induction rest as [|y rest IH]; intros i; simpl.
  - split; [tauto|]. intros (k & x & Hk & _). now destruct k.
  - rewrite in_app_iff, IH. split.
    + intros [Hu|(k & x & Hk & Hu)].
      * exists 0, y. rewrite Nat.add_0_r. now split.
      * exists (S k), x. split; [exact Hk|]. now rewrite Nat.add_succ_r.
    + intros ([|k] & x & Hk & Hu).
      * injection Hk as ->. rewrite Nat.add_0_r in Hu. now left.
      * right. exists k, x. split; [exact Hk|]. now rewrite Nat.add_succ_r in Hu.
Qed.

Lemma flatMap_from_flat_map {T U : Type} (array : list T) (f : T -> list U)
    (rest : list T) (i : nat) :
  flatMap_from array (fun x _ _ => f x) i rest = flat_map f rest.
Proof. revert i. induction rest as [|y rest IH]; intros i; simpl; [reflexivity|]. now rewrite IH. Qed.

(** X1. The result of [flatMap] holds exactly the elements of the arrays
    the callback answers for an element of the array at its index; when
    the callback reads its first argument only, it is the concatenation of
    its answers in the order of the array. *)
Theorem flatMap_elements :
  forall (T U : Type) (array : list T) (callback : T -> nat -> list T -> list U),
    (forall u, In u (flatMap array callback) <->
               exists i x, nth_error array i = Some x /\ In u (callback x i array))
    /\ (forall f : T -> list U,
           flatMap array (fun x _ _ => f x) = flat_map f array)
    /\ (forall f : T -> list U,
           length (flatMap array (fun x _ _ => f x))
           = list_sum (map (fun x => length (f x)) array)).
Proof.
  intros T U array callback. split; [|split].
  - intros u. unfold flatMap. now rewrite flatMap_from_in.
  - intros f. apply flatMap_from_flat_map.
  - intros f. unfold flatMap. rewrite flatMap_from_flat_map.
    induction array as [|x l IH]; simpl; [reflexivity|].
    now rewrite length_app, IH.
Qed.

(** ** Children of a kind *)

(** X2. [findAllNamedChildrenOfType] never answers an empty list: it
    answers nothing exactly when no child has the kind, and otherwise the
    children of the kind in order; [findFirstNamedChildOfType] answers the
    first of them. Both look at all children, named or not. *)
Theorem findAllNamedChildrenOfType_first :
  forall (ty : string) (node : SyntaxNode),
    let ofKind := List.filter (fun c => String.eqb (typeOf c) ty) (childNodes node) in
    (findAllNamedChildrenOfType (OneKind ty) node = None <-> ofKind = [])
    /\ (forall l, findAllNamedChildrenOfType (OneKind ty) node = Some l ->
                  l = ofKind /\ l <> [])
    /\ findFirstNamedChildOfType ty node
       = findAllNamedChildrenOfType (OneKind ty) node ≫= hd_error
    /\ (forall c, findFirstNamedChildOfType ty node = Some c ->
                  In c (childNodes node) /\ typeOf c = ty).
Proof.
  intros ty node ofKind. rewrite findAllNamedChildrenOfType_nonEmpty. fold ofKind.
  split; [apply nonEmpty_none|]. split; [|split].
  - intros l Hl. apply nonEmpty_some in Hl as [<- Hne]. now split.
  - unfold findFirstNamedChildOfType. rewrite find_hd_filter. fold ofKind.
    now destruct ofKind.
  - intros c Hc. apply find_some in Hc as [Hin Hty]. split; [exact Hin|].
    now apply String.eqb_eq.
Qed.

(** ** Return types and case subjects *)

Lemma js_index_last_none {A : Type} (l : list A) :
  js_index l (Z.of_nat (length l) - 1) = None <-> l = [].
Proof.
  unfold js_index. destruct l as [|a l]; [easy|].
  cbn [length]. destruct (Z.ltb_spec (Z.of_nat (S (length l)) - 1) 0) as [Hlt|_]; [lia|].
  replace (Z.to_nat (Z.of_nat (S (length l)) - 1)) with (length l) by lia.
  split; [|discriminate]. intros Hn. apply nth_error_None in Hn. simpl in Hn. lia.
Qed.

Lemma js_index_last_some {A : Type} (l : list A) (x : A) :
  js_index l (Z.of_nat (length l) - 1) = Some x -> exists l', l = l' ++ [x].
Proof.
  unfold js_index.
  destruct (Z.ltb_spec (Z.of_nat (length l) - 1) 0) as [Hlt|_]; [discriminate|].
  intros H. destruct (exists_last (l := l)) as (l' & y & ->).
  { intros ->. discriminate. }
  exists l'. rewrite length_app in H. cbn [length] in H.
  replace (Z.to_nat (Z.of_nat (length l' + 1) - 1)) with (length l') in H by lia.
  rewrite nth_error_app2, Nat.sub_diag in H by lia. now injection H as ->.
Qed.

(** X3. [getReturnTypeOrTypeAliasOfFunctionDefinition] ends with a fault
    exactly when the node's previous named sibling is a type annotation
    without any [type_ref] below it; when it answers a node, that node is
    the last [type_ref] of the annotation or the first named child of its
    first named child. *)
Theorem getReturnType_faults_without_type_ref :
  forall node : SyntaxNode,
    ((exists e, getReturnTypeOrTypeAliasOfFunctionDefinition (Some node) = Throw e)
     <-> exists annotation,
           previousNamedSibling node = Some annotation /\
           typeOf annotation = "type_annotation" /\
           descendantsOfType annotation "type_ref" = [])
    /\
    (forall r, getReturnTypeOrTypeAliasOfFunctionDefinition (Some node) = Ok (Some r) ->
       exists annotation before last,
         previousNamedSibling node = Some annotation /\
         typeOf annotation = "type_annotation" /\
         descendantsOfType annotation "type_ref" = before ++ [last] /\
         (r = last \/
          exists wrapped, firstNamedChild last = Some wrapped /\
                          firstNamedChild wrapped = Some r)).
Proof.
  intros node. unfold getReturnTypeOrTypeAliasOfFunctionDefinition.
  destruct (previousNamedSibling node) as [annotation|].
  2:{ split; [|discriminate]. split; [intros [e He]; discriminate|].
      intros (a & Ha & _). discriminate. }
  destruct (String.eqb_spec (typeOf annotation) "type_annotation") as [Hty|Hty].
  2:{ split; [|discriminate]. split; [intros [e He]; discriminate|].
      intros (a & [= <-] & Ha & _). contradiction. }
  destruct (js_index _ _) as [last|] eqn:Hlast.
  - split.
    + split; [intros [e He]; discriminate|].
      intros (a & [= <-] & _ & Hnone). apply js_index_last_none in Hnone. congruence.
    + intros r [= <-]. apply js_index_last_some in Hlast as [before Hbefore].
      exists annotation, before, last. split; [reflexivity|]. split; [exact Hty|].
      split; [exact Hbefore|].
      destruct (firstNamedChild last) as [wrapped|]; simpl; [|now left].
      destruct (firstNamedChild wrapped) as [inner|] eqn:Hinner; [|now left].
      right. now exists wrapped.
  - split; [|discriminate]. split; [|eauto]. intros _.
    exists annotation. split; [reflexivity|]. split; [exact Hty|].
    now apply js_index_last_none.
Qed.

(** X4. [getTypeAliasOfCase] answers nothing without a subject or when
    the checker finds no definition. A definition of kind [TypeAlias] is
    answered as it is, whether the forest knows its file or not; an answer
    from a definition of any other kind needs the definition's file in the
    forest and is what the checker finds there. The call ends with a fault
    only for a definition of kind [Function] whose return type lookup
    faults. *)
Theorem getTypeAliasOfCase_by_kind :
  forall (ty : SyntaxNode) (treeContainer : ITreeContainer)
         (elmWorkspace : IElmWorkspace),
    getTypeAliasOfCase None treeContainer elmWorkspace = Ok None
    /\ (findDefinition elmWorkspace ty treeContainer = None ->
        getTypeAliasOfCase (Some ty) treeContainer elmWorkspace = Ok None)
    /\ (forall d, findDefinition elmWorkspace ty treeContainer = Some d ->
          (defNodeType d = TypeAlias ->
           getTypeAliasOfCase (Some ty) treeContainer elmWorkspace
           = Ok (Some (mkAlias (defNode d) (defUri d))))
          /\ (forall r, defNodeType d <> TypeAlias ->
                getTypeAliasOfCase (Some ty) treeContainer elmWorkspace = Ok (Some r) ->
                exists definitionTree first typeNode,
                  getByUri elmWorkspace (defUri d) = Some definitionTree /\
                  findDefinition elmWorkspace first definitionTree = Some typeNode /\
                  r = mkAlias (defNode typeNode) (defUri typeNode))
          /\ (forall e, getTypeAliasOfCase (Some ty) treeContainer elmWorkspace = Throw e ->
                defNodeType d = Function /\
                getReturnTypeOrTypeAliasOfFunctionDefinition (Some (defNode d)) = Throw e)).
Proof.
  intros ty treeContainer elmWorkspace. split; [reflexivity|]. split.
  { intros Hnone. unfold getTypeAliasOfCase. now rewrite Hnone. }
  intros d Hd. unfold getTypeAliasOfCase. rewrite Hd.
  assert (Hresolve : forall aliasNode_ r,
             resolveAliasNode elmWorkspace aliasNode_
               (getByUri elmWorkspace (defUri d)) = Some r ->
             exists definitionTree first typeNode,
               getByUri elmWorkspace (defUri d) = Some definitionTree /\
               findDefinition elmWorkspace first definitionTree = Some typeNode /\
               r = mkAlias (defNode typeNode) (defUri typeNode)).
  { intros a r. unfold resolveAliasNode.
    destruct a as [a|]; [|discriminate].
    destruct (getByUri elmWorkspace (defUri d)) as [definitionTree|]; [|discriminate].
    destruct (descendantsOfType a "upper_case_identifier") as [|first rest];
      [discriminate|].
    destruct (findDefinition elmWorkspace first definitionTree) as [typeNode|] eqn:Hf;
      [|discriminate].
    intros [= <-]. exists definitionTree, first, typeNode. now split. }
  split; [|split].
  - intros ->. reflexivity.
  - intros r Hkind.
    destruct (defNodeType d); try discriminate; try contradiction.
    + destruct (getReturnTypeOrTypeAliasOfFunctionDefinition (Some (defNode d)))
        as [a|e]; simpl; [|discriminate].
      intros [= Hr]. eapply Hresolve; eauto.
    + intros [= Hr]. eapply Hresolve; eauto.
    + intros [= Hr]. eapply Hresolve; eauto.
  - intros e. destruct (defNodeType d); try discriminate.
    destruct (getReturnTypeOrTypeAliasOfFunctionDefinition (Some (defNode d)))
      as [a|e']; simpl; [discriminate|]. intros [= ->]. now split.
Qed.

Lemma getTypeAliasOfCase_by_kind_witness :
  exists e,
    getTypeAliasOfCase (Some (handleAt variableAnnotation [1; 2]))
      (mkContainer "file:///src/V.elm" true true variableAnnotation) functionWorkspace
    = Throw e
    /\ getReturnTypeOrTypeAliasOfFunctionDefinition (Some (handleAt variableAnnotation [1]))
       = Throw e.
Proof.
  eexists. split; [reflexivity|].
  refine (proj2 (proj2 (proj2 (proj2 (proj2 (getTypeAliasOfCase_by_kind
            (handleAt variableAnnotation [1; 2])
            (mkContainer "file:///src/V.elm" true true variableAnnotation)
            functionWorkspace)) _ eq_refl)) _ _)).
  reflexivity.
Defined.

(** ** Ancestors *)

Lemma findParentOfType_at_find (ty : string) (topLevel : bool) (t : Tree)
    (rp : list nat) (n : Node) :
  findParentOfType_at ty topLevel t rp n
  = List.find (acceptedAs ty topLevel) (ancestorsOrSelf t rp n).
Proof.
  revert n. induction rp as [|i rp IH]; intros n;
    cbn [findParentOfType_at ancestorsOrSelf List.find];
    unfold acceptedAs at 1, typeOf at 1; cbn [self].
  - now destruct (_ && _).
  - destruct (_ && _); [reflexivity|].
    destruct (node_at (rootNode_ t) (rev rp)) as [p|]; [apply IH|reflexivity].
Qed.

(** X5. [findParentOfType] answers the nearest node, starting with the
    node itself, among the node and its ancestors that has the kind (and,
    for a top-level search, whose parent is of kind [file]); it answers
    nothing when there is none. A node of the kind is its own answer. *)
Theorem findParentOfType_nearest :
  forall (ty : string) (node : SyntaxNode) (topLevel : bool),
    findParentOfType ty node topLevel
    = List.find (acceptedAs ty topLevel) (ancestors node)
    /\ (typeOf node = ty -> findParentOfType ty node false = Some node)
    /\ (forall r, findParentOfType ty node topLevel = Some r ->
          In r (ancestors node) /\ typeOf r = ty /\
          (topLevel = true -> exists p, parent r = Some p /\ typeOf p = "file"))
    /\ (findParentOfType ty node topLevel = None <->
        forall a, In a (ancestors node) -> acceptedAs ty topLevel a = false).
Proof.
  intros ty node topLevel.
  assert (Heq : findParentOfType ty node topLevel
                = List.find (acceptedAs ty topLevel) (ancestors node))
    by apply findParentOfType_at_find.
  split; [exact Heq|]. split; [|split].
  - intros Hty. unfold findParentOfType. rewrite findParentOfType_at_find.
    destruct node as [t rp n]. cbn [tree rpath self] in *.
    destruct rp; cbn [ancestorsOrSelf List.find]; unfold acceptedAs, typeOf in *;
      cbn [self] in *; rewrite Hty, String.eqb_refl; reflexivity.
  - intros r Hr. rewrite Heq in Hr. apply find_some in Hr as [Hin Hacc].
    unfold acceptedAs in Hacc. apply andb_prop in Hacc as [Hty Htop].
    split; [exact Hin|]. split; [now apply String.eqb_eq|].
    intros ->. simpl in Htop. destruct (parent r) as [p|]; [|discriminate].
    exists p. split; [reflexivity|]. now apply String.eqb_eq.
  - rewrite Heq. split.
    + apply find_none.
    + intros Hall. destruct (List.find _ _) as [r|] eqn:Hr; [|reflexivity].
      apply find_some in Hr as [Hin Hacc]. rewrite (Hall r Hin) in Hacc. discriminate.
Qed.

Lemma getAllAncestorsOfType_at_filter (ty : string) (t : Tree) (rp : list nat) (n : Node) :
  getAllAncestorsOfType_at ty t rp n
  = List.filter (fun a => String.eqb (typeOf a) ty) (beforeFile (ancestorsOrSelf t rp n)).
Proof.
  revert n. induction rp as [|i rp IH]; intros n;
    cbn [getAllAncestorsOfType_at ancestorsOrSelf beforeFile];
    unfold typeOf; cbn [self];
    destruct (String.eqb (type n) "file"); try reflexivity;
    cbn [List.filter self].
  - now destruct (String.eqb (type n) ty).
  - destruct (node_at (rootNode_ t) (rev rp)) as [p|].
    + rewrite IH. now destruct (String.eqb (type n) ty).
    + now destruct (String.eqb (type n) ty).
Qed.

Lemma hd_filter_beforeFile (p : SyntaxNode -> bool) (l : list SyntaxNode) (a : SyntaxNode) :
  hd_error (List.filter p (beforeFile l)) = Some a -> List.find p l = Some a.
Proof.
  induction l as [|x l IH]; simpl; [discriminate|].
  destruct (String.eqb (typeOf x) "file"); [discriminate|]. simpl.
  destruct (p x); [trivial|exact IH].
Qed.

Lemma find_acceptedAs_anywhere (ty : string) (l : list SyntaxNode) :
  List.find (acceptedAs ty false) l = List.find (fun a => String.eqb (typeOf a) ty) l.
Proof.
  induction l as [|x l IH]; simpl; [reflexivity|].
  unfold acceptedAs at 1. simpl. rewrite andb_true_r.
  now destruct (String.eqb (typeOf x) ty).
Qed.

(** X6. [getAllAncestorsOfType] answers, nearest first, the nodes of the
    kind among the node and its ancestors below the nearest node of kind
    [file]; asked for the kind [file] itself it answers the empty list.
    Its first answer, when there is one, is the answer of
    [findParentOfType]. *)
Theorem getAllAncestorsOfType_below_file :
  forall (ty : string) (node : SyntaxNode),
    getAllAncestorsOfType ty node
    = List.filter (fun a => String.eqb (typeOf a) ty) (beforeFile (ancestors node))
    /\ getAllAncestorsOfType "file" node = []
    /\ (forall a, hd_error (getAllAncestorsOfType ty node) = Some a ->
                  findParentOfType ty node false = Some a)
    /\ (forall a, In a (getAllAncestorsOfType ty node) ->
                  typeOf a = ty /\ typeOf a <> "file" /\ In a (ancestors node)).
Proof.
  intros ty node.
  assert (Heq : forall ty', getAllAncestorsOfType ty' node
                = List.filter (fun a => String.eqb (typeOf a) ty')
                              (beforeFile (ancestors node)))
    by (intros ty'; apply getAllAncestorsOfType_at_filter).
  assert (Hbefore : forall l a, In a (beforeFile l) -> typeOf a <> "file" /\ In a l).
  { induction l as [|x l IH]; simpl; [tauto|].
    destruct (String.eqb_spec (typeOf x) "file") as [Hx|Hx]; [intros a []|].
    intros a [<-|Ha]; [now split; [|left]|].
    destruct (IH a Ha). split; [trivial|now right]. }
  split; [apply Heq|]. split; [|split].
  - rewrite Heq. apply (proj1 (nonEmpty_none _)).
    destruct (List.filter _ _) as [|a l] eqn:Hf; [reflexivity|].
    assert (Ha : In a (a :: l)) by now left. rewrite <- Hf in Ha.
    apply filter_In in Ha as [Ha Hty]. apply Hbefore in Ha as [Hne _].
    now apply String.eqb_eq in Hty.
  - intros a Ha. rewrite Heq in Ha. apply hd_filter_beforeFile in Ha.
    unfold findParentOfType. rewrite findParentOfType_at_find.
    fold (ancestors node). rewrite <- Ha. apply find_acceptedAs_anywhere.
  - intros a Ha. rewrite Heq in Ha. apply filter_In in Ha as [Ha Hty].
    apply Hbefore in Ha as [Hne Hin]. split; [now apply String.eqb_eq|]. now split.
Qed.

(** ** Exposing lists: lookups and tests *)

Lemma append_assoc' (p q r : string) : (p +:+ q) +:+ r = p +:+ (q +:+ r).
Proof.
  induction p as [|c p IH]; [reflexivity|].
  change (String c ((p +:+ q) +:+ r) = String c (p +:+ (q +:+ r))). now rewrite IH.
Qed.

(** X7. For a module declaration, a node found by
    [findExposedFunctionNode] is an [exposed_value] entry whose text is the
    name, and the name then tests as exposed; without the wildcard marker
    every name that tests as exposed is found. A node found by
    [findExposedTypeOrTypeAliasNode] is the first named child of an
    [exposed_type] entry whose text starts with the name, and the name
    tests as an exposed type. *)
Theorem exposed_lookup_agrees_with_test :
  forall (t : Tree) (m : SyntaxNode) (name : string),
    findModuleDeclaration t = Some m ->
    (forall d, findExposedFunctionNode (Some m) name = Some d ->
       isExposedFunction t name = true /\
       descendant m d /\ typeOf d = "exposed_value" /\ textOf d = name)
    /\ (~ hasWildcard m -> isExposedFunction t name = true ->
        exists d, findExposedFunctionNode (Some m) name = Some d)
    /\ (forall c, findExposedTypeOrTypeAliasNode (Some m) name = Some c ->
          isExposedTypeOrTypeAlias t name = true /\
          exists d, descendant m d /\ typeOf d = "exposed_type" /\
                    (exists rest, textOf d = name +:+ rest) /\
                    firstNamedChild d = Some c).
Proof.
  intros t m name Hm.
  unfold findExposedFunctionNode, findExposedTypeOrTypeAliasNode,
    isExposedFunction, isExposedTypeOrTypeAlias. rewrite Hm.
  destruct (exposesAll m) eqn:Hall.
  - split; [discriminate|]. split; [|discriminate].
    intros Hw. apply exposesAll_false in Hw. congruence.
  - split; [|split].
    + intros d Hd. apply find_some in Hd as [Hin Htext].
      split.
      * apply existsb_exists. now exists d.
      * apply in_descendantsOfType in Hin as [Hdesc Hty].
        split; [exact Hdesc|]. split; [exact Hty|]. now apply String.eqb_eq.
    + intros _ Hex. apply existsb_exists in Hex as (d & Hin & Htext).
      apply (find_some_in _ _ d Hin Htext).
    + intros c. destruct (List.find _ _) as [d|] eqn:Hd; [|discriminate].
      intros Hc. apply find_some in Hd as [Hin Hpre]. split.
      * apply existsb_exists. now exists d.
      * exists d. apply in_descendantsOfType in Hin as [Hdesc Hty].
        split; [exact Hdesc|]. split; [exact Hty|]. split; [|exact Hc].
        now apply prefix_app.
Qed.

Lemma exposed_lookup_agrees_with_test_witness :
  exists d, findExposedFunctionNode (Some explicitDeclaration) "foo" = Some d.
Proof.
  apply (proj1 (proj2 (exposed_lookup_agrees_with_test explicitModule
                          explicitDeclaration "foo" eq_refl))).
  - apply exposesAll_false. reflexivity.
  - reflexivity.
Defined.

(** X8. The exposed-type test is closed under prefixes: when a name
    tests as an exposed type or alias, so does each of its prefixes. *)
Theorem isExposedTypeOrTypeAlias_prefix_closed :
  forall (t : Tree) (name rest : string),
    isExposedTypeOrTypeAlias t (name +:+ rest) = true ->
    isExposedTypeOrTypeAlias t name = true.
Proof.
  intros t name rest. unfold isExposedTypeOrTypeAlias.
  destruct (findModuleDeclaration t) as [m|]; [|trivial].
  destruct (exposesAll m); [trivial|].
  rewrite !existsb_exists. intros (d & Hin & Hpre). exists d. split; [exact Hin|].
  unfold startsWith in *. apply prefix_app in Hpre as [r Hr]. apply prefix_app.
  exists (rest +:+ r). now rewrite <- append_assoc'.
Qed.

Lemma isExposedTypeOrTypeAlias_prefix_closed_witness :
  isExposedTypeOrTypeAlias explicitModule "B" = true.
Proof.
  apply (isExposedTypeOrTypeAlias_prefix_closed explicitModule "B" "ar"). reflexivity.
Defined.

(** X9. [getModuleExposingListNodes] answers the empty list without a
    module declaration; otherwise exactly the [exposed_value] and
    [exposed_type] nodes at or below the declaration, all the values
    before all the types. Without the wildcard marker a name tests as
    exposed exactly when it is the text of an [exposed_value] among
    them. *)
Theorem getModuleExposingListNodes_entries :
  forall t : Tree,
    (findModuleDeclaration t = None -> getModuleExposingListNodes t = [])
    /\ (forall m, findModuleDeclaration t = Some m ->
          (forall d, In d (getModuleExposingListNodes t) <->
                     descendant m d /\
                     (typeOf d = "exposed_value" \/ typeOf d = "exposed_type"))
          /\ (exists values types,
                getModuleExposingListNodes t = values ++ types /\
                (forall d, In d values -> typeOf d = "exposed_value") /\
                (forall d, In d types -> typeOf d = "exposed_type"))
          /\ (~ hasWildcard m ->
              forall name,
                isExposedFunction t name = true <->
                exists d, In d (getModuleExposingListNodes t) /\
                          typeOf d = "exposed_value" /\ textOf d = name)).
Proof.
  intros t. unfold getModuleExposingListNodes. split.
  { now intros ->. }
  intros m Hm. rewrite Hm. split; [|split].
  - intros d. rewrite in_app_iff, !in_descendantsOfType. tauto.
  - exists (descendantsOfType m "exposed_value"), (descendantsOfType m "exposed_type").
    split; [reflexivity|].
    split; intros d Hd; now apply in_descendantsOfType in Hd.
  - intros Hw name. apply exposesAll_false in Hw.
    unfold isExposedFunction. rewrite Hm, Hw, existsb_exists. split.
    + intros (d & Hin & Htext). exists d. split; [apply in_app_iff; now left|].
      apply in_descendantsOfType in Hin as [_ Hty]. split; [exact Hty|].
      now apply String.eqb_eq.
    + intros (d & Hin & Hty & Htext). exists d. split.
      * apply in_app_iff in Hin as [Hin|Hin]; [exact Hin|].
        apply in_descendantsOfType in Hin as [_ Hty']. congruence.
      * now apply String.eqb_eq.
Qed.

Lemma getModuleExposingListNodes_entries_witness :
  map textOf (getModuleExposingListNodes explicitModule) = ["foo"; "Bar"]
  /\ (isExposedFunction explicitModule "foo" = true <->
      exists d, In d (getModuleExposingListNodes explicitModule) /\
                typeOf d = "exposed_value" /\ textOf d = "foo").
Proof.
  split; [reflexivity|].
  apply (proj2 (proj2 (proj2 (getModuleExposingListNodes_entries explicitModule)
                         explicitDeclaration eq_refl))).
  apply exposesAll_false. reflexivity.
Defined.

(** ** Functions and operators *)

Lemma findFunctionInPatterns_found (name : string) (functions : list SyntaxNode)
    (r : SyntaxNode) :
  findFunctionInPatterns name functions = Some r ->
  exists f pattern,
    In f functions /\ findFirstNamedChildOfType "pattern" f = Some pattern /\
    descendant pattern r /\ typeOf r = "lower_pattern" /\ textOf r = name.
Proof.
  induction functions as [|f functions IH]; simpl; [discriminate|].
  destruct (findFirstNamedChildOfType "pattern" f) as [pattern|] eqn:Hp.
  - destruct (List.find _ _) as [ret|] eqn:Hret.
    + intros [= <-]. apply find_some in Hret as [Hin Htext].
      apply in_descendantsOfType in Hin as [Hdesc Hty].
      exists f, pattern. split; [now left|]. split; [exact Hp|].
      split; [exact Hdesc|]. split; [exact Hty|].
      symmetry. now apply String.eqb_eq.
    + intros Hr. destruct (IH Hr) as (f' & p' & Hin & Hrest).
      exists f', p'. split; [now right|exact Hrest].
  - intros Hr. destruct (IH Hr) as (f' & p' & Hin & Hrest).
    exists f', p'. split; [now right|exact Hrest].
Qed.

(** X10. What [findFunction] finds is either the
    [function_declaration_left] of a searched declaration whose first
    named child has the name (and [getFunctionNameNodeFromDefinition]
    answers that child), or, only when no searched declaration declares
    the name this way, a [lower_pattern] with the name below the [pattern]
    child of a searched declaration. *)
Theorem findFunction_found :
  forall (syntaxNode : SyntaxNode) (name : string) (only : bool) (r : SyntaxNode),
    findFunction syntaxNode name only = Some r ->
    let functions := searchedDeclarations syntaxNode only in
    (exists f c,
        In f functions /\
        findFirstNamedChildOfType "function_declaration_left" f = Some r /\
        firstNamedChild r = Some c /\ textOf c = name /\
        getFunctionNameNodeFromDefinition r = Some c)
    \/
    ((forall f d c, In f functions ->
                    findFirstNamedChildOfType "function_declaration_left" f = Some d ->
                    firstNamedChild d = Some c -> textOf c <> name)
     /\ exists f pattern,
          In f functions /\ findFirstNamedChildOfType "pattern" f = Some pattern /\
          descendant pattern r /\ typeOf r = "lower_pattern" /\ textOf r = name).
Proof.
  intros syntaxNode name only r. unfold findFunction.
  fold (searchedDeclarations syntaxNode only).
  remember (searchedDeclarations syntaxNode only) as functions eqn:Hf. clear Hf.
  cbv zeta.
  destruct (List.find (declares name) _) as [[ret|]|] eqn:Hfind.
  - intros [= <-]. left. apply find_some in Hfind as [Hin Hdecl].
    apply in_map_iff in Hin as (f & Hret & Hin).
    unfold declares in Hdecl.
    destruct (firstNamedChild ret) as [c|] eqn:Hc; [|discriminate].
    apply String.eqb_eq in Hdecl. exists f, c.
    split; [exact Hin|]. split; [exact Hret|]. split; [reflexivity|].
    split; [now symmetry|].
    unfold getFunctionNameNodeFromDefinition.
    apply find_some in Hret as [_ Hty]. apply String.eqb_eq in Hty.
    rewrite Hty. simpl. exact Hc.
  - apply find_some in Hfind as [_ Hdecl]. discriminate.
  - intros Hr. right. split; [|now apply findFunctionInPatterns_found].
    intros f d c Hin Hd Hc Htext.
    pose proof (find_none _ _ Hfind (Some d)) as Hnone.
    rewrite <- Hd in Hnone. specialize (Hnone (in_map _ _ _ Hin)).
    rewrite Hd in Hnone. unfold declares in Hnone. rewrite Hc, Htext in Hnone.
    now rewrite String.eqb_refl in Hnone.
Qed.

Lemma findFunction_found_witness :
  let r := handleAt patternBinding [1; 0; 0; 3; 0] in
  findFunction (rootNode patternBinding) "y" true = Some r /\
  typeOf r = "lower_pattern" /\ textOf r = "y" /\
  findFunction (rootNode patternBinding) "f" true
  = Some (handleAt patternBinding [0; 0]).
Proof.
  intros r. split; [reflexivity|].
  destruct (findFunction_found (rootNode patternBinding) "y" true r eq_refl)
    as [(f & c & _ & Hleft & _)|(_ & f & pattern & _ & _ & _ & Hty & Htext)].
  - apply find_some in Hleft as [_ Hleft]. discriminate.
  - split; [exact Hty|]. split; [exact Htext|reflexivity].
Defined.


(** ** Handles and the tree they point into *)

Lemma In_childNodes_from (t : Tree) (rp : list nat) (i : nat) (cs : list Node)
    (c : SyntaxNode) :
  In c (childNodes_from t rp i cs) <->
  exists k n, nth_error cs k = Some n /\ c = mkSyntaxNode t (i + k :: rp) n.
Proof.
  revert i. induction cs as [|x cs IH]; intros i; simpl.
  - split; [tauto|]. intros (k & n & Hk & _). now destruct k.
  - rewrite IH. split.
    + intros [<-|(k & n & Hk & ->)].
      * exists 0, x. now rewrite Nat.add_0_r.
      * exists (S k), n. split; [exact Hk|]. now rewrite Nat.add_succ_r.
    + intros (k & n & Hk & ->). destruct k as [|k].
      * left. injection Hk as ->. now rewrite Nat.add_0_r.
      * right. exists k, n. split; [exact Hk|]. now rewrite Nat.add_succ_r.
Qed.

(** A child of a well-formed handle is well formed and has it as its
    parent. *)
Lemma child_parent (a c : SyntaxNode) :
  wellFormed a -> In c (childNodes a) -> parent c = Some a /\ wellFormed c.
Proof.
  destruct a as [t rp n]. unfold wellFormed, childNodes. cbn [tree rpath self].
  intros Hwf Hin. apply In_childNodes_from in Hin as (k & x & Hk & ->).
  unfold parent. cbn [tree rpath self]. rewrite Hwf. split; [reflexivity|].
  cbn [rev]. rewrite node_at_app, Hwf. cbn [node_at Nat.add]. now rewrite Hk.
Qed.

Lemma parent_wellFormed (c p : SyntaxNode) : parent c = Some p -> wellFormed p.
Proof.
  unfold parent. destruct (rpath c) as [|i rp]; [discriminate|].
  destruct (node_at _ _) as [n|] eqn:Hn; [|discriminate]. now intros [= <-].
Qed.

Lemma preorder_wellFormed (t : Tree) (n : Node) :
  forall rp, node_at (rootNode_ t) (rev rp) = Some n ->
             forall d, In d (preorder t rp n) -> wellFormed d.
Proof.
  induction n as [ty nm f tx cs IH] using Node_rect'. intros rp Hwf d.
  cbn [preorder children]. intros [<-|Hin]; [exact Hwf|].
  assert (Hgo : forall cs' pre,
             cs = pre ++ cs' ->
             In d ((fix go (i : nat) (cs : list Node) : list SyntaxNode :=
                      match cs with
                      | [] => []
                      | c :: cs' => preorder t (i :: rp) c ++ go (S i) cs'
                      end) (length pre) cs') ->
             wellFormed d).
  { induction cs' as [|c cs' IHcs]; intros pre Hcs Hd; [destruct Hd|].
    apply in_app_iff in Hd as [Hd|Hd].
    - rewrite List.Forall_forall in IH.
      apply (IH c (ltac:(rewrite Hcs; apply in_elt)) (length pre :: rp)); [|exact Hd].
      apply (child_wf t rp _ c pre cs' Hwf). exact Hcs.
    - apply (IHcs (pre ++ [c])).
      + now rewrite <- app_assoc.
      + rewrite length_app. cbn [length]. now rewrite Nat.add_1_r. }
  apply (Hgo cs []); [reflexivity|exact Hin].
Qed.

Lemma descendant_wellFormed (m d : SyntaxNode) :
  wellFormed m -> descendant m d -> wellFormed d.
Proof. intros Hwf. now apply preorder_wellFormed. Qed.

Lemma rootNode_wellFormed (t : Tree) : wellFormed (rootNode t).
Proof. reflexivity. Qed.

Lemma hd_error_In {A : Type} (l : list A) (x : A) : hd_error l = Some x -> In x l.
Proof. destruct l; [discriminate|]. intros [= ->]. now left. Qed.

(** ** Constructor calls and type calls *)

Lemma firstChildNames_true (name : string) (a : SyntaxNode) :
  firstChildNames name a = true <->
  exists c, firstChild a = Some c /\ typeOf c = "upper_case_identifier" /\ textOf c = name.
Proof.
  unfold firstChildNames. destruct (firstChild a) as [c|]; split.
  - intros H. apply andb_true_iff in H as [Hty Htext].
    exists c. split; [reflexivity|]. split; now apply String.eqb_eq.
  - intros (c' & [= <-] & Hty & Htext). now rewrite Hty, Htext, !String.eqb_refl.
  - discriminate.
  - intros (c' & Hc & _). discriminate.
Qed.

Lemma nonEmpty_in {A : Type} (l : list A) (x : A) : In x l -> nonEmpty l = Some l.
Proof. destruct l; [intros []|reflexivity]. Qed.

Lemma nonEmpty_none_in {A : Type} (l : list A) :
  nonEmpty l = None <-> forall x, ~ In x l.
Proof.
  rewrite nonEmpty_none. split; [now intros ->|].
  destruct l as [|x l]; [reflexivity|]. intros H. destruct (H x). now left.
Qed.

Lemma filter_filter_and {A : Type} (p q : A -> bool) (l : list A) :
  List.filter p (List.filter q l) = List.filter (fun x => q x && p x) l.
Proof.
  induction l as [|x l IH]; simpl; [reflexivity|].
  destruct (q x); simpl; [|exact IH]. destruct (p x); [now rewrite IH|exact IH].
Qed.

(** X12. A constructor call of a name is an [upper_case_qid] node of the
    tree whose first child is an [upper_case_identifier] with the name and
    whose parent exists and is no [type_ref]. [findUnionConstructorCalls]
    answers nothing exactly when the tree has no such node; otherwise it
    answers the list of all of them, in document order, which is never
    empty. None of them is among the type calls of
    [findAllTypeOrTypeAliasCalls], which are first children of [type_ref]
    nodes. *)
Theorem findUnionConstructorCalls_outside_type_refs :
  forall (t : Tree) (name : string),
    (findUnionConstructorCalls t name = None <-> forall a, ~ constructorCall t name a)
    /\ (forall a, constructorCall t name a ->
          exists calls, findUnionConstructorCalls t name = Some calls /\ In a calls)
    /\ (forall calls, findUnionConstructorCalls t name = Some calls ->
          calls <> [] /\ (forall a, In a calls <-> constructorCall t name a) /\
          exists keep, calls = List.filter keep (preorder t [] (rootNode_ t)))
    /\ (forall calls typeCalls a,
          findUnionConstructorCalls t name = Some calls ->
          findAllTypeOrTypeAliasCalls t = Some typeCalls ->
          In a calls -> ~ In a typeCalls).
Proof.
  intros t name.
  set (accepted := fun a : SyntaxNode =>
         firstChildNames name a &&
         match parent a with
         | Some p => negb (String.eqb (typeOf p) "type_ref")
         | None => false
         end).
  set (found := List.filter accepted (descendantsOfType (rootNode t) "upper_case_qid")).
  assert (Hrun : findUnionConstructorCalls t name = nonEmpty found).
  { unfold findUnionConstructorCalls, found. cbv zeta. fold accepted.
    now destruct (descendantsOfType (rootNode t) "upper_case_qid"). }
  assert (Hfound : forall a, In a found <-> constructorCall t name a).
  { intros a. unfold found, constructorCall, accepted.
    rewrite filter_In, in_descendantsOfType, andb_true_iff, firstChildNames_true. split.
    - intros [[Hdesc Hty] [Hfirst Hparent]].
      split; [exact Hdesc|]. split; [exact Hty|]. split; [exact Hfirst|].
      destruct (parent a) as [p|]; [|discriminate]. exists p. split; [reflexivity|].
      intros Hp. rewrite Hp in Hparent. discriminate.
    - intros (Hdesc & Hty & Hfirst & p & Hp & Hnot). rewrite Hp.
      split; [now split|]. split; [exact Hfirst|].
      apply negb_true_iff. now apply String.eqb_neq. }
  assert (Hsome : forall calls, findUnionConstructorCalls t name = Some calls ->
                                calls = found /\ calls <> []).
  { intros calls Hc. rewrite Hrun in Hc. apply nonEmpty_some in Hc as [<- Hne].
    now split. }
  split; [|split; [|split]].
  - rewrite Hrun, nonEmpty_none_in. split; intros H a Ha; apply (H a); now apply Hfound.
  - intros a Ha. exists found. apply Hfound in Ha. split; [|exact Ha].
    rewrite Hrun. now apply (nonEmpty_in found a).
  - intros calls Hc. destruct (Hsome calls Hc) as [-> Hne].
    split; [exact Hne|]. split; [exact Hfound|].
    exists (fun d => String.eqb (typeOf d) "upper_case_qid" && accepted d).
    unfold found, descendantsOfType. cbn [tree rpath self rootNode].
    apply filter_filter_and.
  - intros calls typeCalls a Hc Ht Ha Hin. destruct (Hsome calls Hc) as [-> _].
    apply Hfound in Ha as (_ & _ & _ & p & Hp & Hnot).
    unfold findAllTypeOrTypeAliasCalls in Ht. cbv zeta in Ht.
    apply nonEmpty_some in Ht as [<- _].
    destruct (Nat.ltb 0 _); [|destruct Hin].
    apply in_flat_map in Hin as (r & Hr & Hin).
    apply in_descendantsOfType in Hr as [Hdesc Hty].
    destruct (firstChild r) as [c|] eqn:Hfirst; [|destruct Hin].
    destruct (String.eqb (typeOf c) "upper_case_qid"); [|destruct Hin].
    destruct (firstChild c); [|destruct Hin].
    destruct Hin as [<-|[]].
    apply hd_error_In in Hfirst.
    pose proof (descendant_wellFormed _ _ (rootNode_wellFormed t) Hdesc) as Hwf.
    destruct (child_parent r c Hwf Hfirst) as [Hparent _]. congruence.
Qed.

(** ** Imports *)

Lemma childIs_nth (i : nat) (ty name : string) (a : SyntaxNode) :
  childIs i ty name a = true <->
  exists c, nth_error (childNodes a) i = Some c /\ typeOf c = ty /\ textOf c = name.
Proof.
  unfold childIs. rewrite andb_true_iff. split.
  - intros [_ H]. destruct (nth_error (childNodes a) i) as [c|]; [|discriminate].
    apply andb_true_iff in H as [Hty Htext].
    exists c. split; [reflexivity|]. split; now apply String.eqb_eq.
  - intros (c & Hc & Hty & Htext). split.
    + apply Nat.ltb_lt. apply nth_error_Some. congruence.
    + rewrite Hc, Hty, Htext, !String.eqb_refl. reflexivity.
Qed.

Lemma findAllImportClauseNodes_in (t : Tree) (allImports : list SyntaxNode) :
  findAllImportClauseNodes t = Some allImports ->
  forall a, In a allImports <->
            In a (childNodes (rootNode t)) /\ typeOf a = "import_clause".
Proof.
  unfold findAllImportClauseNodes. intros H. apply nonEmpty_some in H as [<- _].
  intros a. now rewrite filter_In, String.eqb_eq.
Qed.

(** X13. The name node [findImportNameNode] answers is the second child
    of a top-level [import_clause] that carries the module name either as
    its [upper_case_qid] or as the last named child of its [as_clause];
    whenever such a clause exists a name node is found. A clause found by
    [findImportClauseByName] has the module name as the text of its second
    child, an [upper_case_qid], and then [findImportNameNode] finds a name
    node as well. *)
Theorem findImportNameNode_of_import :
  forall (t : Tree) (moduleName : string),
    (forall nameNode, findImportNameNode t moduleName = Some nameNode ->
       exists clause,
         In clause (childNodes (rootNode t)) /\ typeOf clause = "import_clause" /\
         nth_error (childNodes clause) 1 = Some nameNode /\
         (childIs 1 "upper_case_qid" moduleName clause = true \/
          aliasedAs moduleName clause = true))
    /\ (forall clause,
          In clause (childNodes (rootNode t)) -> typeOf clause = "import_clause" ->
          childIs 1 "upper_case_qid" moduleName clause = true \/
          aliasedAs moduleName clause = true ->
          exists nameNode, findImportNameNode t moduleName = Some nameNode)
    /\ (forall clause, findImportClauseByName t moduleName = Some clause ->
          In clause (childNodes (rootNode t)) /\ typeOf clause = "import_clause" /\
          (exists nameNode,
              nth_error (childNodes clause) 1 = Some nameNode /\
              typeOf nameNode = "upper_case_qid" /\ textOf nameNode = moduleName) /\
          exists nameNode, findImportNameNode t moduleName = Some nameNode).
Proof.
  intros t moduleName.
  assert (Hsecond : forall a,
            childIs 1 "upper_case_qid" moduleName a || aliasedAs moduleName a = true ->
            exists n, nth_error (childNodes a) 1 = Some n).
  { intros a Ha. apply orb_true_iff in Ha as [Ha|Ha].
    - apply childIs_nth in Ha as (c & Hc & _). now exists c.
    - unfold aliasedAs in Ha. apply andb_true_iff in Ha as [Hlen _].
      apply Nat.ltb_lt in Hlen.
      destruct (nth_error (childNodes a) 1) as [n|] eqn:Hn; [now exists n|].
      apply nth_error_None in Hn. lia. }
  assert (Hexists : forall clause,
            In clause (childNodes (rootNode t)) -> typeOf clause = "import_clause" ->
            childIs 1 "upper_case_qid" moduleName clause = true \/
            aliasedAs moduleName clause = true ->
            exists nameNode, findImportNameNode t moduleName = Some nameNode).
  { intros clause Hin Hty Hmatch. unfold findImportNameNode.
    destruct (findAllImportClauseNodes t) as [allImports|] eqn:Hall.
    - cbn [mbind option_bind].
      assert (Hclause : In clause allImports)
        by (now apply (findAllImportClauseNodes_in t allImports Hall)).
      destruct (List.find _ allImports) as [m|] eqn:Hm.
      + cbn [mbind option_bind]. apply find_some in Hm as [_ Hm].
        exact (Hsecond m Hm).
      + pose proof (find_none _ _ Hm clause Hclause) as Hno.
        apply orb_false_iff in Hno as [H1 H2]. destruct Hmatch; congruence.
    - unfold findAllImportClauseNodes in Hall. apply nonEmpty_none in Hall.
      assert (Hf : In clause (List.filter (fun a => String.eqb (typeOf a) "import_clause")
                                (childNodes (rootNode t))))
        by (apply filter_In; split; [exact Hin|now apply String.eqb_eq]).
      rewrite Hall in Hf. destruct Hf. }
  split; [|split; [exact Hexists|]].
  - intros nameNode. unfold findImportNameNode.
    destruct (findAllImportClauseNodes t) as [allImports|] eqn:Hall; [|discriminate].
    cbn [mbind option_bind].
    destruct (List.find _ allImports) as [m|] eqn:Hm; [|discriminate].
    cbn [mbind option_bind]. intros Hname. apply find_some in Hm as [Hin Hm].
    apply (findAllImportClauseNodes_in t allImports Hall) in Hin as [Hin Hty].
    exists m. split; [exact Hin|]. split; [exact Hty|]. split; [exact Hname|].
    now apply orb_true_iff.
  - intros clause. unfold findImportClauseByName.
    destruct (findAllImportClauseNodes t) as [allImports|] eqn:Hall; [|discriminate].
    cbn [mbind option_bind]. intros Hfind. apply find_some in Hfind as [Hin Hmatch].
    apply (findAllImportClauseNodes_in t allImports Hall) in Hin as [Hin Hty].
    split; [exact Hin|]. split; [exact Hty|]. split.
    + now apply childIs_nth.
    + apply (Hexists clause Hin Hty). now left.
Qed.

Lemma filter_last_split {A : Type} (p : A -> bool) (l l' : list A) (x : A) :
  List.filter p l = l' ++ [x] ->
  exists before after,
    l = before ++ x :: after /\ p x = true /\ forall a, In a after -> p a = false.
Proof.
  revert l' x. induction l as [|y l IH] using rev_ind; intros l' x.
  - simpl. intros H. now destruct l'.
  - rewrite List.filter_app. cbn [List.filter]. destruct (p y) eqn:Hy.
    + intros H. apply app_inj_tail in H as [_ <-].
      exists l, []. split; [reflexivity|]. split; [exact Hy|]. intros a [].
    + rewrite app_nil_r. intros H. destruct (IH l' x H) as (before & after & -> & Hx & Hafter).
      exists before, (after ++ [y]). split; [now rewrite <- app_assoc|].
      split; [exact Hx|]. intros a Ha. apply in_app_iff in Ha as [Ha|[<-|[]]]; auto.
Qed.

(** X14. [getLastImportNode] answers the last [import_clause] among the
    children of the root: no child after it is an [import_clause]; it
    answers nothing exactly when no child is one. *)
Theorem getLastImportNode_last :
  forall t : Tree,
    (forall n, getLastImportNode t = Some n ->
       exists before after,
         childNodes (rootNode t) = before ++ n :: after /\
         typeOf n = "import_clause" /\
         forall a, In a after -> typeOf a <> "import_clause")
    /\ (getLastImportNode t = None <->
        forall a, In a (childNodes (rootNode t)) -> typeOf a <> "import_clause").
Proof.
  intros t. unfold getLastImportNode, findAllImportClauseNodes.
  remember (List.filter (fun a => String.eqb (typeOf a) "import_clause")
              (childNodes (rootNode t))) as imports eqn:Himports.
  split.
  - intros n. destruct imports as [|i0 imports']; [discriminate|].
    cbn [nonEmpty]. destruct (Nat.eqb_spec (length (i0 :: imports')) 0) as [|_];
      [discriminate|].
    intros Hlast. apply js_index_last_some in Hlast as [l' Hl'].
    rewrite Hl' in Himports. symmetry in Himports.
    apply filter_last_split in Himports as (before & after & Hsplit & Hn & Hafter).
    exists before, after. split; [exact Hsplit|]. split; [now apply String.eqb_eq|].
    intros a Ha. apply String.eqb_neq. now apply Hafter.
  - split.
    + intros Hnone a Ha Hty.
      assert (Hin : In a imports)
        by (rewrite Himports; apply filter_In; split;
            [exact Ha|now apply String.eqb_eq]).
      destruct imports as [|i0 imports']; [destruct Hin|].
      cbn [nonEmpty] in Hnone.
      destruct (Nat.eqb_spec (length (i0 :: imports')) 0) as [|_]; [discriminate|].
      apply js_index_last_none in Hnone. discriminate.
    + intros Hno. destruct imports as [|i0 imports']; [reflexivity|].
      assert (Hin : In i0 (List.filter (fun a => String.eqb (typeOf a) "import_clause")
                             (childNodes (rootNode t))))
        by (rewrite <- Himports; now left).
      apply filter_In in Hin as [Hin Hty]. apply String.eqb_eq in Hty.
      now destruct (Hno i0 Hin).
Qed.

(** ** Record fields *)

(** X15. A field of a node is the pair of the text of the first
    [lower_case_identifier] child and the text of the first
    [type_expression] child of a [field_type] node at or below it that has
    both; the fields of a nested record are among them.
    [getAllFieldsFromTypeAlias] answers nothing exactly when there is no
    field (in particular without a node); otherwise it answers the list of
    all fields, one for each such [field_type] in document order, which is
    never empty. *)
Theorem getAllFieldsFromTypeAlias_fields :
  forall node : option SyntaxNode,
    (getAllFieldsFromTypeAlias node = None <-> forall field ty, ~ fieldOf node field ty)
    /\ (forall field ty, fieldOf node field ty ->
          exists fields, getAllFieldsFromTypeAlias node = Some fields /\
                         In (field, ty) fields)
    /\ (forall fields, getAllFieldsFromTypeAlias node = Some fields ->
          fields <> [] /\
          (forall field ty, In (field, ty) fields <-> fieldOf node field ty) /\
          exists n, node = Some n /\
                    fields = flat_map fieldEntry (descendantsOfType n "field_type")).
Proof.
  intros node.
  set (found := match node with
                | Some n => flat_map fieldEntry (descendantsOfType n "field_type")
                | None => []
                end).
  assert (Hrun : getAllFieldsFromTypeAlias node = nonEmpty found).
  { unfold getAllFieldsFromTypeAlias, found. destruct node as [n|]; [|reflexivity].
    cbv zeta. now destruct (descendantsOfType n "field_type"). }
  assert (Hfound : forall field ty, In (field, ty) found <-> fieldOf node field ty).
  { intros field ty. unfold found, fieldOf. destruct node as [n|].
    - rewrite in_flat_map. split.
      + intros (a & Ha & Hin). apply in_descendantsOfType in Ha as [Hdesc Hty].
        unfold fieldEntry in Hin.
        destruct (findFirstNamedChildOfType "lower_case_identifier" a)
          as [fieldName|] eqn:Hf; [|destruct Hin].
        destruct (findFirstNamedChildOfType "type_expression" a)
          as [typeExpression|] eqn:He; [|destruct Hin].
        destruct Hin as [[= <- <-]|[]].
        now exists n, a, fieldName, typeExpression.
      + intros (n' & a & fieldName & typeExpression
                & [= <-] & Hdesc & Hty & Hf & He & -> & ->).
        exists a. split; [now apply in_descendantsOfType|].
        unfold fieldEntry. rewrite Hf, He. now left.
    - split; [intros []|]. intros (n & _ & _ & _ & Hn & _). discriminate. }
  split; [|split].
  - rewrite Hrun, nonEmpty_none_in. split.
    + intros H field ty He. apply (H (field, ty)). now apply Hfound.
    + intros H [field ty] Hin. apply (H field ty). now apply Hfound.
  - intros field ty He. exists found. apply Hfound in He. split; [|exact He].
    rewrite Hrun. now apply (nonEmpty_in found (field, ty)).
  - intros fields Hf. rewrite Hrun in Hf. apply nonEmpty_some in Hf as [<- Hne].
    split; [exact Hne|]. split; [exact Hfound|].
    unfold found in *. destruct node as [n|]; [now exists n|now destruct Hne].
Qed.

(** ** Where the successor traversal ends *)

Lemma descend_named_leaf (n : Node) :
  forall t rp,
    firstNamedChild (descend (mkSyntaxNode t rp n)) = None /\
    (isNamed n = true -> named (descend (mkSyntaxNode t rp n)) = true).
Proof.
  induction n as [ty nm f tx cs IH] using Node_rect'. intros t rp.
  rewrite descend_eq.
  destruct (firstNamedChild (mkSyntaxNode t rp (mkNode ty nm f tx cs))) as [c|] eqn:Hc.
  - apply hd_error_In in Hc. unfold namedChildren in Hc.
    apply filter_In in Hc as [Hin Hnamed].
    unfold childNodes in Hin. cbn [tree rpath self children] in Hin.
    apply In_childNodes_from in Hin as (k & x & Hk & ->).
    rewrite List.Forall_forall in IH.
    destruct (IH x (nth_error_In _ _ Hk) t (0 + k :: rp)) as [Hleaf Hn].
    split; [exact Hleaf|]. intros _. now apply Hn.
  - split; [exact Hc|]. now intros.
Qed.

(** X16. Whatever node it starts from, the node [nextNode] answers is a
    named node without named child; from a node without parent it answers
    nothing. *)
Theorem nextNode_answers_named_leaf :
  forall node : SyntaxNode,
    (forall next, nextNode node = Some next ->
                  named next = true /\ firstNamedChild next = None)
    /\ (rpath node = [] -> nextNode node = None).
Proof.
  intros node. split.
  - intros next. unfold nextNode.
    destruct (nextNamedSibling (moveUp _ _ _)) as [s|] eqn:Hs; [|discriminate].
    intros [= <-].
    assert (Hnamed : named s = true).
    { unfold nextNamedSibling in Hs.
      destruct (rpath (moveUp _ _ _)) as [|i rp]; [discriminate|].
      destruct (parent (moveUp _ _ _)) as [p|]; [|discriminate].
      apply hd_error_In, filter_In in Hs. tauto. }
    destruct s as [t rp n]. cbn [tree rpath self].
    destruct (descend_named_leaf n t rp) as [Hleaf Hn]. split; [|exact Hleaf].
    now apply Hn.
  - destruct node as [t rp n]. cbn [rpath]. intros ->. reflexivity.
Qed.

Lemma nextNode_answers_named_leaf_witness :
  nextNode (handleAt commaTree [0]) = Some (handleAt commaTree [2]) /\
  named (handleAt commaTree [2]) = true /\
  firstNamedChild (handleAt commaTree [2]) = None.
Proof.
  split; [reflexivity|].
  apply (proj1 (nextNode_answers_named_leaf (handleAt commaTree [0]))). reflexivity.
Defined.

(** ** The annotation of a declaration *)

Lemma skipComments_eq (fuel : nat) (candidate : option SyntaxNode) :
  skipComments fuel candidate =
  match candidate with
  | Some c =>
      if isComment c then
        match fuel with
        | O => OutOfFuel
        | S fuel' => skipComments fuel' (previousNamedSibling c)
        end
      else Finished (Ok candidate)
  | None => Finished (Ok None)
  end.
Proof. destruct fuel; reflexivity. Qed.

Lemma firstn_childNodes_from (t : Tree) (rp : list nat) (k i : nat) (cs : list Node) :
  firstn i (childNodes_from t rp k cs) = childNodes_from t rp k (firstn i cs).
Proof.
  revert k i. induction cs as [|c cs IH]; intros k [|i]; simpl; try reflexivity.
  now rewrite IH.
Qed.

Lemma previousNamedSibling_hd (node : SyntaxNode) :
  previousNamedSibling node = hd_error (precedingNamedSiblings node).
Proof.
  unfold previousNamedSibling, precedingNamedSiblings.
  destruct (rpath node); [reflexivity|]. now destruct (parent node).
Qed.

(** The comment loop over the named children before a position: with
    fuel for every child before it, it ends at the nearest one that is no
    comment. *)
Lemma skipComments_closed (t : Tree) (rp : list nat) (pn : Node) :
  node_at (rootNode_ t) (rev rp) = Some pn ->
  forall pre post fuel,
    children pn = pre ++ post ->
    length pre <= fuel ->
    skipComments fuel (hd_error (rev (List.filter named (childNodes_from t rp 0 pre))))
    = Finished (Ok (List.find (fun a => negb (isComment a))
                              (rev (List.filter named (childNodes_from t rp 0 pre))))).
Proof.
  intros Hwf pre. induction pre as [|x pre IH] using rev_ind; intros post fuel Hcs Hfuel.
  - now rewrite skipComments_eq.
  - rewrite childNodes_from_app, List.filter_app, rev_app_distr.
    cbn [childNodes_from List.filter]. unfold named at 1 3. cbn [self].
    rewrite <- app_assoc in Hcs. rewrite length_app in Hfuel. cbn [length] in Hfuel.
    destruct (isNamed x) eqn:Hx.
    + cbn [rev app hd_error List.find]. rewrite skipComments_eq.
      destruct (isComment _) eqn:Hcomment; cbn [negb]; [|reflexivity].
      destruct fuel as [|fuel]; [lia|].
      assert (Hprev : previousNamedSibling (mkSyntaxNode t (0 + length pre :: rp) x)
                      = hd_error (rev (List.filter named (childNodes_from t rp 0 pre)))).
      { unfold previousNamedSibling, parent. cbn [rpath tree]. rewrite Hwf.
        unfold childNodes. cbn [tree rpath self]. rewrite Hcs.
        rewrite firstn_childNodes_from. cbn [Nat.add].
        rewrite firstn_app, Nat.sub_diag, firstn_all. cbn [firstn].
        now rewrite app_nil_r. }
      rewrite Hprev. apply (IH ([x] ++ post)); [exact Hcs|lia].
    + cbn [rev app]. apply (IH ([x] ++ post)); [exact Hcs|lia].
Qed.

Lemma getTypeAnnotation_fuel_closed (fuel : nat) (v : SyntaxNode) :
  childIndex v <= fuel ->
  getTypeAnnotation_fuel fuel (Some v) =
  Finished (Ok (if String.eqb (typeOf v) "value_declaration"
                then match nearestNonComment v with
                     | Some a =>
                         if String.eqb (typeOf a) "type_annotation" then Some a else None
                     | None => None
                     end
                else None)).
Proof.
  intros Hfuel. unfold getTypeAnnotation_fuel.
  destruct (String.eqb (typeOf v) "value_declaration"); [|reflexivity]. cbn [negb].
  assert (Hskip : skipComments fuel (previousNamedSibling v)
                  = Finished (Ok (nearestNonComment v))).
  { rewrite previousNamedSibling_hd. unfold nearestNonComment, precedingNamedSiblings.
    unfold childIndex in Hfuel.
    destruct (rpath v) as [|i rp] eqn:Hrp; [now rewrite skipComments_eq|].
    unfold parent. rewrite Hrp.
    destruct (node_at (rootNode_ (tree v)) (rev rp)) as [pn|] eqn:Hpn;
      [|now rewrite skipComments_eq].
    unfold childNodes. cbn [tree rpath self hd] in *.
    rewrite firstn_childNodes_from.
    apply (skipComments_closed (tree v) rp pn Hpn (firstn i (children pn))
             (skipn i (children pn))).
    - now rewrite firstn_skipn.
    - rewrite length_firstn. lia. }
  rewrite Hskip. destruct (nearestNonComment v) as [a|]; [|reflexivity].
  now destruct (String.eqb (typeOf a) "type_annotation").
Qed.

(** A declaration right after a [type_annotation] gets that annotation. *)
Lemma getTypeAnnotation_of_annotated (v : SyntaxNode) :
  typeOf v = "value_declaration" -> lacksAnnotation v = false ->
  exists a, previousNamedSibling v = Some a /\ typeOf a = "type_annotation" /\
            getTypeAnnotation (Some v) = Finished (Ok (Some a)).
Proof.
  intros Hty Hlacks. unfold getTypeAnnotation.
  rewrite (getTypeAnnotation_fuel_closed (childIndex v) v (Nat.le_refl _)), Hty,
    String.eqb_refl.
  unfold lacksAnnotation in Hlacks. rewrite previousNamedSibling_hd in *.
  unfold nearestNonComment.
  destruct (precedingNamedSiblings v) as [|a l]; [discriminate|].
  cbn [hd_error] in *. apply negb_false_iff in Hlacks.
  exists a. split; [reflexivity|]. split; [now apply String.eqb_eq|]. cbn [List.find].
  assert (Hc : negb (isComment a) = true).
  { unfold isComment. apply String.eqb_eq in Hlacks as Ha. now rewrite Ha. }
  now rewrite Hc, Hlacks.
Qed.

(** X17. [getTypeAnnotation] always returns: one round of its comment
    loop for every sibling before the declaration suffices. For a
    [value_declaration] it answers the nearest named sibling before it
    that is no comment, when that is a [type_annotation], and nothing
    otherwise. A declaration whose previous named sibling is a
    [type_annotation] gets that sibling; one whose previous named sibling
    is a comment counts as lacking an annotation for
    [findAllTopLevelFunctionDeclarationsWithoutTypeAnnotation], whatever
    [getTypeAnnotation] finds behind the comment. *)
Theorem getTypeAnnotation_skips_comments :
  forall v : SyntaxNode,
    (forall fuel, childIndex v <= fuel ->
                  getTypeAnnotation_fuel fuel (Some v) = getTypeAnnotation (Some v))
    /\ getTypeAnnotation (Some v) =
       Finished (Ok (if String.eqb (typeOf v) "value_declaration"
                     then match nearestNonComment v with
                          | Some a =>
                              if String.eqb (typeOf a) "type_annotation"
                              then Some a else None
                          | None => None
                          end
                     else None))
    /\ (typeOf v = "value_declaration" -> lacksAnnotation v = false ->
        exists a, previousNamedSibling v = Some a /\
                  getTypeAnnotation (Some v) = Finished (Ok (Some a)))
    /\ (forall c, previousNamedSibling v = Some c -> isComment c = true ->
                  lacksAnnotation v = true).
Proof.
  intros v.
  assert (Hclosed := getTypeAnnotation_fuel_closed (childIndex v) v (Nat.le_refl _)).
  split; [|split; [exact Hclosed|split]].
  - intros fuel Hfuel. unfold getTypeAnnotation.
    now rewrite Hclosed, (getTypeAnnotation_fuel_closed fuel v Hfuel).
  - intros Hty Hlacks.
    destruct (getTypeAnnotation_of_annotated v Hty Hlacks) as (a & Hprev & _ & Hget).
    now exists a.
  - intros c Hc Hcomment. unfold lacksAnnotation. rewrite Hc.
    unfold isComment in Hcomment. apply orb_true_iff in Hcomment as [H|H];
      apply String.eqb_eq in H; now rewrite H.
Qed.

Lemma getTypeAnnotation_skips_comments_witness :
  let declaration := handleAt commentedAnnotation [2] in
  getTypeAnnotation (Some declaration)
  = Finished (Ok (Some (handleAt commentedAnnotation [0])))
  /\ lacksAnnotation declaration = true
  /\ findAllTopLevelFunctionDeclarationsWithoutTypeAnnotation commentedAnnotation
     = Some [declaration].
Proof.
  intros declaration.
  destruct (getTypeAnnotation_skips_comments declaration) as (_ & Hclosed & _ & Hlacks).
  split; [rewrite Hclosed; reflexivity|]. split; [|reflexivity].
  apply (Hlacks (handleAt commentedAnnotation [1])); reflexivity.
Defined.

(** ** The type variables of an alias *)

(** X18. [findTypeAliasTypeVariable] searches the nearest
    [type_alias_declaration] among the node and its ancestors only: it
    answers the first [lower_type_name] child of that declaration with the
    text, and nothing when there is no such declaration or that declaration
    has no such child, whatever an outer declaration holds. *)
Theorem findTypeAliasTypeVariable_in_nearest_alias :
  forall (node : SyntaxNode) (name : string),
    findTypeAliasTypeVariable node name
    = match List.find (fun a => String.eqb (typeOf a) "type_alias_declaration")
              (ancestors node) with
      | Some typeAlias =>
          List.find (fun c => String.eqb (typeOf c) "lower_type_name"
                              && String.eqb (textOf c) name) (childNodes typeAlias)
      | None => None
      end.
Proof.
  intros node name. unfold findTypeAliasTypeVariable, findParentOfType.
  rewrite findParentOfType_at_find, find_acceptedAs_anywhere.
  fold (ancestors node).
  destruct (List.find _ (ancestors node)) as [typeAlias|]; [|reflexivity].
  cbn [mbind option_bind]. rewrite findAllNamedChildrenOfType_nonEmpty.
  assert (Hfind : forall l : list SyntaxNode,
            List.find (fun t => String.eqb (textOf t) name)
              (List.filter (fun child => String.eqb (typeOf child) "lower_type_name") l)
            = List.find (fun c => String.eqb (typeOf c) "lower_type_name"
                                  && String.eqb (textOf c) name) l).
  { induction l as [|c cs IH]; [reflexivity|]. cbn [List.filter List.find].
    destruct (String.eqb (typeOf c) "lower_type_name"); cbn [List.find andb];
      [|exact IH].
    destruct (String.eqb (textOf c) name); [reflexivity|exact IH]. }
  rewrite <- Hfind.
  destruct (List.filter _ (childNodes typeAlias)) as [|c cs]; reflexivity.
Qed.

Lemma findTypeAliasTypeVariable_in_nearest_alias_witness :
  findTypeAliasTypeVariable (handleAt boxAlias [0; 5; 0; 1; 2; 0]) "a"
  = Some (handleAt boxAlias [0; 3])
  /\ findTypeAliasTypeVariable (handleAt boxAlias [0; 5; 0; 1; 2; 0]) "b" = None.
Proof.
  rewrite !findTypeAliasTypeVariable_in_nearest_alias. split; reflexivity.
Defined.

(** ** Declarations with and without annotation *)

(** X22. [findAllTopLevelFunctionDeclarations] answers nothing exactly
    when the root has no [value_declaration] child, and otherwise the list
    of these children in order; [findAllTopLevelFunctionDeclarationsWithoutTypeAnnotation]
    answers nothing exactly when every such child has a [type_annotation]
    as its previous named sibling, and otherwise the list of those that
    have not. So every [value_declaration] child of the root is listed by
    the first; it is listed by the second as well, or [getTypeAnnotation]
    returns its previous named sibling, a [type_annotation], and the second
    does not list it. *)
Theorem annotated_declarations :
  forall t : Tree,
    (findAllTopLevelFunctionDeclarations t = None <->
     forall v, ~ topLevelDeclaration t v)
    /\ (forall declarations,
          findAllTopLevelFunctionDeclarations t = Some declarations ->
          declarations
          = List.filter (fun a => String.eqb (typeOf a) "value_declaration")
                        (childNodes (rootNode t)))
    /\ (findAllTopLevelFunctionDeclarationsWithoutTypeAnnotation t = None <->
        forall v, topLevelDeclaration t v -> lacksAnnotation v = false)
    /\ (forall without,
          findAllTopLevelFunctionDeclarationsWithoutTypeAnnotation t = Some without ->
          forall v, In v without <-> topLevelDeclaration t v /\ lacksAnnotation v = true)
    /\ (forall v, topLevelDeclaration t v ->
          (exists declarations,
              findAllTopLevelFunctionDeclarations t = Some declarations /\
              In v declarations)
          /\ ((exists without,
                 findAllTopLevelFunctionDeclarationsWithoutTypeAnnotation t = Some without /\
                 In v without)
              \/
              ((forall without,
                   findAllTopLevelFunctionDeclarationsWithoutTypeAnnotation t
                   = Some without -> ~ In v without) /\
               exists a, previousNamedSibling v = Some a /\
                         typeOf a = "type_annotation" /\
                         getTypeAnnotation (Some v) = Finished (Ok (Some a))))).
Proof.
  intros t.
  unfold findAllTopLevelFunctionDeclarations,
    findAllTopLevelFunctionDeclarationsWithoutTypeAnnotation.
  set (all := List.filter (fun a => String.eqb (typeOf a) "value_declaration")
                (childNodes (rootNode t))).
  set (bare := List.filter (fun a => String.eqb (typeOf a) "value_declaration"
                                     && lacksAnnotation a)
                 (childNodes (rootNode t))).
  assert (Hall : forall v, In v all <-> topLevelDeclaration t v)
    by (intros v; unfold all, topLevelDeclaration; now rewrite filter_In, String.eqb_eq).
  assert (Hbare : forall v, In v bare <-> topLevelDeclaration t v /\ lacksAnnotation v = true).
  { intros v. unfold bare, topLevelDeclaration.
    rewrite filter_In, andb_true_iff, String.eqb_eq. tauto. }
  split; [|split; [|split; [|split]]].
  - rewrite nonEmpty_none_in. split; intros H v Hv; apply (H v); now apply Hall.
  - intros declarations Hd. now apply nonEmpty_some in Hd as [<- _].
  - rewrite nonEmpty_none_in. split.
    + intros H v Hv. destruct (lacksAnnotation v) eqn:Hl; [|reflexivity].
      destruct (H v). now apply Hbare.
    + intros H v Hv. apply Hbare in Hv as [Hv Hl]. rewrite (H v Hv) in Hl. discriminate.
  - intros without Hw. apply nonEmpty_some in Hw as [<- _]. exact Hbare.
  - intros v Hv. split.
    + exists all. split; [|now apply Hall]. apply (nonEmpty_in all v). now apply Hall.
    + destruct (lacksAnnotation v) eqn:Hl.
      * left. exists bare. assert (Hin : In v bare) by now apply Hbare.
        split; [now apply (nonEmpty_in bare v)|exact Hin].
      * right. split.
        -- intros without Hw Hin. apply nonEmpty_some in Hw as [<- _].
           apply Hbare in Hin as [_ Hl']. congruence.
        -- apply getTypeAnnotation_of_annotated; [apply Hv|exact Hl].
Qed.

Lemma annotated_declarations_witness :
  findAllTopLevelFunctionDeclarations commentedAnnotation
  = Some [handleAt commentedAnnotation [2]]
  /\ findAllTopLevelFunctionDeclarationsWithoutTypeAnnotation commentedAnnotation
     = Some [handleAt commentedAnnotation [2]]
  /\ findAllTopLevelFunctionDeclarationsWithoutTypeAnnotation variableAnnotation = None
  /\ (exists declarations,
        findAllTopLevelFunctionDeclarations variableAnnotation = Some declarations /\
        In (handleAt variableAnnotation [1]) declarations)
  /\ exists a,
       previousNamedSibling (handleAt variableAnnotation [1]) = Some a /\
       typeOf a = "type_annotation" /\
       getTypeAnnotation (Some (handleAt variableAnnotation [1])) = Finished (Ok (Some a)).
Proof.
  split; [reflexivity|]. split; [reflexivity|]. split; [reflexivity|].
  destruct (annotated_declarations variableAnnotation) as (_ & _ & _ & _ & Hdeclared).
  destruct (Hdeclared (handleAt variableAnnotation [1])) as [Hlisted Hchoice].
  { split; [right; now left|reflexivity]. }
  split; [exact Hlisted|].
  destruct Hchoice as [(without & Hwithout & _)|[_ Hannotated]];
    [discriminate Hwithout|exact Hannotated].
Defined.

(** ** The alias of a record *)

Lemma resolveAliasNode_some (elmWorkspace : IElmWorkspace)
    (aliasNode_ : option SyntaxNode) (definitionTree_ : option ITreeContainer)
    (r : AliasResult) :
  resolveAliasNode elmWorkspace aliasNode_ definitionTree_ = Some r ->
  exists definitionTree first typeNode,
    definitionTree_ = Some definitionTree /\
    findDefinition elmWorkspace first definitionTree = Some typeNode /\
    r = mkAlias (defNode typeNode) (defUri typeNode).
Proof.
  unfold resolveAliasNode.
  destruct aliasNode_ as [a|]; [|discriminate].
  destruct definitionTree_ as [definitionTree|]; [|discriminate].
  destruct (descendantsOfType a "upper_case_identifier") as [|first rest]; [discriminate|].
  destruct (findDefinition elmWorkspace first definitionTree) as [typeNode|] eqn:Hf;
    [|discriminate].
  intros [= <-]. now exists definitionTree, first, typeNode.
Qed.

(** The part of [getTypeAliasOfRecord] after the subject is chosen. *)
Lemma subject_answersAbout (elmWorkspace : IElmWorkspace) (treeContainer : ITreeContainer)
    (subject : SyntaxNode) :
  answersAbout elmWorkspace treeContainer subject
    (match findDefinition elmWorkspace subject treeContainer with
     | None => Ok None
     | Some definitionNode =>
         let definitionTree := getByUri elmWorkspace (defUri definitionNode) in
         match defNodeType definitionNode, firstNamedChild (defNode definitionNode) with
         | FunctionParameter, Some parameter =>
             Ok (resolveAliasNode elmWorkspace
                   (getTypeOrTypeAliasOfFunctionParameter (Some parameter))
                   definitionTree)
         | Function, _ =>
             bindR (getReturnTypeOrTypeAliasOfFunctionDefinition
                      (Some (defNode definitionNode)))
                   (fun aliasNode =>
                      Ok (resolveAliasNode elmWorkspace aliasNode definitionTree))
         | FieldType, _ =>
             Ok (resolveAliasNode elmWorkspace
                   (findFirstNamedChildOfType "type_expression" (defNode definitionNode))
                   definitionTree)
         | TypeAlias, _ =>
             Ok (Some (mkAlias (defNode definitionNode) (defUri definitionNode)))
         | _, _ => Ok None
         end
     end).
Proof.
  unfold answersAbout.
  destruct (findDefinition elmWorkspace subject treeContainer) as [d|];
    [|split; [reflexivity|discriminate]].
  split; [discriminate|]. intros d' [= <-]. cbv zeta.
  split; [|split; [|split]].
  - intros ->. now destruct (firstNamedChild (defNode d)).
  - intros ->. now destruct (firstNamedChild (defNode d)).
  - intros r Hkind.
    destruct (defNodeType d) eqn:Hk; try congruence;
      destruct (firstNamedChild (defNode d)) as [parameter|]; try discriminate.
    + destruct (getReturnTypeOrTypeAliasOfFunctionDefinition (Some (defNode d)))
        as [a|e']; cbn [bindR]; [|discriminate].
      intros [= Hr]. now apply (resolveAliasNode_some _ a).
    + destruct (getReturnTypeOrTypeAliasOfFunctionDefinition (Some (defNode d)))
        as [a|e']; cbn [bindR]; [|discriminate].
      intros [= Hr]. now apply (resolveAliasNode_some _ a).
    + intros [= Hr]. now apply (resolveAliasNode_some _ _ _ _ Hr).
    + intros [= Hr]. now apply (resolveAliasNode_some _ _ _ _ Hr).
    + intros [= Hr]. now apply (resolveAliasNode_some _ _ _ _ Hr).
  - intros e.
    destruct (defNodeType d); destruct (firstNamedChild (defNode d)); try discriminate.
    + destruct (getReturnTypeOrTypeAliasOfFunctionDefinition (Some (defNode d)))
        as [a|e']; cbn [bindR]; [discriminate|]. now intros [= <-].
    + destruct (getReturnTypeOrTypeAliasOfFunctionDefinition (Some (defNode d)))
        as [a|e']; cbn [bindR]; [discriminate|]. now intros [= <-].
Qed.

(** X19. [getTypeAliasOfRecord] answers nothing without a node or for a
    node without a grandparent. Otherwise it asks the checker about one
    subject: the first named child (or the node itself when it has none)
    of the first [record_base_identifier] child of the grandparent or,
    failing that, of the parent; without either, of the parent of what the
    return type lookup of the great-grandparent answers or, when that
    answers nothing or there is no great-grandparent, of the node itself.
    A fault of that return type lookup ends the call. For the subject, a
    definition of kind [TypeAlias] is answered as it is, a definition of
    kind [FieldType] through its [type_expression] child, nothing is
    answered when the checker finds no definition, any other answer is
    what the checker finds in the tree the forest holds for the
    definition's file, and a fault is the fault of the return type lookup
    of a definition of kind [Function]. *)
Theorem getTypeAliasOfRecord_answers :
  forall (node : SyntaxNode) (treeContainer : ITreeContainer)
         (elmWorkspace : IElmWorkspace),
    let result := getTypeAliasOfRecord (Some node) treeContainer elmWorkspace in
    getTypeAliasOfRecord None treeContainer elmWorkspace = Ok None
    /\ (grandparent (Some node) = None -> result = Ok None)
    /\ (forall p1 p2,
          parent node = Some p1 -> parent p1 = Some p2 ->
          (forall base,
              findFirstNamedChildOfType "record_base_identifier" p2 = Some base ->
              answersAbout elmWorkspace treeContainer (firstNamedChildOr base) result)
          /\ (forall base,
                findFirstNamedChildOfType "record_base_identifier" p2 = None ->
                findFirstNamedChildOfType "record_base_identifier" p1 = Some base ->
                answersAbout elmWorkspace treeContainer (firstNamedChildOr base) result)
          /\ (findFirstNamedChildOfType "record_base_identifier" p2 = None ->
              findFirstNamedChildOfType "record_base_identifier" p1 = None ->
              match parent p2 with
              | None =>
                  answersAbout elmWorkspace treeContainer (firstNamedChildOr node) result
              | Some p3 =>
                  match getReturnTypeOrTypeAliasOfFunctionDefinition (Some p3) with
                  | Throw e => result = Throw e
                  | Ok returned =>
                      answersAbout elmWorkspace treeContainer
                        (firstNamedChildOr (default node (returned ≫= parent))) result
                  end
              end)).
Proof.
  intros node treeContainer elmWorkspace result. split; [reflexivity|]. split.
  - unfold grandparent, result, getTypeAliasOfRecord. cbn [mbind option_bind].
    destruct (parent node) as [p1|]; cbn [mbind option_bind]; [|reflexivity].
    destruct (parent p1) as [p2|]; [discriminate|reflexivity].
  - intros p1 p2 H1 H2. unfold result, getTypeAliasOfRecord. rewrite H1, H2. cbv zeta.
    split; [|split].
    + intros base Hbase. rewrite Hbase. cbn [bindR]. apply subject_answersAbout.
    + intros base Hnone Hbase. rewrite Hnone, Hbase. cbn [bindR].
      apply subject_answersAbout.
    + intros Hnone2 Hnone1. rewrite Hnone2, Hnone1.
      destruct (parent p2) as [p3|]; cbn [bindR]; [|apply subject_answersAbout].
      destruct (getReturnTypeOrTypeAliasOfFunctionDefinition (Some p3)) as [returned|e];
        cbn [bindR]; [|reflexivity].
      destruct (returned ≫= parent) as [ty|]; apply subject_answersAbout.
Qed.

(** ** Consecutive change notifications *)

Section ReparseSequence.

Variable parse : string -> option Tree -> Tree.
Variable fsPath : string -> string.
Variable readFileSync : string -> option string.
Variable Imports : Type.
Variable updateImports :
  string -> Tree -> gmap string ITreeContainer -> Imports -> Imports.

#[local] Abbreviation handle :=
  (handleChangeTextDocument parse fsPath readFileSync Imports updateImports).

Lemma lastParsed_app (start : Tree) (first second : list ContentChange) :
  lastParsed parse start (first ++ second)
  = lastParsed parse (lastParsed parse start first) second.
Proof. unfold lastParsed. apply fold_left_app. Qed.

(** The run of the handler from a workspace whose forest holds a tree
    of the file. *)
Lemma handle_known (params : DidChangeTextDocumentParams) (w : World Imports)
    (container : ITreeContainer) :
  forest w !! documentUri params = Some container ->
  let t := lastParsed parse (containerTree container) (contentChanges params) in
  handle params w =
  (Ok tt,
   installed Imports updateImports w (documentUri params) t
     (events w
        ++ [EvInfo ("Changed text document, going to parse it. " +:+ documentUri params);
            EvGetTree (documentUri params)]
        ++ parses (contentChanges params)
        ++ [EvSetTree (documentUri params) true true t;
            EvUpdateImports (documentUri params) t])).
Proof.
  intros Hcur t.
  unfold handleChangeTextDocument, forest_getTree, forest_setTree,
    imports_updateImports, installed.
  unfold mbind, M_bind, emit, gets, modify, mret, M_ret. cbn.
  rewrite Hcur. cbn. rewrite reparseChanges_run. cbn.
  rewrite <- !app_assoc. reflexivity.
Qed.

(** The run of the handler from a workspace whose forest holds no tree
    of the file, when the file can be read. *)
Lemma handle_unknown (params : DidChangeTextDocumentParams) (w : World Imports)
    (fileContent : string) :
  forest w !! documentUri params = None ->
  readFileSync (fsPath (documentUri params)) = Some fileContent ->
  let t := lastParsed parse (parse fileContent None) (contentChanges params) in
  handle params w =
  (Ok tt,
   installed Imports updateImports w (documentUri params) t
     (events w
        ++ [EvInfo ("Changed text document, going to parse it. " +:+ documentUri params);
            EvGetTree (documentUri params);
            EvReadFile (fsPath (documentUri params));
            EvParse fileContent None]
        ++ parses (contentChanges params)
        ++ [EvSetTree (documentUri params) true true t;
            EvUpdateImports (documentUri params) t])).
Proof.
  intros Hcur Hread t.
  unfold handleChangeTextDocument, forest_getTree, fs_readFileSync, parser_parse,
    forest_setTree, imports_updateImports, installed.
  unfold mbind, M_bind, emit, gets, modify, mret, M_ret. cbn.
  rewrite Hcur. cbn. rewrite Hread. cbn. rewrite reparseChanges_run. cbn.
  rewrite <- !app_assoc. reflexivity.
Qed.

Lemma handle_unreadable (params : DidChangeTextDocumentParams) (w : World Imports) :
  forest w !! documentUri params = None ->
  readFileSync (fsPath (documentUri params)) = None ->
  fst (handle params w) = Throw (IOError (fsPath (documentUri params))).
Proof.
  intros Hcur Hread.
  unfold handleChangeTextDocument, forest_getTree, fs_readFileSync.
  unfold mbind, M_bind, emit, gets, throw, mret, M_ret. cbn.
  rewrite Hcur. cbn. rewrite Hread. reflexivity.
Qed.

(** X20. After a notification the handler has handled without fault,
    a further notification for the same file is handled without fault and
    without reading the file: it starts from the tree the forest holds.
    The forest it leaves is the one a single notification carrying the
    changes of both would have left. *)
Theorem handleChangeTextDocument_twice :
  forall (first second : DidChangeTextDocumentParams) (w w1 : World Imports),
    documentUri second = documentUri first ->
    handle first w = (Ok tt, w1) ->
    exists w2,
      handle second w1 = (Ok tt, w2)
      /\ (forall path, ~ In (EvReadFile path) (skipn (length (events w1)) (events w2)))
      /\ forest w2
         = forest (snd (handle (mkParams (documentUri first)
                                  (contentChanges first ++ contentChanges second)) w)).
Proof.
  intros first second w w1 Huri Hfirst.
  set (both := mkParams (documentUri first)
                 (contentChanges first ++ contentChanges second)).
  assert (Hinstalled :
            exists start,
              forest w1 = <[documentUri first :=
                              mkContainer (documentUri first) true true
                                (lastParsed parse start (contentChanges first))]> (forest w)
              /\ forest (snd (handle both w))
                 = <[documentUri first :=
                       mkContainer (documentUri first) true true
                         (lastParsed parse start (contentChanges both))]> (forest w)).
  { destruct (forest w !! documentUri first) as [container|] eqn:Hcur.
    - exists (containerTree container).
      rewrite (handle_known first w container Hcur) in Hfirst.
      rewrite (handle_known both w container Hcur).
      injection Hfirst as <-. now split.
    - destruct (readFileSync (fsPath (documentUri first))) as [fileContent|] eqn:Hread.
      + exists (parse fileContent None).
        rewrite (handle_unknown first w fileContent Hcur Hread) in Hfirst.
        rewrite (handle_unknown both w fileContent Hcur Hread).
        injection Hfirst as <-. now split.
      + pose proof (handle_unreadable first w Hcur Hread) as Hthrow.
        rewrite Hfirst in Hthrow. discriminate. }
  destruct Hinstalled as (start & Hw1 & Hboth).
  assert (Hcur1 : forest w1 !! documentUri second
                  = Some (mkContainer (documentUri first) true true
                            (lastParsed parse start (contentChanges first)))).
  { rewrite Huri, Hw1. apply lookup_insert_eq. }
  rewrite (handle_known second w1 _ Hcur1). cbn [containerTree].
  eexists. split; [reflexivity|]. split.
  - intros path. unfold installed. cbn [events].
    rewrite skipn_app, Nat.sub_diag, skipn_all. cbn [skipn app].
    intros [H|[H|H]]; try discriminate.
    apply in_app_iff in H as [H|[H|[H|[]]]]; try discriminate.
    unfold parses in H. apply in_map_iff in H as (c & Hc & _). discriminate.
  - rewrite Hboth. unfold installed. cbn [forest contentChanges both].
    rewrite Huri, Hw1, insert_insert_eq, lastParsed_app. reflexivity.
Qed.

End ReparseSequence.

Lemma handleChangeTextDocument_twice_witness :
  let second := mkParams "file:///src/M.elm" [mkChange None None "module M exposing (bar)"] in
  let w1 := snd (handleChangeTextDocument demoParse demoPath demoStorage nat
                   demoUpdateImports demoParams demoWorld) in
  exists w2,
    handleChangeTextDocument demoParse demoPath demoStorage nat demoUpdateImports
      second w1 = (Ok tt, w2)
    /\ (forall path, ~ In (EvReadFile path) (skipn (length (events w1)) (events w2)))
    /\ forest w2
       = forest (snd (handleChangeTextDocument demoParse demoPath demoStorage nat
                        demoUpdateImports
                        (mkParams (documentUri demoParams)
                           (contentChanges demoParams ++ contentChanges second))
                        demoWorld)).
Proof.
  intros second w1.
  apply (handleChangeTextDocument_twice demoParse demoPath demoStorage nat
           demoUpdateImports demoParams second demoWorld w1).
  - reflexivity.
  - unfold w1.
    rewrite (handle_unknown demoParse demoPath demoStorage nat demoUpdateImports
               demoParams demoWorld "module M exposing (foo)" (lookup_empty _) eq_refl).
    reflexivity.
Defined.

(** ** Type calls *)

(** X21. A type call of a name is an [upper_case_qid] node with the
    name as its text that has a child and is the first child of a
    [type_ref] of the tree; that [type_ref] is its parent.
    [findTypeOrTypeAliasCalls] answers nothing exactly when the tree has
    no type call of the name; otherwise it answers a list that holds
    exactly the type calls of the name and is never empty. *)
Theorem findTypeOrTypeAliasCalls_in_type_refs :
  forall (t : Tree) (name : string),
    (findTypeOrTypeAliasCalls t name = None <-> forall a, ~ typeCall t name a)
    /\ (forall a, typeCall t name a ->
          exists calls, findTypeOrTypeAliasCalls t name = Some calls /\ In a calls)
    /\ (forall calls, findTypeOrTypeAliasCalls t name = Some calls ->
          calls <> [] /\ forall a, In a calls <-> typeCall t name a)
    /\ (forall a, typeCall t name a ->
          exists typeRef, parent a = Some typeRef /\ typeOf typeRef = "type_ref").
Proof.
  intros t name.
  set (callOf := fun a : SyntaxNode =>
         match firstChild a with
         | Some c =>
             if String.eqb (typeOf c) "upper_case_qid"
             then match firstChild c with
                  | Some _ => [c]
                  | None => []
                  end
             else []
         | None => []
         end).
  set (found := List.filter (fun a => String.eqb (textOf a) name)
                  (flat_map callOf (descendantsOfType (rootNode t) "type_ref"))).
  assert (Hrun : findTypeOrTypeAliasCalls t name = nonEmpty found).
  { unfold findTypeOrTypeAliasCalls, findAllTypeOrTypeAliasCalls, found. cbv zeta.
    fold callOf.
    destruct (descendantsOfType (rootNode t) "type_ref") as [|r rs]; [reflexivity|].
    cbn [length Nat.ltb Nat.leb].
    now destruct (flat_map callOf (r :: rs)). }
  assert (Hfound : forall a, In a found <-> typeCall t name a).
  { intros a. unfold found, typeCall.
    rewrite filter_In, String.eqb_eq, in_flat_map. split.
    - intros [(r & Hr & Hin) Htext]. split; [exact Htext|].
      apply in_descendantsOfType in Hr as [Hdesc Hty]. unfold callOf in Hin.
      destruct (firstChild r) as [c|] eqn:Hfirst; [|destruct Hin].
      destruct (String.eqb (typeOf c) "upper_case_qid") eqn:Hqid; [|destruct Hin].
      destruct (firstChild c) eqn:Hc; [|destruct Hin].
      destruct Hin as [<-|[]].
      split; [now apply String.eqb_eq|]. split; [congruence|].
      exists r. now split.
    - intros (Htext & Hqid & Hchild & r & Hdesc & Hty & Hfirst).
      split; [|exact Htext]. exists r. split; [now apply in_descendantsOfType|].
      unfold callOf. rewrite Hfirst, Hqid, String.eqb_refl.
      destruct (firstChild a); [now left|congruence]. }
  split; [|split; [|split]].
  - rewrite Hrun, nonEmpty_none_in. split; intros H a Ha; apply (H a); now apply Hfound.
  - intros a Ha. exists found. apply Hfound in Ha. split; [|exact Ha].
    rewrite Hrun. now apply (nonEmpty_in found a).
  - intros calls Hc. rewrite Hrun in Hc. apply nonEmpty_some in Hc as [<- Hne].
    split; [exact Hne|exact Hfound].
  - intros a (_ & _ & _ & r & Hdesc & Hty & Hfirst).
    exists r. split; [|exact Hty]. apply hd_error_In in Hfirst.
    pose proof (descendant_wellFormed _ _ (rootNode_wellFormed t) Hdesc) as Hwf.
    now destruct (child_parent r a Hwf Hfirst).
Qed.

Lemma findTypeOrTypeAliasCalls_in_type_refs_witness :
  findTypeOrTypeAliasCalls constructorUse "Foo"
  = Some [handleAt constructorUse [0; 2; 0; 0]]
  /\ findTypeOrTypeAliasCalls constructorUse "Bar" = None
  /\ exists calls,
       findTypeOrTypeAliasCalls constructorUse "Foo" = Some calls /\
       In (handleAt constructorUse [0; 2; 0; 0]) calls.
Proof.
  split; [reflexivity|]. split; [reflexivity|].
  apply (proj1 (proj2 (findTypeOrTypeAliasCalls_in_type_refs constructorUse "Foo"))).
  split; [reflexivity|]. split; [reflexivity|]. split; [discriminate|].
  exists (handleAt constructorUse [0; 2; 0]). split; [|split; reflexivity].
  unfold descendant. apply (nth_error_In _ 5). reflexivity.
Defined.

(** ** The properties at the example trees *)

Lemma findAllNamedChildrenOfType_first_witness :
  In (handleAt commaTree [0]) (childNodes (rootNode commaTree)) /\
  typeOf (handleAt commaTree [0]) = "lower_case_identifier".
Proof.
  destruct (findAllNamedChildrenOfType_first "lower_case_identifier" (rootNode commaTree))
    as (_ & _ & _ & Hfirst).
  apply Hfirst. reflexivity.
Defined.

Lemma getReturnType_faults_without_type_ref_witness :
  exists e,
    getReturnTypeOrTypeAliasOfFunctionDefinition (Some (handleAt variableAnnotation [1]))
    = Throw e.
Proof.
  apply (proj2 (proj1 (getReturnType_faults_without_type_ref
                         (handleAt variableAnnotation [1])))).
  exists (handleAt variableAnnotation [0]). split; [reflexivity|]. split; reflexivity.
Defined.

Lemma findParentOfType_nearest_witness :
  findParentOfType "type_alias_declaration" (handleAt boxAlias [0]) false
  = Some (handleAt boxAlias [0]).
Proof.
  apply (proj1 (proj2 (findParentOfType_nearest "type_alias_declaration"
                         (handleAt boxAlias [0]) false))).
  reflexivity.
Defined.

Lemma getAllAncestorsOfType_below_file_witness :
  findParentOfType "field_type" (handleAt boxAlias [0; 5; 0; 1; 2; 0]) false
  = Some (handleAt boxAlias [0; 5; 0; 1]).
Proof.
  apply (proj1 (proj2 (proj2 (getAllAncestorsOfType_below_file "field_type"
                                (handleAt boxAlias [0; 5; 0; 1; 2; 0]))))).
  reflexivity.
Defined.


Lemma findUnionConstructorCalls_outside_type_refs_witness :
  findUnionConstructorCalls constructorUse "Foo" = Some [handleAt constructorUse [1; 2; 0]]
  /\ (exists calls,
        findUnionConstructorCalls constructorUse "Foo" = Some calls /\
        In (handleAt constructorUse [1; 2; 0]) calls)
  /\ ~ In (handleAt constructorUse [1; 2; 0]) [handleAt constructorUse [0; 2; 0; 0]].
Proof.
  split; [reflexivity|].
  destruct (findUnionConstructorCalls_outside_type_refs constructorUse "Foo")
    as (_ & Hcalls & _ & Hapart).
  split.
  - apply Hcalls. split; [|split; [reflexivity|split]].
    + unfold descendant. apply (nth_error_In _ 13). reflexivity.
    + exists (handleAt constructorUse [1; 2; 0; 0]). now split.
    + exists (handleAt constructorUse [1; 2]). split; [reflexivity|discriminate].
  - apply (Hapart [handleAt constructorUse [1; 2; 0]]
             [handleAt constructorUse [0; 2; 0; 0]]); [reflexivity|reflexivity|now left].
Defined.

Lemma findImportNameNode_of_import_witness :
  findImportClauseByName aliasedImports "B" = Some (handleAt aliasedImports [1])
  /\ findImportNameNode aliasedImports "B" = Some (handleAt aliasedImports [0; 1])
  /\ exists clause,
       In clause (childNodes (rootNode aliasedImports)) /\
       typeOf clause = "import_clause" /\
       nth_error (childNodes clause) 1 = Some (handleAt aliasedImports [0; 1]) /\
       (childIs 1 "upper_case_qid" "B" clause = true \/ aliasedAs "B" clause = true).
Proof.
  split; [reflexivity|]. split; [reflexivity|].
  apply (proj1 (findImportNameNode_of_import aliasedImports "B")). reflexivity.
Defined.

Lemma getLastImportNode_last_witness :
  exists before after,
    childNodes (rootNode aliasedImports) = before ++ handleAt aliasedImports [1] :: after /\
    typeOf (handleAt aliasedImports [1]) = "import_clause" /\
    forall a, In a after -> typeOf a <> "import_clause".
Proof.
  apply (proj1 (getLastImportNode_last aliasedImports)). reflexivity.
Defined.

Lemma getAllFieldsFromTypeAlias_fields_witness :
  getAllFieldsFromTypeAlias (Some (handleAt boxAlias [0])) = Some [("value", "a")]
  /\ exists fields,
       getAllFieldsFromTypeAlias (Some (handleAt boxAlias [0])) = Some fields /\
       In ("value", "a") fields.
Proof.
  split; [reflexivity|].
  apply (proj1 (proj2 (getAllFieldsFromTypeAlias_fields (Some (handleAt boxAlias [0]))))).
  exists (handleAt boxAlias [0]), (handleAt boxAlias [0; 5; 0; 1]),
    (handleAt boxAlias [0; 5; 0; 1; 0]), (handleAt boxAlias [0; 5; 0; 1; 2]).
  split; [reflexivity|]. split.
  - unfold descendant. apply (nth_error_In _ 9). reflexivity.
  - repeat (split; [reflexivity|]). reflexivity.
Defined.

Lemma getTypeAliasOfRecord_answers_witness :
  getTypeAliasOfRecord (Some (handleAt recordUpdate [0; 2; 3; 0]))
    (mkContainer "file:///src/R.elm" true true recordUpdate) aliasWorkspace
  = Ok (Some (mkAlias (handleAt boxAlias [0]) "file:///src/B.elm"))
  /\ firstNamedChildOr (handleAt recordUpdate [0; 2; 1]) = handleAt recordUpdate [0; 2; 1; 0].
Proof.
  split; [|reflexivity].
  destruct (getTypeAliasOfRecord_answers (handleAt recordUpdate [0; 2; 3; 0])
              (mkContainer "file:///src/R.elm" true true recordUpdate) aliasWorkspace)
    as (_ & _ & Hsubject).
  destruct (Hsubject (handleAt recordUpdate [0; 2; 3]) (handleAt recordUpdate [0; 2])
              eq_refl eq_refl) as (Hbase & _).
  destruct (Hbase (handleAt recordUpdate [0; 2; 1]) eq_refl) as [_ Hdefinition].
  destruct (Hdefinition (mkDefinition (handleAt boxAlias [0]) "file:///src/B.elm" TypeAlias)
              eq_refl) as (Halias & _).
  exact (Halias eq_refl).
Defined.
